(** * pythresh: a projective-geometry threshold scheme

    Shallow embedding of [t_threshold_encrypt.py] and
    [t_threshold_decrypt.py], and the properties of the scheme.

    Conventions of the embedding.
    - An element of [GF(q)] (q prime) is its representative in [0, q).
    - A Sage projective point is the list of its coordinates; Sage keeps
      points over a field normalised: the last non-zero coordinate is 1.
    - A Python exception is a [Raise e] result; a loop or recursion whose
      length is not known beforehand takes fuel and answers [OutOfFuel]
      when it runs out. (CPython ends a recursion that goes on with a
      [RecursionError], at its recursion limit; the model has no such
      limit, its fuel stands for it.)
    - [print] is modelled by the list of messages written.
    - The module [random] is a tape of naturals: a draw below [n] takes the
      next cell modulo [n]; a run that needs more draws than the tape holds
      answers [OutOfFuel].
    - What the source takes from Sage ([GF], [ProjectiveSpace],
      [rational_points], [is_prime], the rank of a matrix) is defined here
      by what it computes. *)

From Stdlib Require Import ZArith List Lia Znumtheory Zcong.
From stdpp Require Import gmap list.

Local Open Scope Z_scope.

(** ** Exceptions and results *)

Inductive exn : Set :=
  | ValueError
  | IndexError
  | KeyError
  | TypeError.

Inductive result (A : Type) : Type :=
  | Ok (a : A)
  | Raise (e : exn)
  | OutOfFuel.

Arguments Ok {A} a.
Arguments Raise {A} e.
Arguments OutOfFuel {A}.

#[global] Instance result_ret : MRet result := fun _ a => Ok a.
#[global] Instance result_bind : MBind result := fun _ _ f r =>
  match r with
  | Ok a => f a
  | Raise e => Raise e
  | OutOfFuel => OutOfFuel
  end.

#[global] Instance exn_eq_dec : EqDecision exn.
Proof. solve_decision. Defined.

(** ** The field GF(q) *)

Module GF.

(** [GF(q)(x)]: coercion of an integer into the field. *)
Definition of_Z (q x : Z) : Z := x mod q.

Definition add (q a b : Z) : Z := (a + b) mod q.
Definition mul (q a b : Z) : Z := (a * b) mod q.

(** The elements in the order Sage iterates over them. *)
Definition elements (q : Z) : list Z := seqZ 0 q.

(** Multiplicative inverse. *)
Definition inv (q a : Z) : Z := Z.invmod a q.

(** [sage.is_prime], by trial division. *)
Definition is_prime (q : Z) : bool :=
  (1 <? q) && forallb (fun k => negb (q mod k =? 0)) (seqZ 2 (q - 2)).

End GF.

(** ** Projective points *)

Abbreviation point := (list Z).

(** [ProjectiveSpace(dimension, GF(order))]. *)
Record ProjectiveSpace : Set := mkSpace {
  dimension : nat;
  order : Z
}.

(** The last non-zero entry of a vector. *)
Definition last_nonzero (v : list Z) : option Z :=
  last (filter (fun x => x ≠ 0) v).

(** [projective_space(v)]: the point with coordinates [v], normalised.
    Sage takes [dimension + 1] coordinates, or [dimension] coordinates, to
    which it appends the one of the field; it refuses every other length
    with a [TypeError], and the zero vector with a [ValueError]. *)
Definition projective_space (P : ProjectiveSpace) (v : list Z) : result point :=
  if bool_decide (length v ≠ S (dimension P) ∧ length v ≠ dimension P)
  then Raise TypeError
  else
    let w := map (GF.of_Z (order P)) v in
    let w := if bool_decide (length w = dimension P)
             then w ++ [GF.of_Z (order P) 1] else w in
    match last_nonzero w with
    | None => Raise ValueError
    | Some c => Ok (map (GF.mul (order P) (GF.inv (order P) c)) w)
    end.

(** A list of coordinates is a point of [P] when it has [dimension + 1]
    entries of the field and is normalised. *)
Definition is_point (P : ProjectiveSpace) (p : point) : Prop :=
  length p = S (dimension P) ∧
  Forall (fun x => 0 ≤ x < order P) p ∧
  last_nonzero p = Some 1.

#[global] Instance is_point_dec P p : Decision (is_point P p).
Proof. unfold is_point. apply _. Defined.

(** ** Lines *)

(** [zeta * p_1 + alpha * p_2], coordinate by coordinate: the NumPy arrays
    hold field elements, so the arithmetic is that of the field. *)
Definition combine_points (q zeta alpha : Z) (p1 p2 : point) : list Z :=
  zip_with (fun a b => GF.add q (GF.mul q zeta a) (GF.mul q alpha b)) p1 p2.

(** The pairs [(zeta, alpha)] in the order of the two nested loops, the
    pair [(0, 0)] left out. *)
Definition line_coefficients (q : Z) : list (Z * Z) :=
  filter (fun za => za.2 ≠ 0 ∨ za.1 ≠ 0)
         (zeta ← GF.elements q; alpha ← GF.elements q; [(zeta, alpha)]).

(** One turn of the inner loop of [points_on_line]. *)
Definition line_step (P : ProjectiveSpace) (p1 p2 : point)
    (acc : result (list point)) (za : Z * Z) : result (list point) :=
  line_points ← acc;
  new_point ← projective_space P
    (map (GF.of_Z (order P)) (combine_points (order P) za.1 za.2 p1 p2));
  Ok (if bool_decide (new_point ∈ line_points) then line_points
      else line_points ++ [new_point]).

(** [points_on_line(point1, point2, projective_space)], the same function
    in both modules. *)
Definition points_on_line (p1 p2 : point) (P : ProjectiveSpace)
    : result (list point) :=
  foldl (line_step P p1 p2) (Ok []) (line_coefficients (order P)).

(** ** Decryption: [t_threshold_decrypt.py] *)

(** [for point3 in new_points: if point3 not in hyperplaine[1]:
    hyperplaine[1].append(point3)]. *)
Fixpoint append_new (l : list point) (new_points : list point) : list point :=
  match new_points with
  | [] => l
  | point3 :: rest =>
      append_new (if bool_decide (point3 ∈ l) then l else l ++ [point3]) rest
  end.

(** [for point2 in hyperplaine[1]]: the list grows while it is iterated,
    and the iterator, at index [j], goes on into the appended points. *)
Fixpoint inner_loop (fuel : nat) (P : ProjectiveSpace) (point1 : point)
    (j : nat) (l : list point) : result (list point) :=
  match fuel with
  | O => OutOfFuel
  | S fuel =>
      match l !! j with
      | None => Ok l
      | Some point2 =>
          if bool_decide (point1 ≠ point2) then
            new_points ← points_on_line point1 point2 P;
            inner_loop fuel P point1 (S j) (append_new l new_points)
          else inner_loop fuel P point1 (S j) l
      end
  end.

(** [for point1 in hyperplaine[1]], over the same growing list. *)
Fixpoint outer_loop (fuel : nat) (P : ProjectiveSpace) (i : nat)
    (l : list point) : result (list point) :=
  match fuel with
  | O => OutOfFuel
  | S fuel =>
      match l !! i with
      | None => Ok l
      | Some point1 =>
          l' ← inner_loop fuel P point1 0 l;
          outer_loop fuel P (S i) l'
      end
  end.

(** [reconstruct_hyperplane(points, projective_space)]: [hyperplaine[1]]
    is the list [points] itself, mutated by the loops; [hyperplaine2[1]]
    is the copy taken on entry. *)
Fixpoint reconstruct_hyperplane (fuel : nat) (points : list point)
    (P : ProjectiveSpace) : result (gmap nat (list point)) :=
  match fuel with
  | O => OutOfFuel
  | S fuel =>
      l ← outer_loop fuel P 0 points;
      if bool_decide (l = points) then Ok {[1%nat := l]}
      else reconstruct_hyperplane fuel l P
  end.

(** [intersect_hyperplane_w_secret_line]. *)
Definition intersect_hyperplane_w_secret_line
    (hyperplane_intersect_secret : gmap nat (list point))
    (secret_line : list point) : gset point :=
  let secret_line_set : gset point := list_to_set secret_line in
  map_fold (fun _ points intersection_points =>
              foldl (fun acc pt =>
                       if bool_decide (pt ∈ secret_line_set)
                       then acc ∪ {[pt]} else acc)
                    intersection_points points)
           ∅ hyperplane_intersect_secret.

(** What [t_threshold_decrypt] prints. *)
Inductive message : Type :=
  | SorryMustExceedOne
      (* Sorry, but the dimension of the space, the order of the space
         and number of secrets have to exceed 1. *)
  | SorryTooFewSecrets
      (* Sorry, but number of secrets must be greater or equal to the
         number of dimensions *)
  | SorryNotPrime
      (* Sorry, q must be a prime number. *)
  | RestoredHyperplane (h : gmap nat (list point))
  | DecryptedSecret (s : gset point).

(** [seq[i]] of Python. *)
Definition index {A} (l : list A) (i : nat) : result A :=
  match l !! i with
  | Some a => Ok a
  | None => Raise IndexError
  end.

(** [t_threshold_decrypt(splitted_secrets, secret_line)]; the function
    returns nothing, its result is what it prints. *)
Definition t_threshold_decrypt (fuel : nat)
    (splitted_secrets secret_line : list (list Z)) : result (list message) :=
  let order := Z.of_nat (length secret_line) - 1 in
  first ← index secret_line 0;
  let dimension := Z.of_nat (length first) - 1 in
  let n_secrets := Z.of_nat (length splitted_secrets) in
  if (order <=? 1) || (dimension <=? 1) || (n_secrets <=? 1) then
    Ok [SorryMustExceedOne]
  else if n_secrets <? dimension then
    Ok [SorryTooFewSecrets]
  else if negb (GF.is_prime order) then
    Ok [SorryNotPrime]
  else
    let P := mkSpace (Z.to_nat dimension) order in
    splitted_secrets ← mapM (projective_space P) splitted_secrets;
    secret_line ← mapM (projective_space P) secret_line;
    hyperplaine_intersect_secret ← reconstruct_hyperplane fuel splitted_secrets P;
    let secret := intersect_hyperplane_w_secret_line
                    hyperplaine_intersect_secret secret_line in
    Ok [RestoredHyperplane hyperplaine_intersect_secret;
        DecryptedSecret secret].

(** ** Encryption: [t_threshold_encrypt.py] *)

(** *** The state: random draws and shared list objects *)

(** The hyperplane lists are reached through several references (the
    dictionary of all hyperplanes, the candidate lists of the line points),
    so they live in a heap of list objects. Lists that are never shared
    ([arc], [valid_points], [line_points]) are plain values. *)
Abbreviation loc := nat.

Record state : Type := mkState {
  tape : list nat;
  heap : gmap loc (list point)
}.

Definition M (A : Type) : Type := state → result (A * state).

#[global] Instance M_ret : MRet M := fun _ a s => Ok (a, s).
#[global] Instance M_bind : MBind M := fun _ _ f m s =>
  match m s with
  | Ok (a, s') => f a s'
  | Raise e => Raise e
  | OutOfFuel => OutOfFuel
  end.

Definition raise {A} (e : exn) : M A := fun _ => Raise e.
Definition lift {A} (r : result A) : M A := fun s =>
  match r with
  | Ok a => Ok (a, s)
  | Raise e => Raise e
  | OutOfFuel => OutOfFuel
  end.

(** [random._randbelow(n)], for [0 < n]. *)
Definition randbelow (n : nat) : M nat := fun s =>
  match tape s with
  | [] => OutOfFuel
  | k :: t => Ok ((k mod n)%nat, mkState t (heap s))
  end.

(** [random.randint(0, n - 1)]: an empty range is a [ValueError]. *)
Definition randint0 (n : nat) : M nat :=
  if decide (n = 0%nat) then raise ValueError else randbelow n.

(** Reading and writing the list object at a location. *)
Definition load (l : loc) : M (list point) := fun s =>
  match heap s !! l with
  | Some v => Ok (v, s)
  | None => Raise KeyError
  end.

Definition store (l : loc) (v : list point) : M unit := fun s =>
  Ok (tt, mkState (tape s) (<[l := v]> (heap s))).

(** A new list object. *)
Definition alloc (v : list point) : M loc := fun s =>
  let l := fresh (dom (heap s)) in
  Ok (l, mkState (tape s) (<[l := v]> (heap s))).

(** [x[i], x[j] = x[j], x[i]]. *)
Definition swap {A} (x : list A) (i j : nat) : list A :=
  match x !! i, x !! j with
  | Some a, Some b => <[j := a]> (<[i := b]> x)
  | _, _ => x
  end.

(** [random.shuffle(x)]: [for i in reversed(range(1, len(x)))], with
    [j = randbelow(i + 1)] and a swap of [x[i]] and [x[j]]. *)
Fixpoint shuffle_from (i : nat) (x : list point) : M (list point) :=
  match i with
  | O => mret x
  | S i' =>
      j ← randbelow (S i);
      shuffle_from i' (swap x i j)
  end.

Definition shuffle (l : loc) : M unit :=
  x ← load l;
  x' ← shuffle_from (length x - 1) x;
  store l x'.

(** *** Linear algebra of Sage *)

(** [np.dot] of two coordinate vectors, in the field. *)
Definition dot (q : Z) (p1 p2 : point) : Z :=
  foldr (fun ab acc => GF.add q (GF.mul q ab.1 ab.2) acc) 0 (zip p1 p2).

(** [r - c * p] in the field. *)
Definition row_sub (q c : Z) (r p : list Z) : list Z :=
  zip_with (fun a b => (a - c * b) mod q) r p.

(** The first row whose first entry is not zero, and the other rows. *)
Fixpoint find_pivot (rows : list (list Z))
    : option (list Z * list (list Z)) :=
  match rows with
  | [] => None
  | r :: rest =>
      if bool_decide (hd 0 r ≠ 0) then Some (r, rest)
      else match find_pivot rest with
           | Some (p, others) => Some (p, r :: others)
           | None => None
           end
  end.

(** Rank by Gaussian elimination, one column at a time. *)
Fixpoint rank_cols (q : Z) (cols : nat) (rows : list (list Z)) : nat :=
  match cols with
  | O => O
  | S cols' =>
      match find_pivot rows with
      | None => rank_cols q cols' (map (@tail Z) rows)
      | Some (p, others) =>
          let c r := GF.mul q (hd 0 r) (GF.inv q (hd 0 p)) in
          S (rank_cols q cols'
               (map (fun r => tail (row_sub q (c r) r p)) others))
      end
  end.

(** [sage.matrix(sage.GF(order), rows).rank()]. *)
Definition rank (q : Z) (rows : list (list Z)) : nat :=
  rank_cols q (length (hd [] rows)) (map (map (GF.of_Z q)) rows).

(** [itertools.combinations(l, k)]. *)
Fixpoint combinations {A} (k : nat) (l : list A) : list (list A) :=
  match k, l with
  | O, _ => [[]]
  | S _, [] => []
  | S k', x :: rest =>
      map (cons x) (combinations k' rest) ++ combinations k rest
  end.

(** All vectors of a given length, the first entry the slowest. *)
Fixpoint vectors (q : Z) (n : nat) : list (list Z) :=
  match n with
  | O => [[]]
  | S n' => x ← GF.elements q; v ← vectors q n'; [x :: v]
  end.

(** [projective_space.rational_points()]: for each position of the final
    1, counted from the right, every choice of the entries before it. *)
Definition rational_points (P : ProjectiveSpace) : list point :=
  k ← seq 0 (S (dimension P));
  v ← vectors (order P) (dimension P - k);
  [v ++ [1] ++ replicate k 0].

(** *** The functions of the module *)

(** [list.remove(x)] where [x] occurs: the first occurrence goes. *)
Fixpoint remove_first (x : point) (l : list point) : list point :=
  match l with
  | [] => []
  | y :: rest => if decide (x = y) then rest else y :: remove_first x rest
  end.

(** The inner loop of [find_point_for_secret_line]: some coordinate of
    [pt] equals the same coordinate of [secret] (both are points of one
    space, of the same length). *)
Definition shares_coordinate (pt secret : point) : bool :=
  existsb (fun ab => bool_decide (ab.1 = ab.2)) (zip pt secret).

(** [find_point_for_secret_line(secret, points)]. *)
Definition find_point_for_secret_line (secret : point) (points : list point)
    : M (option point) :=
  let valid_points :=
    filter (fun pt => pt ≠ secret ∧ shares_coordinate pt secret = true) points in
  if decide (valid_points = []) then mret None
  else
    i ← randbelow (length valid_points);
    chosen ← lift (index valid_points i);
    mret (Some chosen).

(** [all_hyperplaines(points)]: the dictionary, in insertion order, from
    the number [i] of a point to a new list of the points orthogonal to it. *)
Fixpoint all_hyperplaines_from (q : Z) (i : nat) (todo points : list point)
    : M (list (nat * loc)) :=
  match todo with
  | [] => mret []
  | point1 :: rest =>
      hyperplane_list ← alloc (filter (fun point2 => dot q point1 point2 = 0) points);
      hyperplane_dict ← all_hyperplaines_from q (S i) rest points;
      mret ((i, hyperplane_list) :: hyperplane_dict)
  end.

Definition all_hyperplaines (q : Z) (points : list point)
    : M (list (nat * loc)) :=
  all_hyperplaines_from q 1 points points.

Definition point_in_plane (pt : point) (plane : list point) : bool :=
  bool_decide (pt ∈ plane).

Definition line_in_plane (line plane : list point) : bool :=
  forallb (fun pt => point_in_plane pt plane) line.

(** The inner loop of [find_hyperplanes_for_secret_line]: the references
    appended to [result[point]] are the list objects of [hyperplanes]. *)
Fixpoint touching_hyperplanes (pt : point) (secret_line : list point)
    (items : list (nat * loc)) : M (list loc) :=
  match items with
  | [] => mret []
  | (_, plane) :: rest =>
      plane_points ← load plane;
      others ← touching_hyperplanes pt secret_line rest;
      mret (if point_in_plane pt plane_points
               && negb (line_in_plane secret_line plane_points)
            then plane :: others else others)
  end.

Fixpoint find_hyperplanes_loop (hyperplanes : list (nat * loc))
    (secret_line todo : list point) (result : gmap point (list loc))
    : M (gmap point (list loc)) :=
  match todo with
  | [] => mret result
  | pt :: rest =>
      planes ← touching_hyperplanes pt secret_line hyperplanes;
      find_hyperplanes_loop hyperplanes secret_line rest (<[pt := planes]> result)
  end.

(** [find_hyperplanes_for_secret_line(hyperplanes, secret_line)]. *)
Definition find_hyperplanes_for_secret_line (hyperplanes : list (nat * loc))
    (secret_line : list point) : M (gmap point (list loc)) :=
  find_hyperplanes_loop hyperplanes secret_line secret_line ∅.

(** [is_general_position(arc, order)]. *)
Definition is_general_position (arc : list point) (order : Z) : bool :=
  forallb (fun three_points => negb (rank order three_points <? 3)%nat)
          (combinations 3 arc).

(** [find_largest_general_position_subset(secret_splitters, secret, order)];
    [secret_splitters] is a shared list object, shuffled in place. *)
Definition find_largest_general_position_subset (secret_splitters : loc)
    (secret : point) (order : Z) : M (list point) :=
  shuffle secret_splitters;;
  pool ← load secret_splitters;
  first ← lift (index pool 0);
  let arc :=
    foldl (fun arc pt =>
             if is_general_position (arc ++ [pt]) order then arc ++ [pt]
             else arc)
          [secret; first] pool in
  mret (remove_first secret arc).

(** What [get_secret_splitter] returns: the selected hyperplane list
    itself (a reference) when [dimension == 2], a new list otherwise. *)
Inductive pylist : Type :=
  | Shared (l : loc)
  | Local (v : list point).

Definition lookup_key (m : gmap point (list loc)) (k : point) : M (list loc) :=
  match m !! k with
  | Some v => mret v
  | None => raise KeyError
  end.

(** [get_secret_splitter(hyperplaines_cut_secret_line, secret, dimension,
    order)]. [find_largest_general_position_subset] never returns [None],
    so the [else] of [if subset is not None] is dead and only the rank test
    decides between returning the arc and another attempt. Each attempt
    is a recursive call: [fuel] bounds their number, where CPython raises
    a [RecursionError] at its recursion limit. *)
Fixpoint get_secret_splitter (fuel : nat)
    (hyperplaines_cut_secret_line : gmap point (list loc))
    (secret : point) (dimension order : Z) : M pylist :=
  match fuel with
  | O => fun _ => OutOfFuel
  | S fuel =>
      candidates ← lookup_key hyperplaines_cut_secret_line secret;
      random_number ← randint0 (length candidates);
      hp_for_splitter ← lift (index candidates random_number);
      hp_points ← load hp_for_splitter;
      (if bool_decide (secret ∈ hp_points)
       then store hp_for_splitter (remove_first secret hp_points)
       else mret tt);;
      if bool_decide (dimension = 2) then mret (Shared hp_for_splitter)
      else
        subset ← find_largest_general_position_subset hp_for_splitter secret order;
        if bool_decide (dimension ≤ Z.of_nat (rank order subset))
        then mret (Local subset)
        else get_secret_splitter fuel hyperplaines_cut_secret_line secret
                                 dimension order
  end.

(** [list(secret_splitters)]. *)
Definition to_list (x : pylist) : M (list point) :=
  match x with
  | Shared l => load l
  | Local v => mret v
  end.

(** What [t_threshold_encrypt] prints. *)
Inductive enc_message : Type :=
  | SorryHaveToExceedOne
      (* Sorry, but dimension, order and the number of secrets have to
         exceed 1. *)
  | SorryMustBePrime
      (* Sorry, q must be a prime number. *)
  | Secret (p : point)
  | SecretLine (l : list point)
  | Splitters (s : list point).

(** [t_threshold_encrypt(dimension, order)]. *)
Definition t_threshold_encrypt (fuel : nat) (dimension order : Z)
    : M (list enc_message) :=
  if (order <=? 1) || (dimension <=? 1) then mret [SorryHaveToExceedOne]
  else if negb (GF.is_prime order) then mret [SorryMustBePrime]
  else
    let projective_space := mkSpace (Z.to_nat dimension) order in
    let points := rational_points projective_space in
    random_number ← randint0 (length points);
    secret ← lift (index points random_number);
    second ← find_point_for_secret_line secret points;
    second_point_for_secret_line ←
      match second with Some p => mret p | None => raise TypeError end;
    secret_line ← lift (points_on_line secret second_point_for_secret_line
                                       projective_space);
    hyperplanes ← all_hyperplaines order points;
    hyperplanes_cut_secret_line ←
      find_hyperplanes_for_secret_line hyperplanes secret_line;
    secret_splitters ← get_secret_splitter fuel hyperplanes_cut_secret_line
                                           secret dimension order;
    secret_splitters ← to_list secret_splitters;
    mret [Secret secret; SecretLine secret_line; Splitters secret_splitters].

(** A run starts with an empty heap. *)
Definition run {A} (m : M A) (tape : list nat) : result A :=
  match m (mkState tape ∅) with
  | Ok (a, _) => Ok a
  | Raise e => Raise e
  | OutOfFuel => OutOfFuel
  end.

(** ** Concrete inputs *)

Module Ex.

(** The plane over GF(3), and two of its lines. *)
Definition PG23 : ProjectiveSpace := mkSpace 2 3.
Definition line_z0 : list point := [[0; 1; 0]; [1; 0; 0]; [1; 1; 0]; [2; 1; 0]].
Definition closed_z0 : list point := [[1; 0; 0]; [0; 1; 0]; [1; 1; 0]; [2; 1; 0]].
Definition line_x0 : list point := [[0; 0; 1]; [0; 1; 0]; [0; 1; 1]; [0; 2; 1]].

(** A line of the space of dimension 3 over GF(2). *)
Definition line_PG32 : list point := [[0; 0; 1; 0]; [0; 0; 0; 1]; [0; 0; 1; 1]].

(** A candidate mapping for the secret [(1 : 0 : 0)]: one list object,
    at location 0, that holds the secret and one other point. *)
Definition secret : point := [1; 0; 0].
Definition short_hyperplane : state :=
  mkState [0%nat] {[0%nat := [[1; 0; 0]; [0; 1; 0]]]}.
Definition one_candidate : gmap point (list loc) := {[secret := [0%nat]]}.
Definition no_candidate : gmap point (list loc) := {[secret := []]}.

(** The line [z = 0] as a list object, once in the candidate lists of
    two keys. *)
Definition line_object : state := mkState [2%nat; 1%nat; 0%nat; 1%nat] {[0%nat := line_z0]}.

(** The plane [x = 0] of the space of dimension 3 over GF(2), as the
    one candidate of the secret [(0 : 0 : 0 : 1)]. *)
Definition secret3 : point := [0; 0; 0; 1].
Definition plane_x0 : list point :=
  [[0; 0; 0; 1]; [0; 0; 1; 0]; [0; 0; 1; 1]; [0; 1; 0; 0]; [0; 1; 0; 1];
   [0; 1; 1; 0]; [0; 1; 1; 1]].
Definition plane_object : state :=
  mkState [0; 3; 1; 2; 0; 1; 5; 6; 7]%nat {[0%nat := plane_x0]}.
Definition plane_shuffled : state :=
  mkState [5; 6; 7]%nat
    {[0%nat := [[0; 1; 1; 1]; [0; 1; 1; 0]; [0; 0; 1; 0]; [0; 1; 0; 0];
                [0; 0; 1; 1]; [0; 1; 0; 1]]]}.

(** Two list objects, the lines [z = 0] and [x = 0] of the plane over
    GF(3), as the dictionary of hyperplanes; the secret [(1 : 0 : 0)] on
    the secret line [y = 0]. *)
Definition line_y0 : list point := [[1; 0; 0]; [0; 0; 1]; [1; 0; 1]; [2; 0; 1]].
Definition two_hyperplanes : list (nat * loc) := [(1%nat, 0%nat); (2%nat, 1%nat)].
Definition two_objects : state :=
  mkState [0%nat] {[0%nat := line_z0; 1%nat := line_x0]}.
Definition two_objects_mapping : gmap point (list loc) :=
  {[ [1; 0; 0] := [0%nat]; [0; 0; 1] := [1%nat]; [1; 0; 1] := [];
     [2; 0; 1] := [] ]}.
Definition two_objects_after : state :=
  mkState [] {[0%nat := [[0; 1; 0]; [1; 1; 0]; [2; 1; 0]]; 1%nat := line_x0]}.

(** Three random draws, enough for a run of encryption in the plane. *)
Definition tape3 : list nat := [5; 3; 2]%nat.

End Ex.

(** ** Notions used in the statements *)

(** Entries in the range of the representatives of the field. *)
Definition reduced (P : ProjectiveSpace) (v : list Z) : Prop :=
  Forall (fun x => 0 ≤ x < order P) v.

(** The point computed in one turn of the loop of [points_on_line]. *)
Definition line_point (P : ProjectiveSpace) (p1 p2 : point) (za : Z * Z)
    : result point :=
  projective_space P
    (map (GF.of_Z (order P)) (combine_points (order P) za.1 za.2 p1 p2)).

(** One pair of coefficients for each point of a line. *)
Definition canonical_coefficients (q : Z) : list (Z * Z) :=
  (0, 1) :: map (fun a => (1, a)) (seqZ 0 q).

Definition point_or_nil (r : result point) : point :=
  match r with
  | Ok p => p
  | _ => []
  end.

(** A list of points is closed when it holds every point of the line
    through any two of its points. *)
Definition closed (P : ProjectiveSpace) (l : list point) : Prop :=
  ∀ p1 p2, p1 ∈ l → p2 ∈ l → p1 ≠ p2 →
    ∃ pts, points_on_line p1 p2 P = Ok pts ∧ ∀ p, p ∈ pts → p ∈ l.

(** [l] is [l0] followed by new points of the space, each once. *)
Definition extends (P : ProjectiveSpace) (l0 l : list point) : Prop :=
  ∃ extra, l = l0 ++ extra ∧ NoDup extra ∧
           ∀ x, x ∈ extra → x ∉ l0 ∧ is_point P x.

(** The number of coordinate vectors of a space, which bounds the number
    of its points. *)
Definition space_size (P : ProjectiveSpace) : nat :=
  length (vectors (order P) (S (dimension P))).

(** Sum of two vectors, and the span of the rows of a matrix, among the
    vectors of length [n]. *)
Definition vadd (q : Z) (u v : list Z) : list Z := zip_with (GF.add q) u v.

Inductive span (q : Z) (n : nat) (rows : list (list Z)) : list Z → Prop :=
  | span_zero : span q n rows (replicate n 0)
  | span_row r : r ∈ rows → span q n rows r
  | span_add u v : span q n rows u → span q n rows v → span q n rows (vadd q u v)
  | span_scale k u : span q n rows u → span q n rows (map (GF.mul q k) u).

(** A vector of length [n] with entries in the range of the field. *)
Definition is_vector (q : Z) (n : nat) (v : list Z) : Prop :=
  length v = n ∧ Forall (fun x => 0 ≤ x < q) v.

(** The points of the hyperplane of [pole]: those orthogonal to it. *)
Definition in_kernel (P : ProjectiveSpace) (pole : list Z) (p : point) : Prop :=
  is_point P p ∧ dot (order P) pole p = 0.

(** The heap after the selection of the hyperplane list at [hp]. *)
Definition select_heap (secret : point) (hp : loc) (pts : list point)
    (s : state) (t : list nat) : state :=
  mkState t (<[hp := remove_first secret pts]> (heap s)).

(** The test of [find_hyperplanes_for_secret_line] on the list object at
    [l]: it holds the point and not the whole line. *)
Definition touches (s : state) (pt : point) (secret_line : list point)
    (l : loc) : bool :=
  match heap s !! l with
  | Some plane =>
      point_in_plane pt plane && negb (line_in_plane secret_line plane)
  | None => false
  end.

#[local] Existing Instances eqm_setoid Zplus_eqm Zminus_eqm Zmult_eqm Zopp_eqm.

(** * Properties *)

(** ** The monads *)

Lemma result_bind_Ok {A B} (f : A → result B) (r : result A) (b : B) :
  r ≫= f = Ok b ↔ ∃ a, r = Ok a ∧ f a = Ok b.
Proof.
  destruct r as [a| |]; simpl; split; try (intros [? [? ?]]); try done.
  - intros H. by exists a.
  - by simplify_eq.
Qed.

Lemma M_bind_Ok {A B} (f : A → M B) (m : M A) s b s' :
  (m ≫= f) s = Ok (b, s') ↔ ∃ a s1, m s = Ok (a, s1) ∧ f a s1 = Ok (b, s').
Proof.
  unfold mbind, M_bind. destruct (m s) as [[a s1]| |]; split;
    try (intros (? & ? & ? & ?)); try done.
  - intros H. by exists a, s1.
  - by simplify_eq.
Qed.

Lemma index_Ok {A} (l : list A) i a : index l i = Ok a ↔ l !! i = Some a.
Proof. unfold index. destruct (l !! i); split; intros; by simplify_eq. Qed.

(** ** The final step of decryption *)

Lemma intersect_step_elem (line_set : gset point) (pts : list point)
    (acc : gset point) (p : point) :
  p ∈ foldl (fun acc pt =>
               if bool_decide (pt ∈ line_set) then acc ∪ {[pt]} else acc)
            acc pts
  ↔ p ∈ acc ∨ (p ∈ pts ∧ p ∈ line_set).
Proof.
  revert acc. induction pts as [|x pts IH]; intros acc; simpl.
  - set_solver.
  - rewrite IH. case_bool_decide; set_solver.
Qed.

Lemma intersect_elem (h : gmap nat (list point)) (line : list point) p :
  p ∈ intersect_hyperplane_w_secret_line h line
  ↔ p ∈ line ∧ ∃ k pts, h !! k = Some pts ∧ p ∈ pts.
Proof.
  unfold intersect_hyperplane_w_secret_line.
  induction h as [|k pts h Hk Hfold IH] using map_first_key_ind.
  - rewrite map_fold_empty. split; [set_solver|].
    intros (_ & k & pts & Hl & _). by rewrite lookup_empty in Hl.
  - rewrite map_fold_insert_first_key by done.
    rewrite intersect_step_elem, IH, elem_of_list_to_set. split.
    + intros [(Hp & k' & pts' & Hl & Hin)|[Hin Hp]].
      * split; [done|]. exists k', pts'. split; [|done].
        rewrite lookup_insert_ne; [done|]. intros ->. congruence.
      * split; [done|]. exists k, pts. by rewrite lookup_insert_eq.
    + intros (Hp & k' & pts' & Hl & Hin).
      destruct (decide (k = k')) as [->|Hne].
      * rewrite lookup_insert_eq in Hl. simplify_eq. by right.
      * rewrite lookup_insert_ne in Hl by done. left. eauto.
Qed.

(** The engine goes on to the reconstruction only when its three checks
    pass. *)
Lemma decrypt_Ok_inv fuel (splitted_secrets secret_line : list (list Z)) msgs :
  t_threshold_decrypt fuel splitted_secrets secret_line = Ok msgs →
  msgs = [SorryMustExceedOne] ∨ msgs = [SorryTooFewSecrets] ∨
  msgs = [SorryNotPrime] ∨
  ∃ first shares line h P,
    secret_line !! 0%nat = Some first ∧
    P = mkSpace (Z.to_nat (Z.of_nat (length first) - 1))
                (Z.of_nat (length secret_line) - 1) ∧
    1 < order P ∧ 1 < Z.of_nat (length first) - 1 ∧
    1 < Z.of_nat (length splitted_secrets) ∧
    Z.of_nat (length first) - 1 ≤ Z.of_nat (length splitted_secrets) ∧
    GF.is_prime (order P) = true ∧
    mapM (projective_space P) splitted_secrets = Ok shares ∧
    mapM (projective_space P) secret_line = Ok line ∧
    reconstruct_hyperplane fuel shares P = Ok h ∧
    msgs = [RestoredHyperplane h;
            DecryptedSecret (intersect_hyperplane_w_secret_line h line)].
Proof.
  unfold t_threshold_decrypt. intros H.
  apply result_bind_Ok in H as (first & Hfirst & H).
  apply index_Ok in Hfirst.
  destruct (_ || _ || _) eqn:Hc1; [left; congruence|].
  destruct (_ <? _) eqn:Hc2; [right; left; congruence|].
  destruct (negb _) eqn:Hc3; [right; right; left; congruence|].
  apply result_bind_Ok in H as (shares & Hshares & H).
  apply result_bind_Ok in H as (line & Hline & H).
  apply result_bind_Ok in H as (h & Hh & H).
  right; right; right. exists first, shares, line, h. eexists.
  apply negb_false_iff in Hc3. split; [done|]. split; [done|]. simpl.
  repeat split; try done; try lia. congruence.
Qed.

(** C3, as amended. With fewer shares than the dimension read off the
    secret line, the engine prints one of its two refusals and nothing
    else: no reconstruction is run and no point is printed. The refusal is
    a printed line, not an exception. *)
Theorem decrypt_too_few_shares fuel
    (splitted_secrets secret_line : list (list Z)) (first : list Z) :
  secret_line !! 0%nat = Some first →
  Z.of_nat (length splitted_secrets) < Z.of_nat (length first) - 1 →
  t_threshold_decrypt fuel splitted_secrets secret_line = Ok [SorryMustExceedOne]
  ∨ t_threshold_decrypt fuel splitted_secrets secret_line = Ok [SorryTooFewSecrets].
Proof.
  intros Hfirst Hlt. unfold t_threshold_decrypt.
  apply index_Ok in Hfirst. rewrite Hfirst. simpl.
  destruct (_ || _ || _); [by left|].
  destruct (_ <? _) eqn:Hc; [by right|]. lia.
Qed.

(** ** Splitter selection *)

Lemma remove_first_notin (x : point) (l : list point) :
  x ∉ l → remove_first x l = l.
Proof.
  induction l as [|y l IH]; [done|]. intros Hx. simpl.
  destruct (decide (x = y)) as [->|]; [set_solver|].
  f_equal. apply IH. set_solver.
Qed.

(** One call of [get_secret_splitter], unfolded. *)
Lemma get_secret_splitter_inv fuel m (secret : point) d q s r s' :
  get_secret_splitter (S fuel) m secret d q s = Ok (r, s') →
  ∃ cands k t hp pts,
    m !! secret = Some cands ∧ tape s = k :: t ∧
    cands !! (k mod length cands)%nat = Some hp ∧
    heap s !! hp = Some pts ∧
    ((d = 2 ∧ r = Shared hp ∧ s' = select_heap secret hp pts s t)
     ∨ (d ≠ 2 ∧ ∃ subset s2,
          find_largest_general_position_subset hp secret q
            (select_heap secret hp pts s t) = Ok (subset, s2) ∧
          ((d ≤ Z.of_nat (rank q subset) ∧ r = Local subset ∧ s' = s2)
           ∨ (Z.of_nat (rank q subset) < d ∧
              get_secret_splitter fuel m secret d q s2 = Ok (r, s'))))).
Proof.
  simpl. intros H.
  apply M_bind_Ok in H as (cands & s1 & Hc & H).
  unfold lookup_key in Hc. destruct (m !! secret) as [c|] eqn:Hm; [|done].
  injection Hc as -> <-.
  apply M_bind_Ok in H as (rn & s1 & Hr & H).
  unfold randint0 in Hr. case_decide; [done|].
  unfold randbelow in Hr. destruct (tape s) as [|k t] eqn:Ht; [done|].
  injection Hr as <- <-.
  apply M_bind_Ok in H as (hp & s1 & Hhp & H).
  unfold lift in Hhp. destruct (index cands _) as [hp'| |] eqn:Hi; try done.
  injection Hhp as -> <-. apply index_Ok in Hi.
  apply M_bind_Ok in H as (pts & s1 & Hl & H).
  unfold load in Hl. simpl in Hl.
  destruct (heap s !! hp) as [pts'|] eqn:Hh; [|done].
  injection Hl as -> <-.
  apply M_bind_Ok in H as ([] & s1 & Hst & H).
  assert (s1 = select_heap secret hp pts s t) as ->.
  { unfold select_heap. destruct (bool_decide (secret ∈ pts)) eqn:Hin.
    - unfold store in Hst. simpl in Hst. by simplify_eq.
    - apply bool_decide_eq_false in Hin. unfold mret, M_ret in Hst.
      simplify_eq. rewrite remove_first_notin by done. by rewrite insert_id. }
  exists cands, k, t, hp, pts. repeat split; try done.
  clear Hst. destruct (bool_decide (d = 2)) eqn:Hd;
    [apply bool_decide_eq_true in Hd|apply bool_decide_eq_false in Hd].
  - left. unfold mret, M_ret in H. simplify_eq. auto.
  - right. split; [done|].
    apply M_bind_Ok in H as (subset & s2 & Hsub & H).
    exists subset, s2. split; [done|].
    destruct (bool_decide (d ≤ _)) eqn:Hrk;
      [apply bool_decide_eq_true in Hrk|apply bool_decide_eq_false in Hrk].
    + left. unfold mret, M_ret in H. simplify_eq. auto.
    + right. split; [lia|done].
Qed.

(** C4, as amended. With an empty candidate list for the secret, splitter
    selection fails before it indexes anything: the draw of the random
    index, [randint(0, -1)], raises [ValueError]. *)
Theorem get_secret_splitter_no_candidate fuel m (secret : point) d q s :
  m !! secret = Some [] →
  get_secret_splitter (S fuel) m secret d q s = Raise ValueError.
Proof.
  intros Hm. simpl. unfold mbind, M_bind at 1, lookup_key. rewrite Hm.
  reflexivity.
Qed.

(** C6. When [dimension == 2], what [get_secret_splitter] returns is the
    chosen hyperplane list itself, from which the secret has been removed
    and nothing else: with a hyperplane list free of repetitions, the
    points returned are those of the hyperplane other than the secret. *)
Theorem get_secret_splitter_dimension_2 fuel m (secret : point) q s r s'
    (splitters : list point) :
  get_secret_splitter (S fuel) m secret 2 q s = Ok (r, s') →
  to_list r s' = Ok (splitters, s') →
  ∃ cands hp pts,
    m !! secret = Some cands ∧ hp ∈ cands ∧ heap s !! hp = Some pts ∧
    r = Shared hp ∧
    splitters = remove_first secret pts ∧
    (NoDup pts → ∀ p, p ∈ splitters ↔ p ∈ pts ∧ p ≠ secret).
Proof.
  intros H Hl.
  apply get_secret_splitter_inv in H
    as (cands & k & t & hp & pts & Hm & _ & Hhp & Hh & [(_ & -> & ->)|[? _]]);
    [|done].
  unfold to_list, load, select_heap in Hl. simpl in Hl.
  rewrite lookup_insert_eq in Hl. injection Hl as <-.
  exists cands, hp, pts.
  split; [done|]. split; [by eapply list_elem_of_lookup_2|].
  do 3 (split; [done|]).
  intros Hnd. clear -Hnd. induction pts as [|y pts IH]; intros p; simpl.
  - set_solver.
  - apply NoDup_cons in Hnd as [Hy Hnd].
    destruct (decide (secret = y)) as [->|Hne].
    + set_solver.
    + rewrite !elem_of_cons, IH by done. naive_solver.
Qed.

(** ** Arithmetic of the field *)

(** Equalities modulo [q]: inner reductions are dropped, the rest is an
    identity of rings. *)

Ltac eqm_ring q :=
  repeat match goal with
         | |- context [GF.inv q ?a] =>
             let i := fresh "i" in generalize (GF.inv q a); intros i
         end;
  match goal with
  | |- ?a mod _ = ?b mod _ => change (eqm q a b)
  end;
  rewrite ?(Zmod_eqm q); unfold eqm; f_equal; ring.

Section Field.
Variable q : Z.
Hypothesis Hq : Z.prime q.

Lemma order_gt_1 : 1 < q.
Proof. pose proof (Z.prime_ge_2 q Hq). lia. Qed.

Lemma mod_range a : 0 ≤ a mod q < q.
Proof. apply Z.mod_pos_bound. pose proof order_gt_1. lia. Qed.

Lemma inv_range a : 0 ≤ GF.inv q a < q.
Proof. unfold GF.inv. rewrite <- Z.mod_invmod. apply mod_range. Qed.

Lemma inv_mul a : a mod q ≠ 0 → (GF.inv q a * a) mod q = 1.
Proof. apply Z.invmod_prime, Hq. Qed.

Lemma inv_nonzero a : a mod q ≠ 0 → GF.inv q a ≠ 0.
Proof.
  intros Ha H0. pose proof (inv_mul a Ha) as H. rewrite H0 in H.
  rewrite Z.mul_0_l, Z.mod_0_l in H; [lia|]. pose proof order_gt_1. lia.
Qed.

Lemma mul_mod_eq_0 a b : (a * b) mod q = 0 → a mod q = 0 ∨ b mod q = 0.
Proof.
  pose proof order_gt_1.
  rewrite !Z.mod_divide by lia. apply Z.divide_prime_mul, Hq.
Qed.

Lemma mul_nonzero a b : a mod q ≠ 0 → b mod q ≠ 0 → GF.mul q a b ≠ 0.
Proof. intros Ha Hb H. apply mul_mod_eq_0 in H. tauto. Qed.

(** Cancellation of a non-zero factor. *)
Lemma mul_cancel k a b :
  k mod q ≠ 0 → (k * a) mod q = (k * b) mod q → a mod q = b mod q.
Proof.
  intros Hk H. pose proof (inv_mul k Hk) as Hi.
  assert (eqm q a (GF.inv q k * (k * a))) as ->.
  { unfold eqm. rewrite Z.mul_assoc, <- Z.mul_mod_idemp_l, Hi by (pose proof order_gt_1; lia).
    f_equal. ring. }
  assert (eqm q b (GF.inv q k * (k * b))) as ->.
  { unfold eqm. rewrite Z.mul_assoc, <- Z.mul_mod_idemp_l, Hi by (pose proof order_gt_1; lia).
    f_equal. ring. }
  unfold eqm. rewrite <- Z.mul_mod_idemp_r, H, Z.mul_mod_idemp_r by (pose proof order_gt_1; lia).
  reflexivity.
Qed.

End Field.

(** ** Normalisation *)

Lemma last_nonzero_cons x v :
  last_nonzero (x :: v) =
  match last_nonzero v with
  | Some c => Some c
  | None => if decide (x = 0) then None else Some x
  end.
Proof.
  unfold last_nonzero. rewrite filter_cons.
  destruct (decide (x ≠ 0)) as [Hx|Hx].
  - rewrite last_cons. destruct (last _); [done|]. by rewrite decide_False.
  - destruct (last _); [done|]. rewrite decide_True; [done|]. lia.
Qed.

Lemma last_nonzero_None v : last_nonzero v = None ↔ Forall (fun x => x = 0) v.
Proof.
  induction v as [|x v IH]; [by split; [constructor|]|].
  rewrite last_nonzero_cons, Forall_cons, <- IH.
  destruct (last_nonzero v); [naive_solver|].
  case_decide; naive_solver.
Qed.

Lemma last_nonzero_Some v c : last_nonzero v = Some c → c ≠ 0 ∧ c ∈ v.
Proof.
  induction v as [|x v IH]; [done|]. rewrite last_nonzero_cons.
  destruct (last_nonzero v) as [c'|].
  - intros [= ->]. destruct IH as [? ?]; [done|]. split; [done|set_solver].
  - case_decide; [done|]. intros [= ->]. split; [done|set_solver].
Qed.

Lemma last_nonzero_map (f : Z → Z) v :
  f 0 = 0 → (∀ x, x ∈ v → x ≠ 0 → f x ≠ 0) →
  last_nonzero (map f v) = f <$> last_nonzero v.
Proof.
  intros Hf0. induction v as [|x v IH]; intros Hf; [done|].
  simpl. rewrite !last_nonzero_cons, IH by set_solver.
  destruct (last_nonzero v); [done|]. simpl.
  destruct (decide (x = 0)) as [->|Hx].
  - by rewrite decide_True.
  - rewrite decide_False; [done|]. apply Hf; [set_solver|done].
Qed.

Section Normalisation.
Variable P : ProjectiveSpace.
Hypothesis Hq : Z.prime (order P).

Let q := order P.

Local Notation reduced := (reduced P).

Lemma of_Z_reduced v : reduced v → map (GF.of_Z q) v = v.
Proof.
  intros Hv. induction Hv as [|x v Hx _ IH]; [done|]. simpl.
  unfold GF.of_Z at 1. rewrite Z.mod_small by done. by f_equal.
Qed.

Lemma map_of_Z_reduced v : reduced (map (GF.of_Z q) v).
Proof. apply Forall_map, Forall_true. intros x. apply mod_range, Hq. Qed.

Lemma scale_reduced k v : reduced (map (GF.mul q k) v).
Proof. apply Forall_map, Forall_true. intros x. apply mod_range, Hq. Qed.

Lemma mul_1_reduced v : reduced v → map (GF.mul q 1) v = v.
Proof.
  intros Hv. induction Hv as [|x v Hx _ IH]; [done|]. simpl.
  unfold GF.mul at 1. rewrite Z.mul_1_l, Z.mod_small by done. by f_equal.
Qed.

(** Scaling by a non-zero factor scales the last non-zero entry. *)
Lemma last_nonzero_scale k v :
  k mod q ≠ 0 → reduced v →
  last_nonzero (map (GF.mul q k) v) = GF.mul q k <$> last_nonzero v.
Proof.
  intros Hk Hv. apply last_nonzero_map.
  - unfold GF.mul. rewrite Z.mul_0_r. apply Z.mod_0_l.
    pose proof (order_gt_1 q Hq). lia.
  - intros x Hx Hx0. apply mul_nonzero; [done..|].
    unfold reduced in Hv. rewrite Forall_forall in Hv. rewrite Z.mod_small; [done|]. by apply Hv.
Qed.

Lemma scale_scale k1 k2 v :
  map (GF.mul q k1) (map (GF.mul q k2) v) = map (GF.mul q (k1 * k2)) v.
Proof.
  rewrite map_map. apply map_ext. intros x. unfold GF.mul. eqm_ring q.
Qed.

Lemma scale_mod k v : map (GF.mul q (k mod q)) v = map (GF.mul q k) v.
Proof. apply map_ext. intros x. unfold GF.mul. eqm_ring q. Qed.

Lemma scale_of_Z k v :
  map (GF.of_Z q) (map (GF.mul q k) v) = map (GF.mul q k) (map (GF.of_Z q) v).
Proof.
  rewrite !map_map. apply map_ext. intros x. unfold GF.mul, GF.of_Z.
  eqm_ring q.
Qed.

(** What [projective_space] answers, and when: on [dimension + 1]
    coordinates, and on [dimension] coordinates, completed by a one. *)
Lemma projective_space_full v :
  length v = S (dimension P) →
  projective_space P v =
  match last_nonzero (map (GF.of_Z q) v) with
  | None => Raise ValueError
  | Some c => Ok (map (GF.mul q (GF.inv q c)) (map (GF.of_Z q) v))
  end.
Proof.
  intros Hl. unfold projective_space.
  rewrite bool_decide_eq_false_2 by (intros [? _]; done).
  rewrite length_map, bool_decide_eq_false_2 by lia. done.
Qed.

Lemma projective_space_short v :
  length v = dimension P →
  projective_space P v = projective_space P (v ++ [1]).
Proof.
  intros Hl. rewrite (projective_space_full (v ++ [1]))
    by (rewrite length_app; simpl; lia).
  unfold projective_space.
  rewrite bool_decide_eq_false_2 by (intros [_ ?]; done).
  rewrite length_map, bool_decide_eq_true_2 by done.
  by rewrite map_app.
Qed.

Lemma projective_space_other v :
  length v ≠ S (dimension P) → length v ≠ dimension P →
  projective_space P v = Raise TypeError.
Proof.
  intros H1 H2. unfold projective_space. by rewrite bool_decide_eq_true_2.
Qed.

(** An answer is the answer on [dimension + 1] coordinates. *)
Lemma projective_space_complete v p :
  projective_space P v = Ok p →
  ∃ w, (w = v ∨ w = v ++ [1]) ∧ length w = S (dimension P) ∧
       projective_space P w = Ok p.
Proof.
  intros Hp. destruct (decide (length v = S (dimension P))) as [Hl|Hl];
    [by exists v; split; [left|]|].
  destruct (decide (length v = dimension P)) as [Hl'|Hl'].
  - exists (v ++ [1]). split; [by right|].
    split; [rewrite length_app; simpl; lia|].
    by rewrite <- projective_space_short.
  - by rewrite projective_space_other in Hp.
Qed.

Lemma projective_space_Ok v p :
  length v = S (dimension P) →
  (projective_space P v = Ok p ↔
   ∃ c, last_nonzero (map (GF.of_Z q) v) = Some c ∧
        p = map (GF.mul q (GF.inv q c)) (map (GF.of_Z q) v)).
Proof.
  intros Hl. rewrite projective_space_full by done.
  destruct (last_nonzero _) as [c|]; naive_solver.
Qed.

Lemma last_nonzero_reduced v c :
  reduced v → last_nonzero v = Some c → c mod q ≠ 0 ∧ 0 < c < q.
Proof.
  intros Hv Hc. apply last_nonzero_Some in Hc as [Hc0 Hin].
  unfold reduced in Hv. rewrite Forall_forall in Hv. specialize (Hv c Hin). simpl in Hv.
  rewrite Z.mod_small by done. fold q in Hv. lia.
Qed.

(** The answer is a point of the space. *)
Lemma projective_space_is_point v p :
  projective_space P v = Ok p → is_point P p.
Proof.
  intros Hp. apply projective_space_complete in Hp as (w & _ & Hlen & Hp).
  clear v. revert Hp. rewrite projective_space_Ok by done.
  intros (c & Hc & ->). rename w into v.
  pose proof (last_nonzero_reduced _ _ (map_of_Z_reduced v) Hc) as [Hcq Hcr].
  split; [by rewrite !length_map|]. split; [apply scale_reduced|].
  rewrite last_nonzero_scale, Hc; [| |apply map_of_Z_reduced].
  - simpl. f_equal. apply inv_mul; done.
  - pose proof (inv_range q Hq c). pose proof (inv_nonzero q Hq c Hcq).
    rewrite Z.mod_small; lia.
Qed.

(** A point is its own normal form. *)
Lemma projective_space_point p : is_point P p → projective_space P p = Ok p.
Proof.
  intros (Hlen & Hred & Hlast). apply projective_space_Ok; [done|].
  exists 1. rewrite of_Z_reduced by done. split; [done|].
  unfold GF.inv. rewrite Z.invmod_1_l, Z.mod_small
    by (pose proof (order_gt_1 q Hq); lia).
  by rewrite mul_1_reduced.
Qed.

(** The normal form does not see a non-zero factor. *)
Lemma projective_space_scale k v :
  k mod q ≠ 0 → length v ≠ dimension P →
  projective_space P (map (GF.mul q k) v) = projective_space P v.
Proof.
  intros Hk Hlen.
  destruct (decide (length v = S (dimension P))) as [Hl|Hl];
    [|by rewrite !projective_space_other by (by rewrite ?length_map)].
  rewrite !projective_space_full by (by rewrite ?length_map).
  rewrite scale_of_Z, last_nonzero_scale by (done || apply map_of_Z_reduced).
  destruct (last_nonzero (map (GF.of_Z q) v)) as [c|] eqn:Hc; [|done].
  simpl. f_equal. rewrite scale_scale.
  pose proof (last_nonzero_reduced _ _ (map_of_Z_reduced v) Hc) as [Hcq _].
  apply map_ext. intros x. unfold GF.mul.
  assert ((k * c) mod q ≠ 0) as Hkc by (by apply mul_nonzero).
  apply (mul_cancel q Hq (k * c)); [done|].
  pose proof (inv_mul q Hq ((k * c) mod q)) as H1.
  rewrite Z.mod_mod in H1 by (pose proof (order_gt_1 q Hq); lia).
  specialize (H1 Hkc). pose proof (inv_mul q Hq c Hcq) as H2.
  transitivity (((GF.inv q ((k * c) mod q) * ((k * c) mod q)) mod q * (k * x)) mod q);
    [eqm_ring q|].
  rewrite H1.
  transitivity ((k * ((GF.inv q c * c) mod q) * x) mod q); [|eqm_ring q].
  rewrite H2. f_equal. ring.
Qed.

(** A vector is a multiple of its normal form, and conversely. *)
Lemma projective_space_multiple v p :
  length v = S (dimension P) →
  projective_space P v = Ok p →
  ∃ k, k mod q ≠ 0 ∧ map (GF.of_Z q) v = map (GF.mul q k) p.
Proof.
  intros Hlen. rewrite projective_space_Ok by done. intros (c & Hc & ->).
  pose proof (last_nonzero_reduced _ _ (map_of_Z_reduced v) Hc) as [Hcq Hcr].
  exists c. split; [done|]. rewrite scale_scale.
  rewrite <- (mul_1_reduced (map (GF.of_Z q) v)) at 1 by apply map_of_Z_reduced.
  apply map_ext. intros x. unfold GF.mul.
  pose proof (inv_mul q Hq c Hcq) as H2.
  transitivity ((((GF.inv q c * c) mod q) * x) mod q); [by rewrite H2|].
  eqm_ring q.
Qed.

End Normalisation.

(** ** Lines *)

Lemma elem_of_line_coefficients q z a :
  (z, a) ∈ line_coefficients q ↔ 0 ≤ z < q ∧ 0 ≤ a < q ∧ (a ≠ 0 ∨ z ≠ 0).
Proof.
  unfold line_coefficients, GF.elements.
  rewrite list_elem_of_filter, list_elem_of_bind. simpl. split.
  - intros (H0 & z' & Hin & Hz). apply list_elem_of_bind in Hin as (a' & Hin & Ha).
    apply list_elem_of_singleton in Hin. injection Hin as -> ->.
    apply elem_of_seqZ in Hz, Ha. lia.
  - intros (Hz & Ha & H0). split; [done|]. exists z. split; [|apply elem_of_seqZ; lia].
    apply list_elem_of_bind. exists a. split; [set_solver|apply elem_of_seqZ; lia].
Qed.

(** The loop of [points_on_line], when every turn yields a point. *)
Lemma foldl_line_step P p1 p2 (coeffs : list (Z * Z)) (acc : list point) :
  (∀ za, za ∈ coeffs → ∃ p, line_point P p1 p2 za = Ok p) →
  ∃ l, foldl (line_step P p1 p2) (Ok acc) coeffs = Ok l ∧
       (NoDup acc → NoDup l) ∧
       (∀ p, p ∈ l ↔ p ∈ acc ∨ ∃ za, za ∈ coeffs ∧ line_point P p1 p2 za = Ok p).
Proof.
  revert acc. induction coeffs as [|za coeffs IH]; intros acc Hall.
  - exists acc. split; [done|]. split; [done|]. set_solver.
  - destruct (Hall za) as [p Hp]; [set_solver|].
    assert (line_step P p1 p2 (Ok acc) za
            = Ok (if bool_decide (p ∈ acc) then acc else acc ++ [p])) as Hstep.
    { unfold line_step. simpl. unfold line_point in Hp. by rewrite Hp. }
    cbn [foldl]. rewrite Hstep.
    destruct (IH (if bool_decide (p ∈ acc) then acc else acc ++ [p]))
      as (l & Hl & Hnd & Hel); [set_solver|].
    exists l. split; [done|]. split.
    + intros Hacc. apply Hnd. case_bool_decide; [done|].
      apply NoDup_app. split; [done|]. split; [set_solver|apply NoDup_singleton].
    + intros x. rewrite Hel. case_bool_decide as Hin.
      * split; [set_solver|]. intros [?|(za' & Hza' & Hx)]; [by left|].
        apply elem_of_cons in Hza' as [->|?]; [|set_solver].
        rewrite Hp in Hx. injection Hx as <-. by left.
      * rewrite elem_of_app, list_elem_of_singleton. split.
        -- intros [[?|Hx]|(za' & ? & ?)]; [by left|right..].
           ++ subst x. exists za. split; [set_solver|done].
           ++ exists za'. split; [set_solver|done].
        -- intros [?|(za' & Hza' & Hx)]; [by left; left|].
           apply elem_of_cons in Hza' as [->|?]; [|set_solver].
           rewrite Hp in Hx. injection Hx as <-.
           left. by right.
Qed.

Section Lines.
Variable P : ProjectiveSpace.
Hypothesis Hq : Z.prime (order P).

Let q := order P.

Lemma combine_points_reduced z a p1 p2 :
  Forall (fun x => 0 ≤ x < q) (combine_points q z a p1 p2).
Proof.
  unfold combine_points. revert p2. induction p1 as [|x p1 IH]; intros [|y p2];
    simpl; try constructor; [apply mod_range, Hq|apply IH].
Qed.

Lemma combine_points_length z a p1 p2 :
  length p1 = length p2 → length (combine_points q z a p1 p2) = length p1.
Proof. intros H. unfold combine_points. rewrite length_zip_with. lia. Qed.

Lemma combine_points_scale k z a p1 p2 :
  map (GF.mul q k) (combine_points q z a p1 p2)
  = combine_points q (k * z) (k * a) p1 p2.
Proof.
  unfold combine_points. revert p2. induction p1 as [|x p1 IH]; intros [|y p2];
    simpl; try done. f_equal; [|apply IH].
  unfold GF.mul, GF.add. eqm_ring q.
Qed.

Lemma combine_points_mod z a z' a' p1 p2 :
  z mod q = z' mod q → a mod q = a' mod q →
  combine_points q z a p1 p2 = combine_points q z' a' p1 p2.
Proof.
  intros Hz Ha. unfold combine_points. revert p2.
  induction p1 as [|x p1 IH]; intros [|y p2]; simpl; try done.
  f_equal; [|apply IH]. unfold GF.mul, GF.add.
  rewrite <- (Z.mul_mod_idemp_l z), <- (Z.mul_mod_idemp_l a), Hz, Ha,
    !Z.mul_mod_idemp_l by (pose proof (order_gt_1 q Hq); lia).
  reflexivity.
Qed.

(** Two vectors with equal combinations differ by a vanishing one. *)
Lemma combine_points_diff z a z' a' p1 p2 :
  combine_points q z a p1 p2 = combine_points q z' a' p1 p2 →
  Forall (fun x => x = 0) (combine_points q (z - z') (a - a') p1 p2).
Proof.
  unfold combine_points. revert p2.
  induction p1 as [|x p1 IH]; intros [|y p2]; simpl; try constructor.
  - injection H as H _. unfold GF.mul, GF.add in *.
    rewrite <- (Z.mod_0_l q) by (pose proof (order_gt_1 q Hq); lia).
    apply (f_equal (fun u => (u - ((z' * x) mod q + (a' * y) mod q) mod q) mod q)) in H.
    rewrite Z.sub_diag in H. rewrite <- H. eqm_ring q.
  - injection H as _ H. by apply IH.
Qed.

(** When the second coefficient of a vanishing combination is not
    zero, the second vector is a multiple of the first. *)
Lemma vanishing_multiple z a p1 p2 :
  length p1 = length p2 → Forall (fun x => 0 ≤ x < q) p2 →
  a mod q ≠ 0 →
  Forall (fun x => x = 0) (combine_points q z a p1 p2) →
  p2 = map (GF.mul q (- z * GF.inv q a)) p1.
Proof.
  intros Hlen Hred Ha. unfold combine_points. revert p2 Hlen Hred.
  induction p1 as [|x p1 IH]; intros [|y p2] Hlen Hred H0; simplify_eq/=; [done|].
  apply Forall_cons in H0 as [Hx H0]. apply Forall_cons in Hred as [Hy Hred].
  f_equal; [|by apply IH].
  rewrite <- (Z.mod_small y q) by done. unfold GF.mul, GF.add in *.
  apply (mul_cancel q Hq a); [done|].
  pose proof (inv_mul q Hq a Ha) as Hi.
  transitivity ((- z * x * ((GF.inv q a * a) mod q)) mod q); [|eqm_ring q].
  rewrite Hi, <- (Z.add_0_l (- z * x * 1)), <- Hx. eqm_ring q.
Qed.

Lemma vanishing_first z p1 :
  1 ∈ p1 → Forall (fun x => x = 0) (map (GF.mul q z) p1) → z mod q = 0.
Proof.
  intros H1 H0. rewrite Forall_forall in H0.
  specialize (H0 (GF.mul q z 1)). unfold GF.mul in H0.
  rewrite Z.mul_1_r in H0. apply H0.
  apply (list_elem_of_fmap_2 (fun x => (z * x) mod q) p1 1) in H1.
  by rewrite Z.mul_1_r in H1.
Qed.

Variables p1 p2 : point.
Hypothesis Hp1 : is_point P p1.
Hypothesis Hp2 : is_point P p2.
Hypothesis Hne : p1 ≠ p2.

(** Two distinct points are linearly independent. *)
Lemma points_independent z a :
  Forall (fun x => x = 0) (combine_points q z a p1 p2) →
  z mod q = 0 ∧ a mod q = 0.
Proof.
  intros H0. destruct Hp1 as (Hl1 & Hr1 & Hn1). destruct Hp2 as (Hl2 & Hr2 & Hn2).
  assert (a mod q = 0) as Ha.
  { destruct (decide (a mod q = 0)) as [|Ha]; [done|]. exfalso.
    pose proof (vanishing_multiple z a p1 p2 ltac:(lia) Hr2 Ha H0) as Hm.
    set (k := - z * GF.inv q a) in *.
    destruct (decide (k mod q = 0)) as [Hk|Hk].
    - apply last_nonzero_Some in Hn2 as [_ Hin]. rewrite Hm in Hin.
      apply list_elem_of_fmap in Hin as (x & Hx & _).
      unfold GF.mul in Hx. rewrite <- Z.mul_mod_idemp_l, Hk in Hx
        by (pose proof (order_gt_1 q Hq); lia).
      rewrite Z.mul_0_l, Z.mod_0_l in Hx
        by (pose proof (order_gt_1 q Hq); lia). done.
    - apply Hne.
      pose proof (projective_space_scale P Hq k p1 Hk ltac:(lia)) as Hs.
      fold q in Hs. rewrite <- Hm in Hs.
      rewrite !projective_space_point in Hs by done. by injection Hs. }
  split; [|done].
  apply (vanishing_first z p1).
  - by apply last_nonzero_Some in Hn1 as [_ ?].
  - rewrite (combine_points_mod z a z 0) in H0 by (rewrite ?Ha; done).
    clear -H0 Hl1 Hl2 Hq. assert (length p1 = length p2) as Hlen by lia.
    clear Hl1 Hl2. unfold combine_points in H0. revert p2 Hlen H0.
    induction p1 as [|x l IH]; intros [|y l2] Hlen H0; simplify_eq/=; [done|].
    apply Forall_cons in H0 as [Hx H0]. constructor; [|by eapply IH].
    rewrite <- Hx. unfold GF.mul, GF.add. eqm_ring q.
Qed.

(** Every turn of the loop yields a point. *)
Lemma line_point_Ok z a :
  a mod q ≠ 0 ∨ z mod q ≠ 0 → ∃ p, line_point P p1 p2 (z, a) = Ok p.
Proof.
  intros Hza. unfold line_point. simpl. fold q.
  destruct Hp1 as (Hl1 & _). destruct Hp2 as (Hl2 & _).
  rewrite (of_Z_reduced P) by apply combine_points_reduced.
  rewrite (projective_space_full P)
    by (rewrite combine_points_length; lia).
  fold q. rewrite (of_Z_reduced P) by apply combine_points_reduced.
  destruct (last_nonzero _) as [c|] eqn:Hc; [eauto|].
  apply last_nonzero_None, points_independent in Hc. lia.
Qed.

(** Two turns yield the same point only for proportional coefficients. *)
Lemma line_point_inj z a z' a' p :
  line_point P p1 p2 (z, a) = Ok p → line_point P p1 p2 (z', a') = Ok p →
  ∃ k, k mod q ≠ 0 ∧ z mod q = (k * z') mod q ∧ a mod q = (k * a') mod q.
Proof.
  unfold line_point. simpl. fold q.
  rewrite !(of_Z_reduced P) by apply combine_points_reduced.
  intros H1 H2.
  destruct Hp1 as (Hl1 & _). destruct Hp2 as (Hl2 & _).
  apply (projective_space_multiple P Hq) in H1 as (k1 & Hk1 & H1);
    [|rewrite combine_points_length; lia].
  apply (projective_space_multiple P Hq) in H2 as (k2 & Hk2 & H2);
    [|rewrite combine_points_length; lia].
  fold q in H1, H2.
  rewrite !(of_Z_reduced P) in H1, H2 by apply combine_points_reduced.
  set (k := k1 * GF.inv q k2).
  assert (combine_points q z a p1 p2 = combine_points q (k * z') (k * a') p1 p2)
    as Heq.
  { rewrite <- combine_points_scale, H1, H2, (scale_scale P).
    apply map_ext. intros x. unfold GF.mul, k.
    pose proof (inv_mul q Hq k2 Hk2) as Hi.
    transitivity ((k1 * ((GF.inv q k2 * k2) mod q) * x) mod q); [|eqm_ring q].
    rewrite Hi. f_equal. ring. }
  apply combine_points_diff, points_independent in Heq as [Hz Ha].
  exists k. split.
  - unfold k. intros Hk. apply (mul_mod_eq_0 q Hq) in Hk as [?|Hk]; [done|].
    pose proof (inv_range q Hq k2). pose proof (inv_nonzero q Hq k2 Hk2).
    rewrite Z.mod_small in Hk; lia.
  - split.
    + rewrite <- (Z.add_0_l (k * z')), <- Hz. eqm_ring q.
    + rewrite <- (Z.add_0_l (k * a')), <- Ha. eqm_ring q.
Qed.

(** Proportional coefficients yield the same point. *)
Lemma line_point_scale k z a :
  k mod q ≠ 0 →
  line_point P p1 p2 ((k * z) mod q, (k * a) mod q) = line_point P p1 p2 (z, a).
Proof.
  intros Hk. unfold line_point. simpl. fold q.
  rewrite !(of_Z_reduced P) by apply combine_points_reduced.
  destruct Hp1 as (Hl1 & _). destruct Hp2 as (Hl2 & _).
  rewrite <- (projective_space_scale P Hq k (combine_points q z a p1 p2) Hk)
    by (rewrite combine_points_length; lia).
  fold q. rewrite combine_points_scale. f_equal.
  apply combine_points_mod; apply Z.mod_mod; pose proof (order_gt_1 q Hq); lia.
Qed.

End Lines.

Section LineSize.
Variable P : ProjectiveSpace.
Hypothesis Hq : Z.prime (order P).
Variables p1 p2 : point.
Hypothesis Hp1 : is_point P p1.
Hypothesis Hp2 : is_point P p2.
Hypothesis Hne : p1 ≠ p2.

Let q := order P.

Lemma canonical_in_coefficients za :
  za ∈ canonical_coefficients q → za ∈ line_coefficients q.
Proof.
  pose proof (order_gt_1 q Hq). unfold canonical_coefficients.
  rewrite elem_of_cons, list_elem_of_fmap. destruct za as [z a].
  rewrite elem_of_line_coefficients.
  intros [[= -> ->]|(a' & [= -> ->] & Ha)]; [lia|].
  apply elem_of_seqZ in Ha. lia.
Qed.

Lemma coefficients_line_point_Ok za :
  za ∈ line_coefficients q → ∃ p, line_point P p1 p2 za = Ok p.
Proof.
  destruct za as [z a]. rewrite elem_of_line_coefficients.
  intros (Hz & Ha & H0). apply line_point_Ok; try done.
  rewrite !Z.mod_small by done. done.
Qed.

(** Every turn of the loop computes the point of a canonical pair. *)
Lemma coefficients_canonical za :
  za ∈ line_coefficients q →
  ∃ zb, zb ∈ canonical_coefficients q ∧
        line_point P p1 p2 za = line_point P p1 p2 zb.
Proof.
  pose proof (order_gt_1 q Hq) as Hq1.
  destruct za as [z a]. rewrite elem_of_line_coefficients.
  intros (Hz & Ha & H0). destruct (decide (z = 0)) as [->|Hz0].
  - exists (0, 1). split; [unfold canonical_coefficients; set_solver|].
    rewrite <- (line_point_scale P Hq p1 p2 Hp1 Hp2 a 0 1) by (rewrite Z.mod_small; lia).
    fold q. rewrite Z.mul_0_r, Z.mul_1_r, Z.mod_0_l, Z.mod_small by lia. done.
  - assert (z mod q ≠ 0) as Hzq by (rewrite Z.mod_small; lia).
    exists (1, (GF.inv q z * a) mod q). split.
    + unfold canonical_coefficients. apply elem_of_cons. right.
      apply list_elem_of_fmap. eexists. split; [done|].
      apply elem_of_seqZ. pose proof (mod_range q Hq (GF.inv q z * a)). lia.
    + rewrite <- (line_point_scale P Hq p1 p2 Hp1 Hp2 z 1 ((GF.inv q z * a) mod q)) by done.
      fold q. f_equal. f_equal.
      * rewrite Z.mul_1_r, Z.mod_small; lia.
      * rewrite <- (Z.mod_small a q) at 1 by done.
        pose proof (inv_mul q Hq z Hzq) as Hi.
        transitivity ((((GF.inv q z * z) mod q) * a) mod q); [by rewrite Hi, Z.mul_1_l|].
        eqm_ring q.
Qed.

Lemma canonical_inj za zb p :
  za ∈ canonical_coefficients q → zb ∈ canonical_coefficients q →
  line_point P p1 p2 za = Ok p → line_point P p1 p2 zb = Ok p → za = zb.
Proof.
  pose proof (order_gt_1 q Hq) as Hq1.
  intros Ha Hb Hpa Hpb. destruct za as [z a], zb as [z' a'].
  destruct (line_point_inj P Hq p1 p2 Hp1 Hp2 Hne _ _ _ _ _ Hpa Hpb)
    as (k & Hk & Hz & Hza).
  fold q in Hk, Hz, Hza. unfold canonical_coefficients in Ha, Hb.
  rewrite elem_of_cons, list_elem_of_fmap in Ha, Hb.
  destruct Ha as [[= -> ->]|(x & [= -> ->] & Hx)];
    destruct Hb as [[= -> ->]|(y & [= -> ->] & Hy)]; try done.
  - rewrite Z.mul_1_r, Z.mod_0_l in Hz by lia. congruence.
  - rewrite Z.mul_0_r, Z.mod_0_l, Z.mod_small in Hz by lia. lia.
  - apply elem_of_seqZ in Hx, Hy. f_equal.
    rewrite <- (Z.mod_small x q), <- (Z.mod_small y q), Hza by lia.
    rewrite Z.mul_1_r in Hz.
    rewrite <- Z.mul_mod_idemp_l, <- Hz, Z.mul_mod_idemp_l, Z.mul_1_l by lia.
    done.
Qed.

Lemma points_on_line_spec :
  ∃ l, points_on_line p1 p2 P = Ok l ∧ NoDup l ∧
       ∀ p, p ∈ l ↔ ∃ za, za ∈ line_coefficients q ∧ line_point P p1 p2 za = Ok p.
Proof.
  destruct (foldl_line_step P p1 p2 (line_coefficients q) [])
    as (l & Hl & Hnd & Hel); [apply coefficients_line_point_Ok|].
  exists l. split; [done|]. split; [apply Hnd, NoDup_nil_2|].
  intros p. rewrite Hel. set_solver.
Qed.

Lemma points_on_line_length l :
  points_on_line p1 p2 P = Ok l → Z.of_nat (length l) = q + 1.
Proof.
  pose proof (order_gt_1 q Hq) as Hq1.
  destruct points_on_line_spec as (l' & Hl & Hnd & Hel).
  rewrite Hl. intros [= ->].
  set (c := map (fun za => point_or_nil (line_point P p1 p2 za))
                (canonical_coefficients q)).
  assert (l ≡ₚ c) as ->.
  { apply NoDup_Permutation; [done| |].
    - apply NoDup_fmap_2_strong.
      + intros za zb Ha Hb Heq.
        destruct (coefficients_line_point_Ok za) as [pa Hpa];
          [by apply canonical_in_coefficients|].
        destruct (coefficients_line_point_Ok zb) as [pb Hpb];
          [by apply canonical_in_coefficients|].
        rewrite Hpa, Hpb in Heq. simpl in Heq. subst pb.
        by eapply canonical_inj.
      + unfold canonical_coefficients. apply NoDup_cons. split.
        * rewrite list_elem_of_fmap. by intros (? & [=] & _).
        * apply NoDup_fmap_2; [by intros ?? [=]|apply NoDup_seqZ].
    - intros p. rewrite Hel. unfold c. rewrite list_elem_of_fmap. split.
      + intros (za & Hza & Hp).
        destruct (coefficients_canonical za Hza) as (zb & Hzb & Heq).
        exists zb. split; [|done]. by rewrite <- Heq, Hp.
      + intros (zb & -> & Hzb). exists zb.
        split; [by apply canonical_in_coefficients|].
        destruct (coefficients_line_point_Ok zb) as [pb Hpb];
          [by apply canonical_in_coefficients|].
        by rewrite Hpb. }
  unfold c, canonical_coefficients. rewrite length_map. simpl.
  rewrite length_map, length_seqZ. lia.
Qed.

End LineSize.

(** C5. For two distinct points of a projective space over a prime field
    of order [q], [points_on_line] returns [q + 1] points, pairwise
    distinct, each in normal form. *)
Theorem points_on_line_size (P : ProjectiveSpace) (p1 p2 : point) :
  Z.prime (order P) → is_point P p1 → is_point P p2 → p1 ≠ p2 →
  ∃ l, points_on_line p1 p2 P = Ok l ∧
       Z.of_nat (length l) = order P + 1 ∧
       NoDup l ∧ Forall (is_point P) l.
Proof.
  intros Hq Hp1 Hp2 Hne.
  destruct (points_on_line_spec P Hq p1 p2 Hp1 Hp2 Hne) as (l & Hl & Hnd & Hel).
  exists l. split; [done|].
  split; [by apply (points_on_line_length P Hq p1 p2)|]. split; [done|].
  apply Forall_forall. intros p Hp. apply Hel in Hp as (za & _ & Hp).
  by apply projective_space_is_point in Hp.
Qed.

(** ** Span closure *)

Lemma append_new_spec (l new_points : list point) :
  ∃ extra, append_new l new_points = l ++ extra ∧ NoDup extra ∧
           ∀ x, x ∈ extra ↔ x ∈ new_points ∧ x ∉ l.
Proof.
  revert l. induction new_points as [|p rest IH]; intros l; simpl.
  - exists []. rewrite app_nil_r. split; [done|]. split; [constructor|].
    intros x. split; [by intros ?%elem_of_nil|by intros [?%elem_of_nil _]].
  - case_bool_decide as Hin.
    + destruct (IH l) as (extra & -> & Hnd & Hel). exists extra.
      split; [done|]. split; [done|]. intros x. rewrite Hel, elem_of_cons.
      split; [tauto|]. intros [[->|?] ?]; tauto.
    + destruct (IH (l ++ [p])) as (extra & -> & Hnd & Hel). exists (p :: extra).
      split; [by rewrite <- app_assoc|]. split.
      * apply NoDup_cons. split; [|done]. rewrite Hel, elem_of_app, list_elem_of_singleton.
        tauto.
      * intros x. rewrite !elem_of_cons, Hel, elem_of_app, list_elem_of_singleton.
        destruct (decide (x = p)) as [->|]; tauto.
Qed.

Lemma append_new_prefix (l new_points : list point) :
  l `prefix_of` append_new l new_points.
Proof. destruct (append_new_spec l new_points) as (e & -> & _). by exists e. Qed.

Lemma append_new_fixed (l new_points : list point) :
  append_new l new_points = l ↔ ∀ p, p ∈ new_points → p ∈ l.
Proof.
  destruct (append_new_spec l new_points) as (e & -> & _ & Hel). split.
  - intros He p Hp. rewrite <- (app_nil_r l) in He at 2.
    apply app_inv_head in He. subst e.
    destruct (decide (p ∈ l)) as [|Hn]; [done|].
    assert (p ∈ []) as Hx by (apply Hel; done). by apply elem_of_nil in Hx.
  - intros Hall. destruct e as [|x e]; [by rewrite app_nil_r|].
    assert (x ∈ new_points ∧ x ∉ l) as [Hx Hn] by (apply Hel; set_solver).
    destruct Hn. by apply Hall.
Qed.

Lemma prefix_antisym {A} (l1 l2 : list A) :
  l1 `prefix_of` l2 → l2 `prefix_of` l1 → l1 = l2.
Proof.
  intros [k1 ->] [k2 H]. rewrite <- app_assoc in H.
  rewrite <- (app_nil_r l1) in H at 1. apply app_inv_head in H.
  symmetry in H. apply app_eq_nil in H as [-> _]. by rewrite app_nil_r.
Qed.

(** *** What a pass that changes nothing says *)

Lemma inner_loop_prefix fuel P p1 j l l' :
  inner_loop fuel P p1 j l = Ok l' → l `prefix_of` l'.
Proof.
  revert j l. induction fuel as [|fuel IH]; intros j l; simpl; [done|].
  destruct (l !! j) as [p2|]; [|by intros [= ->]].
  case_bool_decide.
  - destruct (points_on_line p1 p2 P) as [pts| |]; simpl; try done.
    intros Hr. apply IH in Hr. etrans; [apply append_new_prefix|done].
  - apply IH.
Qed.

Lemma inner_loop_fixed fuel P p1 j l :
  inner_loop fuel P p1 j l = Ok l →
  ∀ k p2, (j ≤ k)%nat → l !! k = Some p2 → p1 ≠ p2 →
    ∃ pts, points_on_line p1 p2 P = Ok pts ∧ ∀ p, p ∈ pts → p ∈ l.
Proof.
  revert j. induction fuel as [|fuel IH]; intros j; simpl; [done|].
  destruct (l !! j) as [p2|] eqn:Hj.
  - intros H k p2' Hk Hp2' Hne.
    destruct (decide (k = j)) as [->|Hkj].
    + rewrite Hj in Hp2'. injection Hp2' as ->.
      rewrite bool_decide_eq_true_2 in H by done.
      destruct (points_on_line p1 p2' P) as [pts| |]; simpl in H; try done.
      exists pts. split; [done|]. apply append_new_fixed.
      apply prefix_antisym; [|apply append_new_prefix].
      by apply inner_loop_prefix in H.
    + case_bool_decide.
      * destruct (points_on_line p1 p2 P) as [pts| |]; simpl in H; try done.
        assert (append_new l pts = l) as Heq.
        { apply prefix_antisym; [|apply append_new_prefix].
          by apply inner_loop_prefix in H. }
        rewrite Heq in H. apply (IH (S j) H k); [lia|done..].
      * apply (IH (S j) H k); [lia|done..].
  - intros _ k p2 Hk Hp2. apply lookup_ge_None in Hj.
    apply lookup_lt_Some in Hp2. lia.
Qed.

Lemma outer_loop_prefix fuel P i l l' :
  outer_loop fuel P i l = Ok l' → l `prefix_of` l'.
Proof.
  revert i l. induction fuel as [|fuel IH]; intros i l; simpl; [done|].
  destruct (l !! i) as [p1|]; [|by intros [= ->]].
  destruct (inner_loop fuel P p1 0 l) as [l1| |] eqn:Hin; simpl; try done.
  intros H. apply IH in H. apply inner_loop_prefix in Hin. by etrans.
Qed.

Lemma outer_loop_fixed fuel P i l :
  outer_loop fuel P i l = Ok l →
  ∀ k p1 p2, (i ≤ k)%nat → l !! k = Some p1 → p2 ∈ l → p1 ≠ p2 →
    ∃ pts, points_on_line p1 p2 P = Ok pts ∧ ∀ p, p ∈ pts → p ∈ l.
Proof.
  revert i. induction fuel as [|fuel IH]; intros i; simpl; [done|].
  destruct (l !! i) as [p1|] eqn:Hi.
  - destruct (inner_loop fuel P p1 0 l) as [l1| |] eqn:Hin; simpl; try done.
    intros H k p1' p2 Hk Hp1' Hp2 Hne.
    assert (l1 = l) as ->.
    { symmetry. apply prefix_antisym; [by apply inner_loop_prefix in Hin|].
      by apply outer_loop_prefix in H. }
    destruct (decide (k = i)) as [->|Hki].
    + rewrite Hi in Hp1'. injection Hp1' as ->.
      apply list_elem_of_lookup in Hp2 as [m Hm].
      apply (inner_loop_fixed _ _ _ _ _ Hin m); [lia|done..].
    + apply (IH (S i) H k); [lia|done..].
  - intros _ k p1 p2 Hk Hp1. apply lookup_ge_None in Hi.
    apply lookup_lt_Some in Hp1. lia.
Qed.

(** A pass that leaves the list as it was found it closed. *)
Lemma pass_fixed_closed fuel P l : outer_loop fuel P 0 l = Ok l → closed P l.
Proof.
  intros H p1 p2 Hp1 Hp2 Hne. apply list_elem_of_lookup in Hp1 as [k Hk].
  apply (outer_loop_fixed _ _ _ _ H k); [lia|done..].
Qed.

(** What [reconstruct_hyperplane] returns is closed. *)
Lemma reconstruct_hyperplane_closed fuel P points h :
  reconstruct_hyperplane fuel points P = Ok h →
  ∃ l, h = {[1%nat := l]} ∧ points `prefix_of` l ∧ closed P l.
Proof.
  revert points. induction fuel as [|fuel IH]; intros points; simpl; [done|].
  destruct (outer_loop fuel P 0 points) as [l| |] eqn:Hl; simpl; try done.
  case_bool_decide as Heq.
  - intros [= <-]. subst l. exists points. split; [done|]. split; [done|].
    by eapply pass_fixed_closed.
  - intros H. apply IH in H as (l' & -> & Hpre & Hcl). exists l'.
    split; [done|]. split; [|done]. apply outer_loop_prefix in Hl. by etrans.
Qed.

(** *** A closed list is left as it is *)

Lemma inner_loop_closed fuel P p1 j l :
  closed P l → p1 ∈ l → (j ≤ length l)%nat → (length l < fuel + j)%nat →
  inner_loop fuel P p1 j l = Ok l.
Proof.
  intros Hcl Hp1. revert j. induction fuel as [|fuel IH]; intros j Hj Hf; simpl.
  - lia.
  - destruct (l !! j) as [p2|] eqn:Hlj; [|done].
    pose proof (lookup_lt_Some _ _ _ Hlj).
    case_bool_decide as Hne; [|apply IH; lia].
    destruct (Hcl p1 p2) as (pts & -> & Hpts); [done| |done|].
    { by eapply list_elem_of_lookup_2. }
    simpl. apply append_new_fixed in Hpts. rewrite Hpts. apply IH; lia.
Qed.

Lemma outer_loop_closed fuel P i l :
  closed P l → (i ≤ length l)%nat → (2 * length l + 1 < fuel + i)%nat →
  outer_loop fuel P i l = Ok l.
Proof.
  intros Hcl. revert i. induction fuel as [|fuel IH]; intros i Hi Hf; simpl.
  - lia.
  - destruct (l !! i) as [p1|] eqn:Hli; [|done].
    pose proof (lookup_lt_Some _ _ _ Hli).
    rewrite inner_loop_closed; [|done|by eapply list_elem_of_lookup_2|lia..].
    simpl. apply IH; lia.
Qed.

(** C9. Span closure is idempotent: on a list that is already closed
    under the lines through its pairs, [reconstruct_hyperplane] returns
    that very list (with enough fuel for one pass over it). *)
Theorem reconstruct_hyperplane_idempotent fuel P (l : list point) :
  closed P l → (2 * length l + 2 < fuel)%nat →
  reconstruct_hyperplane fuel l P = Ok {[1%nat := l]}.
Proof.
  intros Hcl Hf. destruct fuel as [|fuel]; [lia|]. simpl.
  rewrite outer_loop_closed by (done || lia). simpl.
  by rewrite bool_decide_eq_true_2.
Qed.

(** *** Termination *)

Lemma elem_of_vectors q n v :
  length v = n → Forall (fun x => 0 ≤ x < q) v → v ∈ vectors q n.
Proof.
  revert v. induction n as [|n IH]; intros v Hlen Hv.
  - destruct v; [|done]. simpl. apply list_elem_of_singleton. done.
  - destruct v as [|x v]; [done|]. apply Forall_cons in Hv as [Hx Hv].
    simpl. apply list_elem_of_bind. exists x. split.
    + apply list_elem_of_bind. exists v. split; [by apply list_elem_of_singleton|].
      apply IH; [by injection Hlen|done].
    + apply elem_of_seqZ. lia.
Qed.

Lemma is_point_in_vectors P p :
  is_point P p → p ∈ vectors (order P) (S (dimension P)).
Proof. intros (Hl & Hr & _). by apply elem_of_vectors. Qed.

Lemma extends_refl P l : extends P l l.
Proof.
  exists []. rewrite app_nil_r. split; [done|]. split; [constructor|].
  by intros x ?%elem_of_nil.
Qed.

Lemma extends_trans P l0 l1 l2 : extends P l0 l1 → extends P l1 l2 → extends P l0 l2.
Proof.
  intros (e1 & -> & Hnd1 & He1) (e2 & -> & Hnd2 & He2).
  exists (e1 ++ e2). split; [by rewrite app_assoc|]. split.
  - apply NoDup_app. split; [done|]. split; [|done].
    intros x Hx1 Hx2. apply He2 in Hx2 as [Hn _]. apply Hn, elem_of_app. by right.
  - intros x [Hx|Hx]%elem_of_app; [by apply He1|].
    apply He2 in Hx as [Hn Hp]. split; [|done].
    intros Hin. apply Hn, elem_of_app. by left.
Qed.

Lemma extends_prefix P l0 l : extends P l0 l → l0 `prefix_of` l.
Proof. intros (e & -> & _). by exists e. Qed.

Lemma extends_length P l0 l :
  extends P l0 l → (length l ≤ length l0 + space_size P)%nat.
Proof.
  intros (e & -> & Hnd & He). rewrite length_app.
  enough (length e ≤ space_size P)%nat by lia.
  apply submseteq_length, NoDup_submseteq; [done|].
  intros x Hx. apply is_point_in_vectors. by apply He.
Qed.

Lemma extends_is_point P l0 l :
  Forall (is_point P) l0 → extends P l0 l → Forall (is_point P) l.
Proof.
  intros H0 (e & -> & _ & He). apply Forall_app. split; [done|].
  apply Forall_forall. intros x Hx. by apply He.
Qed.

Lemma extends_append_new P l pts :
  Forall (is_point P) pts → extends P l (append_new l pts).
Proof.
  intros Hpts. destruct (append_new_spec l pts) as (e & -> & Hnd & Hel).
  exists e. split; [done|]. split; [done|]. intros x Hx.
  apply Hel in Hx as [Hx Hn]. split; [done|].
  rewrite Forall_forall in Hpts. by apply Hpts.
Qed.

Lemma extends_neq_length P l0 l :
  extends P l0 l → l ≠ l0 → (length l0 < length l)%nat.
Proof.
  intros (e & -> & _) Hne. rewrite length_app. destruct e; [|simpl; lia].
  by rewrite app_nil_r in Hne.
Qed.

Section Termination.
Variable P : ProjectiveSpace.
Hypothesis Hq : Z.prime (order P).
Variable l0 : list point.
Hypothesis Hl0 : Forall (is_point P) l0.

(** No list grown from [l0] is longer than this. *)
Let bound : nat := (length l0 + space_size P)%nat.

Lemma inner_loop_terminates fuel p1 j l :
  is_point P p1 → extends P l0 l →
  (j ≤ length l)%nat → (bound < fuel + j)%nat →
  ∃ l', inner_loop fuel P p1 j l = Ok l' ∧ extends P l l'.
Proof.
  intros Hp1. revert j l. induction fuel as [|fuel IH]; intros j l Hext Hj Hf.
  - pose proof (extends_length _ _ _ Hext). unfold bound in Hf. lia.
  - simpl. destruct (l !! j) as [p2|] eqn:Hlj.
    + pose proof (lookup_lt_Some _ _ _ Hlj).
      assert (is_point P p2) as Hp2.
      { pose proof (extends_is_point _ _ _ Hl0 Hext) as Hall.
        rewrite Forall_forall in Hall. apply Hall.
        by eapply list_elem_of_lookup_2. }
      case_bool_decide as Hne.
      * destruct (points_on_line_size P p1 p2 Hq Hp1 Hp2 Hne)
          as (pts & -> & _ & _ & Hpts).
        simpl. pose proof (extends_append_new P l pts Hpts) as He.
        destruct (IH (S j) (append_new l pts)) as (l' & Hl' & He').
        -- by eapply extends_trans.
        -- pose proof (prefix_length _ _ (extends_prefix _ _ _ He)). lia.
        -- lia.
        -- exists l'. split; [done|]. by eapply extends_trans.
      * apply IH; [done|lia..].
    + exists l. split; [done|]. apply extends_refl.
Qed.

Lemma outer_loop_terminates fuel i l :
  extends P l0 l →
  (i ≤ length l)%nat → (2 * bound + 1 < fuel + i)%nat →
  ∃ l', outer_loop fuel P i l = Ok l' ∧ extends P l l'.
Proof.
  revert i l. induction fuel as [|fuel IH]; intros i l Hext Hi Hf.
  - pose proof (extends_length _ _ _ Hext). unfold bound in Hf. lia.
  - pose proof (extends_length _ _ _ Hext) as Hlen. fold bound in Hlen.
    simpl. destruct (l !! i) as [p1|] eqn:Hli.
    + pose proof (lookup_lt_Some _ _ _ Hli).
      assert (is_point P p1) as Hp1.
      { pose proof (extends_is_point _ _ _ Hl0 Hext) as Hall.
        rewrite Forall_forall in Hall. apply Hall.
        by eapply list_elem_of_lookup_2. }
      destruct (inner_loop_terminates fuel p1 0 l Hp1 Hext) as (l1 & -> & He1);
        [lia..|].
      simpl. destruct (IH (S i) l1) as (l' & Hl' & He').
      * by eapply extends_trans.
      * pose proof (prefix_length _ _ (extends_prefix _ _ _ He1)). lia.
      * lia.
      * exists l'. split; [done|]. by eapply extends_trans.
    + exists l. split; [done|]. apply extends_refl.
Qed.

Lemma closure_terminates_from k fuel l :
  extends P l0 l →
  (bound ≤ k + length l)%nat → (k + 2 * bound + 2 < fuel)%nat →
  ∃ l', reconstruct_hyperplane fuel l P = Ok {[1%nat := l']}
        ∧ extends P l l' ∧ closed P l'.
Proof.
  revert fuel l. induction k as [|k IH]; intros fuel l Hext Hk Hf;
    (destruct fuel as [|fuel]; [lia|]); simpl;
    destruct (outer_loop_terminates fuel 0 l Hext) as (l1 & Hl1 & He1);
    try lia; rewrite Hl1; simpl;
    (case_bool_decide as Heq;
     [subst l1; exists l; split; [done|]; split; [apply extends_refl|];
      by eapply pass_fixed_closed|]).
  - pose proof (extends_neq_length _ _ _ He1 Heq).
    pose proof (extends_length _ _ _ (extends_trans _ _ _ _ Hext He1)) as Hb.
    fold bound in Hb. lia.
  - pose proof (extends_neq_length _ _ _ He1 Heq).
    destruct (IH fuel l1) as (l' & Hl' & He' & Hcl).
    + by eapply extends_trans.
    + lia.
    + lia.
    + exists l'. split; [done|]. split; [by eapply extends_trans|done].
Qed.

End Termination.

(** C8. Span closure terminates. Over a prime field, for every list of
    points of the space, [reconstruct_hyperplane] returns once it has fuel
    for its passes; the list it returns is the input followed by new,
    pairwise distinct points of the space (so the working list only grows,
    and not beyond the size of the space), and it is a fixed point: a list
    closed under the lines through its pairs. *)
Theorem reconstruct_hyperplane_terminates P (points : list point) :
  Z.prime (order P) → Forall (is_point P) points →
  ∃ n, ∀ fuel, (n ≤ fuel)%nat →
    ∃ l, reconstruct_hyperplane fuel points P = Ok {[1%nat := l]}
         ∧ extends P points l
         ∧ (length l ≤ length points + space_size P)%nat
         ∧ closed P l.
Proof.
  intros Hq Hpts.
  exists (3 * (length points + space_size P) + 3)%nat. intros fuel Hf.
  destruct (closure_terminates_from P Hq points Hpts
              (length points + space_size P) fuel points)
    as (l & Hl & He & Hcl); [apply extends_refl|lia..|].
  exists l. split; [done|]. split; [done|]. split; [|done].
  by apply extends_length.
Qed.

(** ** The effect of splitter selection on the shared lists *)

Lemma remove_first_incl (x p : point) (l : list point) :
  p ∈ remove_first x l → p ∈ l.
Proof.
  induction l as [|y l IH]; simpl; [done|].
  destruct (decide (x = y)) as [->|]; rewrite !elem_of_cons; [tauto|].
  intros [?|?]; [by left|right; by apply IH].
Qed.

Lemma remove_first_other (x p : point) (l : list point) :
  p ∈ l → p ≠ x → p ∈ remove_first x l.
Proof.
  induction l as [|y l IH]; simpl; [done|]. rewrite elem_of_cons.
  destruct (decide (x = y)) as [->|]; [by intros [->|?] ?|].
  rewrite elem_of_cons. intros [->|?] ?; [by left|right; by apply IH].
Qed.

Lemma remove_first_NoDup (x : point) (l : list point) :
  NoDup l → NoDup (remove_first x l) ∧ x ∉ remove_first x l.
Proof.
  induction 1 as [|y l Hy Hnd IH]; simpl; [split; [constructor|by intros ?%elem_of_nil]|].
  destruct (decide (x = y)) as [->|Hne]; [done|]. destruct IH as [IH1 IH2].
  split.
  - apply NoDup_cons. split; [|done]. by intros ?%remove_first_incl.
  - rewrite elem_of_cons. tauto.
Qed.

Lemma randbelow_Ok n s k s' :
  randbelow n s = Ok (k, s') → heap s' = heap s ∧ ∃ x, tape s = x :: tape s'.
Proof.
  unfold randbelow. destruct (tape s) as [|x t]; [done|].
  intros [= <- <-]. split; [done|]. by exists x.
Qed.

Lemma swap_Permutation {A} (x : list A) i j : swap x i j ≡ₚ x.
Proof.
  unfold swap. destruct (x !! i) as [a|] eqn:Hi; [|done].
  destruct (x !! j) as [b|] eqn:Hj; [|done].
  by apply Permutation_insert_swap.
Qed.

Lemma shuffle_from_Ok i x s x' s' :
  shuffle_from i x s = Ok (x', s') → x' ≡ₚ x ∧ heap s' = heap s.
Proof.
  revert x s. induction i as [|i IH]; intros x s; simpl.
  - by intros [= <- <-].
  - intros H. apply M_bind_Ok in H as (j & s1 & Hj & H).
    apply randbelow_Ok in Hj as [Hh _]. apply IH in H as [Hp Hh'].
    split; [|congruence]. rewrite Hp. apply swap_Permutation.
Qed.

Lemma shuffle_Ok l s u s' :
  shuffle l s = Ok (u, s') →
  ∃ pts pts', heap s !! l = Some pts ∧ pts' ≡ₚ pts ∧
              heap s' = <[l := pts']> (heap s).
Proof.
  unfold shuffle. intros H. apply M_bind_Ok in H as (x & s1 & Hx & H).
  unfold load in Hx. destruct (heap s !! l) as [pts|] eqn:Hl; [|done].
  injection Hx as <- <-.
  apply M_bind_Ok in H as (x' & s2 & Hx' & H).
  apply shuffle_from_Ok in Hx' as [Hp Hh]. unfold store in H.
  injection H as _ <-. exists pts, x'. simpl. by rewrite Hh.
Qed.

(** The arc grows from [secret; first] by points of the pool. *)
Lemma arc_fold_incl (secret : point) q (pool : list point) (todo rest : list point) :
  (∀ p, p ∈ rest → p ∈ pool) → (∀ p, p ∈ todo → p ∈ pool) →
  ∃ rest', foldl (fun arc pt =>
                    if is_general_position (arc ++ [pt]) q then arc ++ [pt]
                    else arc) (secret :: rest) todo = secret :: rest'
           ∧ ∀ p, p ∈ rest' → p ∈ pool.
Proof.
  revert rest. induction todo as [|pt todo IH]; intros rest Hrest Htodo; simpl.
  - by exists rest.
  - destruct (is_general_position _ q).
    + apply (IH (rest ++ [pt])).
      * intros p [?|Hp%list_elem_of_singleton]%elem_of_app; [by apply Hrest|].
        subst p. apply Htodo. by left.
      * intros p ?. apply Htodo. by right.
    + apply IH; [done|]. intros p ?. apply Htodo. by right.
Qed.

Lemma find_largest_general_position_subset_Ok l secret q s subset s' :
  find_largest_general_position_subset l secret q s = Ok (subset, s') →
  ∃ pts pts', heap s !! l = Some pts ∧ pts' ≡ₚ pts ∧
              heap s' = <[l := pts']> (heap s) ∧
              ∀ p, p ∈ subset → p ∈ pts'.
Proof.
  unfold find_largest_general_position_subset. intros H.
  apply M_bind_Ok in H as (u & s1 & Hsh & H).
  apply shuffle_Ok in Hsh as (pts & pts' & Hl & Hp & Hh).
  apply M_bind_Ok in H as (pool & s2 & Hpool & H).
  unfold load in Hpool. rewrite Hh, lookup_insert_eq in Hpool.
  injection Hpool as <- <-.
  apply M_bind_Ok in H as (first & s2 & Hf & H).
  unfold lift in Hf. destruct (index pts' 0) as [f| |] eqn:Hi; try done.
  injection Hf as <- <-. apply index_Ok in Hi.
  injection H as <- <-.
  exists pts, pts'. do 3 (split; [done|]).
  destruct (arc_fold_incl secret q pts' pts' [f]) as (rest' & -> & Hrest).
  - intros p Hpf%list_elem_of_singleton. subst p. by eapply list_elem_of_lookup_2.
  - done.
  - simpl. rewrite decide_True by done. done.
Qed.

(** What a call of [get_secret_splitter], retries included, does to the
    heap: a list that is not a candidate of the secret is left alone; a
    candidate is left alone or loses the secret and is reordered; the
    list selected last has lost the secret. *)
Lemma get_secret_splitter_heap fuel m (secret : point) d q cands s r s' :
  m !! secret = Some cands →
  (∀ l pts, l ∈ cands → heap s !! l = Some pts → NoDup pts) →
  get_secret_splitter fuel m secret d q s = Ok (r, s') →
  (∀ l, heap s' !! l = heap s !! l
        ∨ l ∈ cands ∧ ∃ pts pts', heap s !! l = Some pts ∧
                                   heap s' !! l = Some pts' ∧
                                   pts' ≡ₚ remove_first secret pts)
  ∧ ∃ hp pts pts',
      hp ∈ cands ∧ heap s !! hp = Some pts ∧ heap s' !! hp = Some pts' ∧
      pts' ≡ₚ remove_first secret pts ∧ secret ∉ pts' ∧
      (d = 2 ∧ r = Shared hp
       ∨ d ≠ 2 ∧ ∃ v, r = Local v ∧ ∀ p, p ∈ v → p ∈ pts').
Proof.
  intros Hm. revert s. induction fuel as [|fuel IH]; intros s Hnd H; [done|].
  apply get_secret_splitter_inv in H
    as (cands' & k & t & hp & pts & Hm' & Ht & Hhp & Hh & H).
  rewrite Hm in Hm'. injection Hm' as <-.
  assert (hp ∈ cands) as Hin by (by eapply list_elem_of_lookup_2).
  pose proof (Hnd hp pts Hin Hh) as Hndp.
  destruct (remove_first_NoDup secret pts Hndp) as [Hnd1 Hsec].
  destruct H as [(-> & -> & ->)|(Hd & subset & s2 & Hsub & H)].
  - unfold select_heap. simpl. split.
    + intros l. destruct (decide (l = hp)) as [->|Hne].
      * right. split; [done|]. exists pts, (remove_first secret pts).
        by rewrite lookup_insert_eq.
      * left. by rewrite lookup_insert_ne.
    + exists hp, pts, (remove_first secret pts).
      rewrite lookup_insert_eq. do 5 (split; [done|]). by left.
  - apply find_largest_general_position_subset_Ok in Hsub
      as (pts1 & pts2 & Hl1 & Hp2 & Hh2 & Hsubset).
    unfold select_heap in Hl1, Hh2. simpl in Hl1, Hh2.
    rewrite lookup_insert_eq in Hl1. injection Hl1 as <-.
    rewrite insert_insert_eq in Hh2.
    assert (secret ∉ pts2) as Hsec2 by (by rewrite Hp2).
    destruct H as [(Hrk & -> & ->)|(Hrk & H)].
    + rewrite Hh2. split.
      * intros l. destruct (decide (l = hp)) as [->|Hne].
        -- right. split; [done|]. exists pts, pts2. by rewrite lookup_insert_eq.
        -- left. by rewrite lookup_insert_ne.
      * exists hp, pts, pts2. rewrite lookup_insert_eq.
        do 5 (split; [done|]). right. split; [done|]. by exists subset.
    + apply IH in H as [Hall (hp' & pts' & pts'' & Hin' & Hh' & Hh'' & Hp' & Hsec' & Hr)].
      * split.
        -- intros l. destruct (Hall l) as [Heq|(Hl & p1 & p2 & Hp1 & Hp2' & Hperm)].
           ++ rewrite Heq, Hh2. destruct (decide (l = hp)) as [->|Hne].
              ** right. split; [done|]. exists pts, pts2. by rewrite lookup_insert_eq.
              ** left. by rewrite lookup_insert_ne.
           ++ right. split; [done|]. rewrite Hh2 in Hp1.
              destruct (decide (l = hp)) as [->|Hne].
              ** rewrite lookup_insert_eq in Hp1. injection Hp1 as <-.
                 exists pts, p2. do 2 (split; [done|]).
                 rewrite remove_first_notin in Hperm by done. by rewrite Hperm.
              ** rewrite lookup_insert_ne in Hp1 by done. by exists p1, p2.
        -- rewrite Hh2 in Hh'. destruct (decide (hp' = hp)) as [->|Hne].
           ++ rewrite lookup_insert_eq in Hh'. injection Hh' as <-.
              exists hp, pts, pts''. do 3 (split; [done|]). split; [|done].
              rewrite remove_first_notin in Hp' by done. by rewrite Hp'.
           ++ rewrite lookup_insert_ne in Hh' by done. by exists hp', pts', pts''.
      * intros l p Hl. rewrite Hh2. destruct (decide (l = hp)) as [->|Hne].
        -- rewrite lookup_insert_eq. intros [= <-]. by rewrite Hp2.
        -- rewrite lookup_insert_ne by done. by apply Hnd.
Qed.

(** ** The candidate mapping *)

Lemma load_Ok l s v s' : load l s = Ok (v, s') ↔ heap s !! l = Some v ∧ s' = s.
Proof.
  unfold load. destruct (heap s !! l); split; try done.
  - by intros [= -> ->].
  - by intros [[= ->] ->].
  - by intros [? _].
Qed.

(** The references collected for a line point are references of the
    dictionary of hyperplanes, to lists that hold the point and not the
    whole line; the heap is only read. *)
Lemma touching_hyperplanes_Ok pt secret_line items s ls s' :
  touching_hyperplanes pt secret_line items s = Ok (ls, s') →
  s' = s ∧
  ∀ l, l ∈ ls →
    ∃ id pts, (id, l) ∈ items ∧ heap s !! l = Some pts ∧ pt ∈ pts ∧
              ¬ ∀ p, p ∈ secret_line → p ∈ pts.
Proof.
  revert ls s'. induction items as [|[id plane] items IH]; intros ls s'; simpl.
  - intros [= <- <-]. split; [done|]. by intros l ?%elem_of_nil.
  - intros H. apply M_bind_Ok in H as (pts & s1 & Hpts & H).
    apply load_Ok in Hpts as [Hpts ->].
    apply M_bind_Ok in H as (others & s1 & Ho & H).
    apply IH in Ho as [-> Ho]. injection H as <- <-. split; [done|].
    assert (∀ l, l ∈ others →
              ∃ id0 pts0, (id0, l) ∈ (id, plane) :: items ∧
                          heap s !! l = Some pts0 ∧ pt ∈ pts0 ∧
                          ¬ ∀ p, p ∈ secret_line → p ∈ pts0) as Ho'.
    { intros l Hl. destruct (Ho l Hl) as (id0 & pts0 & ? & ?).
      exists id0, pts0. split; [by right|done]. }
    destruct (point_in_plane pt pts && negb (line_in_plane secret_line pts))
      eqn:Hc; [|done].
    apply andb_true_iff in Hc as [Hin Hline].
    intros l [->|Hl]%elem_of_cons; [|by apply Ho'].
    exists id, pts. split; [by left|]. split; [done|].
    unfold point_in_plane in Hin. apply bool_decide_eq_true in Hin.
    split; [done|]. intros Hall. apply negb_true_iff in Hline.
    assert (line_in_plane secret_line pts = true) as Ht; [|congruence].
    unfold line_in_plane. apply forallb_forall. intros p Hp.
    unfold point_in_plane. apply bool_decide_eq_true, Hall.
    by apply list_elem_of_In.
Qed.

Lemma find_hyperplanes_loop_Ok hyperplanes secret_line todo result s m s' :
  find_hyperplanes_loop hyperplanes secret_line todo result s = Ok (m, s') →
  s' = s ∧
  ∀ k ls, m !! k = Some ls →
    result !! k = Some ls
    ∨ k ∈ todo ∧ touching_hyperplanes k secret_line hyperplanes s = Ok (ls, s).
Proof.
  revert result. induction todo as [|pt todo IH]; intros result; simpl.
  - intros [= <- <-]. split; [done|]. intros k ls ?. by left.
  - intros H. apply M_bind_Ok in H as (planes & s1 & Hp & H).
    pose proof (touching_hyperplanes_Ok _ _ _ _ _ _ Hp) as [-> _].
    apply IH in H as [-> H]. split; [done|]. intros k ls Hk.
    destruct (H k ls Hk) as [Hr|[Hin Ht]].
    + destruct (decide (pt = k)) as [->|Hne].
      * rewrite lookup_insert_eq in Hr. injection Hr as <-.
        right. split; [by left|done].
      * rewrite lookup_insert_ne in Hr by done. by left.
    + right. split; [by right|done].
Qed.

Lemma find_hyperplanes_for_secret_line_Ok hyperplanes secret_line s m s' :
  find_hyperplanes_for_secret_line hyperplanes secret_line s = Ok (m, s') →
  s' = s ∧
  ∀ k ls l, m !! k = Some ls → l ∈ ls →
    k ∈ secret_line ∧
    ∃ id pts, (id, l) ∈ hyperplanes ∧ heap s !! l = Some pts ∧ k ∈ pts ∧
              ¬ ∀ p, p ∈ secret_line → p ∈ pts.
Proof.
  unfold find_hyperplanes_for_secret_line. intros H.
  apply find_hyperplanes_loop_Ok in H as [-> H]. split; [done|].
  intros k ls l Hk Hl. destruct (H k ls Hk) as [Hr|[Hin Ht]].
  - by rewrite lookup_empty in Hr.
  - split; [done|]. apply touching_hyperplanes_Ok in Ht as [_ Ht]. by apply Ht.
Qed.

(** ** Linear algebra over the field *)

Lemma dot_cons q x y (u v : list Z) :
  dot q (x :: u) (y :: v) = GF.add q (GF.mul q x y) (dot q u v).
Proof. reflexivity. Qed.

Lemma find_pivot_None rows :
  find_pivot rows = None → ∀ r, r ∈ rows → hd 0 r = 0.
Proof.
  induction rows as [|r rows IH]; simpl.
  { intros _ r Hr. by apply elem_of_nil in Hr. }
  case_bool_decide as Hr; [done|].
  destruct (find_pivot rows) as [[p o]|] eqn:Hf; [done|]. intros _ r' Hr'.
  apply elem_of_cons in Hr' as [->|Hr']; [|by apply IH].
  exact Hr.
Qed.

Lemma find_pivot_Some rows p others :
  find_pivot rows = Some (p, others) →
  hd 0 p ≠ 0 ∧ p ∈ rows ∧ (∀ r, r ∈ others → r ∈ rows) ∧
  length rows = S (length others).
Proof.
  revert others. induction rows as [|r rows IH]; intros others; simpl; [done|].
  case_bool_decide as Hr.
  - intros [= -> ->]. split; [done|]. split; [by left|]. split; [|done].
    intros r ?. by right.
  - destruct (find_pivot rows) as [[p' o]|]; [|done]. intros [= -> <-].
    destruct (IH o eq_refl) as (Hp & Hin & Ho & Hlen).
    split; [done|]. split; [by right|]. split; [|simpl; lia].
    intros r' [->|?]%elem_of_cons; [by left|right; by apply Ho].
Qed.

Lemma rank_cols_le_cols q n rows : (rank_cols q n rows ≤ n)%nat.
Proof.
  revert rows. induction n as [|n IH]; intros rows; simpl; [lia|].
  destruct (find_pivot rows) as [[p o]|].
  - pose proof (IH (map (fun r => tail (row_sub q (GF.mul q (hd 0 r) (GF.inv q (hd 0 p))) r p)) o)).
    lia.
  - pose proof (IH (map tail rows)). lia.
Qed.

Lemma rank_cols_le_rows q n rows : (rank_cols q n rows ≤ length rows)%nat.
Proof.
  revert rows. induction n as [|n IH]; intros rows; simpl; [lia|].
  destruct (find_pivot rows) as [[p o]|] eqn:Hp.
  - apply find_pivot_Some in Hp as (_ & _ & _ & ->).
    pose proof (IH (map (fun r => tail (row_sub q (GF.mul q (hd 0 r) (GF.inv q (hd 0 p))) r p)) o))
      as H.
    rewrite length_map in H. lia.
  - pose proof (IH (map tail rows)) as H. rewrite length_map in H. lia.
Qed.

Lemma span_length q n rows v :
  (∀ r, r ∈ rows → length r = n) → span q n rows v → length v = n.
Proof.
  intros Hrows. induction 1 as [|r Hr|u v _ IHu _ IHv|k u _ IH].
  - apply length_replicate.
  - by apply Hrows.
  - unfold vadd. rewrite length_zip_with. lia.
  - by rewrite length_map.
Qed.

Lemma span_mono q n rows rows' v :
  (∀ r, r ∈ rows → span q n rows' r) → span q n rows v → span q n rows' v.
Proof.
  intros Hrows. induction 1 as [|r Hr|u v _ IHu _ IHv|k u _ IH].
  - apply span_zero.
  - by apply Hrows.
  - by apply span_add.
  - by apply span_scale.
Qed.

(** A vector in the span of rows that all begin with 0, from a vector in
    the span of their tails. *)
Lemma span_lift q n rows rows' v :
  (∀ r, r ∈ rows' → span q (S n) rows (0 :: r)) →
  span q n rows' v → span q (S n) rows (0 :: v).
Proof.
  intros Hrows. induction 1 as [|r Hr|u v _ IHu _ IHv|k u _ IH].
  - apply (span_zero q (S n)).
  - by apply Hrows.
  - pose proof (span_add q (S n) rows _ _ IHu IHv) as H.
    unfold vadd in H. simpl in H. unfold GF.add at 1 in H. by rewrite Zmod_0_l in H.
  - pose proof (span_scale q (S n) rows k _ IH) as H. simpl in H.
    unfold GF.mul at 1 in H. by rewrite Z.mul_0_r, Zmod_0_l in H.
Qed.

Lemma dot_nil_l q v : dot q [] v = 0.
Proof. reflexivity. Qed.

Lemma dot_nil_r q u : dot q u [] = 0.
Proof. by destruct u. Qed.

Lemma vadd_cons q x y u v : vadd q (x :: u) (y :: v) = GF.add q x y :: vadd q u v.
Proof. reflexivity. Qed.

Lemma row_sub_cons q c x y r p :
  row_sub q c (x :: r) (y :: p) = (x - c * y) mod q :: row_sub q c r p.
Proof. reflexivity. Qed.

Lemma combine_points_cons q z a x y p1 p2 :
  combine_points q z a (x :: p1) (y :: p2)
  = GF.add q (GF.mul q z x) (GF.mul q a y) :: combine_points q z a p1 p2.
Proof. reflexivity. Qed.

Section LinearAlgebra.
Variable q : Z.
Hypothesis Hq : Z.prime q.

Lemma dot_range u v : 0 ≤ dot q u v < q.
Proof.
  pose proof (order_gt_1 q Hq).
  destruct u as [|x u], v as [|y v];
    rewrite ?dot_nil_l, ?dot_nil_r, ?dot_cons; try lia.
  apply mod_range, Hq.
Qed.

Lemma dot_zero_r u v : Forall (fun x => x = 0) v → dot q u v = 0.
Proof.
  intros Hv. revert u. induction Hv as [|y v -> _ IH]; intros [|x u];
    rewrite ?dot_nil_l, ?dot_nil_r; try done.
  rewrite dot_cons, IH. unfold GF.add, GF.mul. by rewrite Z.mul_0_r.
Qed.

Lemma dot_zero_l u v : Forall (fun x => x = 0) u → dot q u v = 0.
Proof.
  intros Hu. revert v. induction Hu as [|x u -> _ IH]; intros [|y v];
    rewrite ?dot_nil_l, ?dot_nil_r; try done.
  rewrite dot_cons, IH. unfold GF.add, GF.mul. by rewrite Z.mul_0_l.
Qed.

Lemma dot_scale_r k u v :
  dot q u (map (GF.mul q k) v) = (k * dot q u v) mod q.
Proof.
  pose proof (order_gt_1 q Hq).
  revert v. induction u as [|x u IH]; intros [|y v]; cbn [map];
    rewrite ?dot_nil_l, ?dot_nil_r, ?Z.mul_0_r, ?Z.mod_0_l by lia; try done.
  rewrite !dot_cons, IH. unfold GF.add, GF.mul. eqm_ring q.
Qed.

Lemma dot_of_Z u v : dot q u (map (GF.of_Z q) v) = dot q u v.
Proof.
  revert v. induction u as [|x u IH]; intros [|y v]; cbn [map];
    rewrite ?dot_nil_l, ?dot_nil_r; try done.
  rewrite !dot_cons, IH. unfold GF.add, GF.mul, GF.of_Z. eqm_ring q.
Qed.

Lemma dot_vadd u a b :
  length a = length b →
  dot q u (vadd q a b) = (dot q u a + dot q u b) mod q.
Proof.
  pose proof (order_gt_1 q Hq).
  revert a b. induction u as [|x u IH]; intros [|y a] [|z b] Hlen;
    simplify_eq/=; rewrite ?vadd_cons, ?dot_nil_l, ?dot_nil_r, ?Z.mod_0_l by lia;
    try done.
  rewrite !dot_cons, IH by done. unfold GF.add, GF.mul. eqm_ring q.
Qed.

Lemma dot_row_sub c u r p :
  length r = length p →
  dot q u (row_sub q c r p) = (dot q u r - c * dot q u p) mod q.
Proof.
  pose proof (order_gt_1 q Hq).
  revert r p. induction u as [|x u IH]; intros [|y r] [|z p] Hlen;
    simplify_eq/=;
    rewrite ?row_sub_cons, ?dot_nil_l, ?dot_nil_r, ?Z.mul_0_r, ?Z.mod_0_l by lia;
    try done.
  rewrite !dot_cons, IH by done. unfold GF.add, GF.mul. eqm_ring q.
Qed.

Lemma dot_combine_points u z a p1 p2 :
  length p1 = length p2 →
  dot q u (combine_points q z a p1 p2)
  = (z * dot q u p1 + a * dot q u p2) mod q.
Proof.
  pose proof (order_gt_1 q Hq).
  revert p1 p2. induction u as [|x u IH]; intros [|y p1] [|y' p2] Hlen;
    simplify_eq/=;
    rewrite ?combine_points_cons, ?dot_nil_l, ?dot_nil_r, ?Z.mul_0_r, ?Z.mod_0_l
      by lia; try done.
  rewrite !dot_cons, IH by done. unfold GF.add, GF.mul. eqm_ring q.
Qed.

(** A vector orthogonal to the rows is orthogonal to their span. *)
Lemma dot_span n u rows v :
  (∀ r, r ∈ rows → length r = n) →
  (∀ r, r ∈ rows → dot q u r = 0) → span q n rows v → dot q u v = 0.
Proof.
  pose proof (order_gt_1 q Hq).
  intros Hlen Hrows. induction 1 as [|r Hr|a b Ha IHa Hb IHb|k a _ IH].
  - apply dot_zero_r, Forall_replicate. done.
  - by apply Hrows.
  - rewrite dot_vadd, IHa, IHb; [by rewrite Z.mod_0_l by lia|].
    by rewrite (span_length q n rows a), (span_length q n rows b).
  - rewrite dot_scale_r, IH, Z.mul_0_r, Z.mod_0_l by lia. done.
Qed.

(** A vector that is not zero is not orthogonal to everything. *)
Lemma dot_nonzero_witness n u :
  is_vector q n u → ¬ Forall (fun x => x = 0) u →
  ∃ v, is_vector q n v ∧ dot q u v ≠ 0.
Proof.
  pose proof (order_gt_1 q Hq).
  revert n. induction u as [|x u IH]; intros n [Hlen Hred] Hnz.
  - destruct Hnz. constructor.
  - apply Forall_cons in Hred as [Hx Hred]. destruct n as [|n]; [done|].
    destruct (decide (x = 0)) as [->|Hx0].
    + destruct (IH n) as (v & [Hv1 Hv2] & Hv).
      * split; [by injection Hlen|done].
      * intros H0. apply Hnz. by constructor.
      * exists (0 :: v). split; [split; [simpl; lia|constructor; [lia|done]]|].
        rewrite dot_cons. unfold GF.add, GF.mul.
        rewrite Z.mul_0_l, Z.mod_0_l, Z.add_0_l, Z.mod_small by lia || apply dot_range.
        done.
    + exists (1 :: replicate n 0). split.
      * split; [simpl; by rewrite length_replicate|].
        constructor; [lia|]. apply Forall_replicate. lia.
      * rewrite dot_cons, dot_zero_r by (by apply Forall_replicate).
        unfold GF.add, GF.mul. rewrite Z.mul_1_r, Z.add_0_r, Z.mod_mod, Z.mod_small by lia.
        done.
Qed.

End LinearAlgebra.

(** ** What the rank says about the span *)

Lemma row_sub_vadd q c r p :
  row_sub q c r p = vadd q r (map (GF.mul q (- c)) p).
Proof.
  revert p. induction r as [|x r IH]; intros [|y p]; try done.
  cbn [map]. rewrite row_sub_cons, vadd_cons, IH. f_equal.
  unfold GF.add, GF.mul. eqm_ring q.
Qed.

Lemma row_sub_span q n rows c r p :
  span q n rows r → span q n rows p → span q n rows (row_sub q c r p).
Proof.
  intros Hr Hp. rewrite row_sub_vadd. apply span_add; [done|].
  by apply span_scale.
Qed.

Lemma is_vector_cons_inv q n v :
  is_vector q (S n) v → ∃ x v', v = x :: v' ∧ 0 ≤ x < q ∧ is_vector q n v'.
Proof.
  intros [Hlen Hred]. destruct v as [|x v']; [done|].
  apply Forall_cons in Hred as [Hx Hred]. exists x, v'.
  split; [done|]. split; [done|]. split; [by injection Hlen|done].
Qed.

Section Rank.
Variable q : Z.
Hypothesis Hq : Z.prime q.

Lemma row_sub_is_vector n c r p :
  length r = n → length p = n → is_vector q n (row_sub q c r p).
Proof.
  intros Hr Hp. split.
  - unfold row_sub. rewrite length_zip_with. lia.
  - clear Hr Hp. unfold row_sub. revert p. induction r as [|x r IH]; intros [|y p];
      simpl; constructor; [apply mod_range, Hq|]. apply IH.
Qed.

(** Subtracting the right multiple of the pivot row clears the first
    entry. *)
Lemma row_sub_pivot n x r y p :
  0 ≤ x < q → y mod q ≠ 0 → length r = n → length p = n →
  ∃ r', row_sub q (GF.mul q x (GF.inv q y)) (x :: r) (y :: p) = 0 :: r'
        ∧ is_vector q n r'.
Proof.
  intros Hx Hy Hr Hp. rewrite row_sub_cons. eexists. split.
  - f_equal. pose proof (inv_mul q Hq y Hy) as Hi. unfold GF.mul.
    transitivity ((x - x * ((GF.inv q y * y) mod q)) mod q); [eqm_ring q|].
    rewrite Hi, Z.mul_1_r, Z.sub_diag. apply Zmod_0_l.
  - by apply row_sub_is_vector.
Qed.

(** A vector is what is left of it after the subtraction, plus the
    multiple subtracted. *)
Lemma row_sub_restore c v p :
  Forall (fun x => 0 ≤ x < q) v → length v = length p →
  v = vadd q (row_sub q c v p) (map (GF.mul q c) p).
Proof.
  intros Hv. revert p. induction Hv as [|x v Hx _ IH]; intros [|y p] Hlen;
    try done.
  injection Hlen as Hlen. cbn [map].
  rewrite row_sub_cons, vadd_cons, <- IH by done. f_equal.
  rewrite <- (Z.mod_small x q) at 1 by done. unfold GF.add, GF.mul. eqm_ring q.
Qed.

Variable n : nat.
Variables (rows : list (list Z)) (p : list Z) (others : list (list Z)).
Hypothesis Hrows : ∀ r, r ∈ rows → is_vector q (S n) r.
Hypothesis Hpivot : find_pivot rows = Some (p, others).

(** The rows that the elimination goes on with. *)
Let rows' : list (list Z) :=
  map (fun r => tail (row_sub q (GF.mul q (hd 0 r) (GF.inv q (hd 0 p))) r p))
      others.

Lemma pivot_row : ∃ y p', p = y :: p' ∧ y mod q ≠ 0 ∧ is_vector q n p'.
Proof.
  apply find_pivot_Some in Hpivot as (Hy & Hin & _).
  destruct (is_vector_cons_inv q n p (Hrows p Hin)) as (y & p' & -> & Hyr & Hp').
  exists y, p'. split; [done|]. split; [|done]. simpl in Hy.
  rewrite Z.mod_small by done. done.
Qed.

Lemma eliminated_rows r' :
  r' ∈ rows' → is_vector q n r' ∧ span q (S n) rows (0 :: r').
Proof.
  destruct pivot_row as (y & p' & Hp & Hy & [Hp'l Hp'r]).
  pose proof Hpivot as Hf. apply find_pivot_Some in Hf as (_ & Hin & Ho & _).
  unfold rows'. intros (r & -> & Hr)%list_elem_of_fmap.
  destruct (is_vector_cons_inv q n r (Hrows r (Ho r Hr)))
    as (x & r1 & -> & Hx & [Hr1l Hr1r]).
  subst p. simpl hd.
  destruct (row_sub_pivot n x r1 y p' Hx Hy Hr1l Hp'l) as (r' & Heq & Hr').
  pose proof (row_sub_span q (S n) rows (GF.mul q x (GF.inv q y))
                (x :: r1) (y :: p')) as Hs.
  rewrite Heq in Hs |- *. simpl. split; [done|].
  apply Hs; apply span_row; [by apply Ho|done].
Qed.

Lemma eliminated_vector v :
  is_vector q (S n) v →
  ∃ v', is_vector q n v' ∧
        (span q (S n) rows (0 :: v') → span q (S n) rows v) ∧
        ∀ u, length u = S n → dot q u p = 0 → dot q u (0 :: v') = dot q u v.
Proof.
  intros Hv. destruct pivot_row as (y & p' & Hp & Hy & [Hp'l Hp'r]).
  pose proof Hpivot as Hf. apply find_pivot_Some in Hf as (_ & Hin & _).
  destruct (is_vector_cons_inv q n v Hv) as (x & v1 & -> & Hx & [Hv1l Hv1r]).
  subst p.
  destruct (row_sub_pivot n x v1 y p' Hx Hy Hv1l Hp'l) as (v' & Heq & Hv').
  exists v'. split; [done|]. split.
  - intros Hs. rewrite (row_sub_restore (GF.mul q x (GF.inv q y)) (x :: v1) (y :: p'))
      by (by constructor || (simpl; lia)).
    rewrite Heq. apply span_add; [done|]. apply span_scale. by apply span_row.
  - intros u Hu Hup. rewrite <- Heq, dot_row_sub, Hup, Z.mul_0_r, Z.sub_0_r
      by (done || simpl; lia).
    apply Z.mod_small, dot_range, Hq.
Qed.

End Rank.

Section Span.
Variable q : Z.
Hypothesis Hq : Z.prime q.

(** Rows of full rank span every vector. *)
Lemma full_rank_span n rows v :
  (∀ r, r ∈ rows → is_vector q n r) → (n ≤ rank_cols q n rows)%nat →
  is_vector q n v → span q n rows v.
Proof.
  revert rows v. induction n as [|n IH]; intros rows v Hrows Hrk Hv.
  - destruct Hv as [Hlen _]. destruct v; [|done]. apply (span_zero q 0).
  - simpl in Hrk. destruct (find_pivot rows) as [[p others]|] eqn:Hp.
    + destruct (eliminated_vector q Hq n rows p others Hrows Hp v Hv)
        as (v' & Hv' & Hback & _).
      set (rows' := map (fun r => tail (row_sub q (GF.mul q (hd 0 r)
                                                    (GF.inv q (hd 0 p))) r p))
                        others) in *.
      apply Hback. apply (span_lift q n rows rows'); [|apply (IH rows' v'); [|lia|done]].
      * intros r' Hr'. by apply (eliminated_rows q Hq n rows p others).
      * intros r' Hr'. by apply (eliminated_rows q Hq n rows p others).
    + pose proof (rank_cols_le_cols q n (map tail rows)). lia.
Qed.

(** Rows orthogonal to a non-zero vector, of rank one less than their
    length, span every vector orthogonal to it. *)
Lemma hyperplane_rank_span n rows pole v :
  (∀ r, r ∈ rows → is_vector q n r) → is_vector q n pole →
  ¬ Forall (fun x => x = 0) pole →
  (∀ r, r ∈ rows → dot q pole r = 0) →
  (n ≤ S (rank_cols q n rows))%nat →
  is_vector q n v → dot q pole v = 0 → span q n rows v.
Proof.
  pose proof (order_gt_1 q Hq) as Hq1.
  revert rows pole v. induction n as [|n IH];
    intros rows pole v Hrows Hpole Hnz Horth Hrk Hv Hpv.
  - destruct Hpole as [Hlen _]. destruct pole; [|done]. destruct Hnz. constructor.
  - destruct (is_vector_cons_inv q n pole Hpole) as (P0 & P' & -> & HP0 & HP').
    simpl in Hrk. destruct (find_pivot rows) as [[p others]|] eqn:Hp.
    + destruct (eliminated_vector q Hq n rows p others Hrows Hp v Hv)
        as (v' & Hv' & Hback & Hdot).
      pose proof Hp as Hf. apply find_pivot_Some in Hf as (_ & Hin & _).
      set (rows' := map (fun r => tail (row_sub q (GF.mul q (hd 0 r)
                                                    (GF.inv q (hd 0 p))) r p))
                        others) in *.
      apply Hback.
      destruct (decide (Forall (fun x => x = 0) P')) as [HP'0|HP'nz].
      * exfalso. destruct (pivot_row q n rows p others Hrows Hp)
          as (y & p' & -> & Hy & _).
        pose proof (Horth _ Hin) as H0. rewrite dot_cons in H0.
        rewrite (dot_zero_l q P' p' HP'0) in H0. unfold GF.add, GF.mul in H0.
        rewrite Z.add_0_r, Z.mod_mod in H0 by lia.
        apply (mul_mod_eq_0 q Hq) in H0 as [H0|H0]; [|done].
        rewrite Z.mod_small in H0 by done. subst P0. apply Hnz. by constructor.
      * apply (span_lift q n rows rows');
          [intros r' Hr'; by apply (eliminated_rows q Hq n rows p others)|].
        apply (IH rows' P' v'); try done.
        -- intros r' Hr'. by apply (eliminated_rows q Hq n rows p others).
        -- intros r' Hr'.
           destruct (eliminated_rows q Hq n rows p others Hrows Hp r' Hr')
             as [[Hl _] Hs].
           pose proof (dot_span q Hq (S n) (P0 :: P') rows (0 :: r')) as Hd.
           rewrite dot_cons in Hd. unfold GF.add, GF.mul in Hd.
           rewrite Z.mul_0_r, Z.mod_0_l, Z.add_0_l, Z.mod_small in Hd
             by (lia || apply dot_range, Hq).
           apply Hd; [intros r ?; by apply Hrows|done..].
        -- lia.
        -- specialize (Hdot (P0 :: P')). rewrite Hpv, dot_cons in Hdot.
           unfold GF.add, GF.mul in Hdot.
           rewrite Z.mul_0_r, Z.mod_0_l, Z.add_0_l, Z.mod_small in Hdot
             by (lia || apply dot_range, Hq).
           apply Hdot; [by destruct Hpole|by apply Horth].
    + pose proof (find_pivot_None rows Hp) as Hhd.
      assert (∀ r', r' ∈ map tail rows →
                    is_vector q n r' ∧ (0 :: r') ∈ rows) as Htl.
      { intros r' (r & -> & Hr)%list_elem_of_fmap.
        destruct (is_vector_cons_inv q n r (Hrows r Hr)) as (x & r1 & -> & _ & Hr1).
        specialize (Hhd _ Hr). simpl in Hhd. subst x. done. }
      assert (∀ u, is_vector q n u → span q n (map tail rows) u) as Hfull.
      { intros u Hu. apply full_rank_span; [|lia|done].
        intros r' Hr'. by apply Htl. }
      assert (Forall (fun x => x = 0) P') as HP'0.
      { destruct (decide (Forall (fun x => x = 0) P')) as [|HP'nz]; [done|].
        exfalso.
        destruct (dot_nonzero_witness q Hq n P' HP' HP'nz) as (u & Hu & Hdu).
        apply Hdu. apply (dot_span q Hq n P' (map tail rows) u); [| |by apply Hfull].
        - intros r' Hr'. by apply Htl.
        - intros r' Hr'. destruct (Htl r' Hr') as [_ Hin].
          pose proof (Horth _ Hin) as H0. rewrite dot_cons in H0.
          unfold GF.add, GF.mul in H0.
          rewrite Z.mul_0_r, Z.mod_0_l, Z.add_0_l, Z.mod_small in H0
            by (lia || apply dot_range, Hq).
          done. }
      destruct (is_vector_cons_inv q n v Hv) as (x & v1 & -> & Hx & Hv1).
      assert (x = 0) as ->.
      { rewrite dot_cons, (dot_zero_l q P' v1 HP'0) in Hpv.
        unfold GF.add, GF.mul in Hpv. rewrite Z.add_0_r, Z.mod_mod in Hpv by lia.
        apply (mul_mod_eq_0 q Hq) in Hpv as [H0|H0].
        - rewrite Z.mod_small in H0 by done. subst P0. destruct Hnz. by constructor.
        - by rewrite Z.mod_small in H0. }
      apply (span_lift q n rows (map tail rows)); [|by apply Hfull].
      intros r' Hr'. apply span_row. by apply Htl.
Qed.

End Span.

(** ** The span of points inside a closed list *)

Lemma vadd_scale_combine q a b p1 p2 :
  vadd q (map (GF.mul q a) p1) (map (GF.mul q b) p2) = combine_points q a b p1 p2.
Proof.
  revert p2. induction p1 as [|x p1 IH]; intros [|y p2]; try done.
  cbn [map]. by rewrite vadd_cons, combine_points_cons, IH.
Qed.

Section SpanClosed.
Variable P : ProjectiveSpace.
Hypothesis Hq : Z.prime (order P).

Let q := order P.
Let n := S (dimension P).

Lemma is_point_is_vector p : is_point P p → is_vector q n p.
Proof. by intros (? & ? & _). Qed.

Lemma is_point_nonzero p : is_point P p → ¬ Forall (fun x => x = 0) p.
Proof. intros (_ & _ & Hl) H0. apply last_nonzero_None in H0. congruence. Qed.

Lemma vadd_zero_l u v :
  Forall (fun x => x = 0) u → length u = length v →
  Forall (fun x => 0 ≤ x < q) v → vadd q u v = v.
Proof.
  intros Hu. revert v. induction Hu as [|x u -> _ IH]; intros [|y v] Hlen Hv;
    try done.
  apply Forall_cons in Hv as [Hy Hv]. injection Hlen as Hlen.
  rewrite vadd_cons, IH by done. f_equal. unfold GF.add.
  by rewrite Z.add_0_l, Z.mod_small.
Qed.

Lemma vadd_zero_r u v :
  Forall (fun x => x = 0) v → length u = length v →
  Forall (fun x => 0 ≤ x < q) u → vadd q u v = u.
Proof.
  intros Hv. revert u. induction Hv as [|y v -> _ IH]; intros [|x u] Hlen Hu;
    try done.
  apply Forall_cons in Hu as [Hx Hu]. injection Hlen as Hlen.
  rewrite vadd_cons, IH by done. f_equal. unfold GF.add.
  by rewrite Z.add_0_r, Z.mod_small.
Qed.

Lemma vadd_scale_same a b p :
  vadd q (map (GF.mul q a) p) (map (GF.mul q b) p) = map (GF.mul q (a + b)) p.
Proof.
  induction p as [|x p IH]; [done|]. cbn [map]. rewrite vadd_cons, IH. f_equal.
  unfold GF.add, GF.mul. eqm_ring q.
Qed.

Lemma scale_zero k v : k mod q = 0 → Forall (fun x => x = 0) (map (GF.mul q k) v).
Proof.
  intros Hk. apply Forall_map, Forall_true. intros x. unfold GF.mul.
  rewrite <- Z.mul_mod_idemp_l, Hk by (pose proof (order_gt_1 q Hq); lia).
  apply Zmod_0_l.
Qed.

Lemma scale_of_zero k v :
  Forall (fun x => x = 0) v → Forall (fun x => x = 0) (map (GF.mul q k) v).
Proof.
  intros Hv. apply Forall_map. eapply Forall_impl; [exact Hv|].
  intros x ->. unfold GF.mul. rewrite Z.mul_0_r. apply Zmod_0_l.
Qed.

Lemma span_is_vector rows v :
  (∀ r, r ∈ rows → is_vector q n r) → span q n rows v → is_vector q n v.
Proof.
  intros Hrows Hs. split; [eapply span_length; [|done]; intros r ?; by apply Hrows|].
  induction Hs as [|r Hr|a b _ _ _ _|k a _ _].
  - apply Forall_replicate. pose proof (order_gt_1 q Hq). lia.
  - by apply Hrows.
  - unfold vadd. generalize b. induction a as [|x a IH]; intros [|y b'];
      simpl; constructor; [apply mod_range, Hq|apply IH].
  - apply (scale_reduced P Hq).
Qed.

Variable l : list point.
Hypothesis Hclosed : closed P l.
Hypothesis Hpoints : Forall (is_point P) l.

(** A closed list of points holds the normal form of every vector,
    other than zero, of the span of any of its points. *)
Lemma span_closed rows v :
  (∀ r, r ∈ rows → r ∈ l) → span q n rows v →
  Forall (fun x => x = 0) v ∨ ∃ p, projective_space P v = Ok p ∧ p ∈ l.
Proof.
  pose proof (order_gt_1 q Hq) as Hq1.
  intros Hrows.
  assert (∀ r, r ∈ rows → is_vector q n r) as Hvec.
  { intros r Hr. apply is_point_is_vector.
    rewrite Forall_forall in Hpoints. by apply Hpoints, Hrows. }
  induction 1 as [|r Hr|a b Ha IHa Hb IHb|k a Ha IH].
  - left. by apply Forall_replicate.
  - right. exists r. split; [|by apply Hrows].
    apply projective_space_point; [done|].
    rewrite Forall_forall in Hpoints. by apply Hpoints, Hrows.
  - destruct (span_is_vector rows a Hvec Ha) as [Hla Hra].
    destruct (span_is_vector rows b Hvec Hb) as [Hlb Hrb].
    destruct IHa as [Ha0|(pa & Hpa & Hina)].
    { rewrite vadd_zero_l by (done || lia). done. }
    destruct IHb as [Hb0|(pb & Hpb & Hinb)].
    { rewrite vadd_zero_r by (done || lia). right. by exists pa. }
    pose proof (projective_space_is_point P Hq _ _ Hpa) as Hpta.
    pose proof (projective_space_is_point P Hq _ _ Hpb) as Hptb.
    apply (projective_space_multiple P Hq) in Hpa as (ka & Hka & Hea);
      [|done].
    apply (projective_space_multiple P Hq) in Hpb as (kb & Hkb & Heb);
      [|done].
    fold q in Hea, Heb, Hka, Hkb.
    rewrite (of_Z_reduced P) in Hea, Heb by done. subst a b.
    destruct (decide (pa = pb)) as [->|Hne].
    + rewrite vadd_scale_same.
      destruct (decide ((ka + kb) mod q = 0)) as [H0|H0].
      * left. by apply scale_zero.
      * right. exists pb. split; [|done].
        rewrite (projective_space_scale P Hq)
          by (done || destruct Hptb as [-> _]; lia).
        by apply projective_space_point.
    + right. rewrite vadd_scale_combine.
      destruct (Hclosed pa pb Hina Hinb Hne) as (pts & Hpts & Hsub).
      destruct (points_on_line_spec P Hq pa pb Hpta Hptb Hne)
        as (pts' & Hpts' & _ & Hel).
      rewrite Hpts in Hpts'. injection Hpts' as <-.
      destruct (line_point_Ok P Hq pa pb Hpta Hptb Hne (ka mod q) (kb mod q))
        as [p Hp]; [right; by rewrite Z.mod_mod by lia|].
      exists p. split.
      * unfold line_point in Hp. simpl in Hp. fold q in Hp.
        rewrite (of_Z_reduced P) in Hp
          by apply (combine_points_reduced P Hq).
        rewrite <- Hp. f_equal.
        apply (combine_points_mod P Hq); by rewrite Z.mod_mod by lia.
      * apply Hsub, Hel. exists (ka mod q, kb mod q). split; [|done].
        apply elem_of_line_coefficients.
        pose proof (mod_range q Hq ka). pose proof (mod_range q Hq kb).
        fold q. lia.
  - destruct IH as [Ha0|(pa & Hpa & Hina)]; [left; by apply scale_of_zero|].
    destruct (decide (k mod q = 0)) as [H0|H0]; [left; by apply scale_zero|].
    right. exists pa. split; [|done].
    destruct (span_is_vector rows a Hvec Ha) as [Hla _].
    rewrite (projective_space_scale P Hq); [done..|]. rewrite Hla. unfold n. lia.
Qed.

(** In particular it holds every point of that span. *)
Lemma span_closed_point rows p :
  (∀ r, r ∈ rows → r ∈ l) → span q n rows p → is_point P p → p ∈ l.
Proof.
  intros Hrows Hs Hp.
  destruct (span_closed rows p Hrows Hs) as [H0|(p' & Hp' & Hin)].
  - by apply is_point_nonzero in H0.
  - rewrite projective_space_point in Hp' by done. by injection Hp' as ->.
Qed.

End SpanClosed.

(** ** The rank of two points *)

Lemma row_sub_combine q c a b :
  row_sub q c b a = combine_points q (- c) 1 a b.
Proof.
  revert b. induction a as [|x a IH]; intros [|y b]; try done.
  rewrite row_sub_cons, combine_points_cons, IH. f_equal.
  unfold GF.add, GF.mul. eqm_ring q.
Qed.

Lemma row_sub_combine' q c a b :
  row_sub q c a b = combine_points q 1 (- c) a b.
Proof.
  revert b. induction a as [|x a IH]; intros [|y b]; try done.
  rewrite row_sub_cons, combine_points_cons, IH. f_equal.
  unfold GF.add, GF.mul. eqm_ring q.
Qed.

Lemma rank_cols_S q n rows :
  rank_cols q (S n) rows =
  match find_pivot rows with
  | None => rank_cols q n (map (@tail Z) rows)
  | Some (p, others) =>
      S (rank_cols q n
           (map (fun r => tail (row_sub q (GF.mul q (hd 0 r) (GF.inv q (hd 0 p))) r p))
                others))
  end.
Proof. reflexivity. Qed.

Section RankOfPoints.
Variable q : Z.
Hypothesis Hq : Z.prime q.

Lemma rank_cols_single n r :
  is_vector q n r → ¬ Forall (fun x => x = 0) r → (1 ≤ rank_cols q n [r])%nat.
Proof.
  revert r. induction n as [|n IH]; intros r Hr Hnz.
  - destruct Hr as [Hl _]. destruct r; [|done]. destruct Hnz. constructor.
  - destruct (is_vector_cons_inv q n r Hr) as (x & r' & -> & Hx & Hr').
    rewrite rank_cols_S. cbn [find_pivot hd]. case_bool_decide as Hx0; [lia|].
    cbn [map tail]. apply IH; [done|].
    intros H0. apply Hnz. constructor; [|done].
    destruct (decide (x = 0)); [done|]. by destruct Hx0.
Qed.

Lemma one_mod_nonzero : 1 mod q ≠ 0.
Proof. pose proof (order_gt_1 q Hq). rewrite Z.mod_small; lia. Qed.

(** Two linearly independent vectors have rank 2. *)
Lemma rank_cols_pair n a b :
  is_vector q n a → is_vector q n b →
  (∀ z c, Forall (fun x => x = 0) (combine_points q z c a b) →
          z mod q = 0 ∧ c mod q = 0) →
  (2 ≤ rank_cols q n [a; b])%nat.
Proof.
  pose proof (order_gt_1 q Hq) as Hq1.
  revert a b. induction n as [|n IH]; intros a b Ha Hb Hind.
  - destruct Ha as [Hla _], Hb as [Hlb _]. destruct a, b; try done.
    destruct (Hind 1 1) as [H1 _]; [constructor|]. by apply one_mod_nonzero in H1.
  - destruct (is_vector_cons_inv q n a Ha) as (a0 & a' & -> & Ha0 & Ha').
    destruct (is_vector_cons_inv q n b Hb) as (b0 & b' & -> & Hb0 & Hb').
    destruct Ha' as [Hla Hra], Hb' as [Hlb Hrb].
    rewrite rank_cols_S. cbn [find_pivot hd]. case_bool_decide as Hx.
    + cbn [map hd].
      destruct (row_sub_pivot q Hq n b0 b' a0 a') as (r' & Heq & Hr');
        [done|by rewrite Z.mod_small|done..|].
      rewrite Heq. cbn [tail].
      enough (1 ≤ rank_cols q n [r'])%nat by lia.
      apply rank_cols_single; [done|]. intros H0.
      rewrite row_sub_combine in Heq.
      destruct (Hind (- GF.mul q b0 (GF.inv q a0)) 1) as [_ H1].
      { rewrite Heq. by constructor. }
      by apply one_mod_nonzero in H1.
    + case_bool_decide as Hy.
      * cbn [map hd].
        destruct (row_sub_pivot q Hq n a0 a' b0 b') as (r' & Heq & Hr');
          [done|by rewrite Z.mod_small|done..|].
        rewrite Heq. cbn [tail].
        enough (1 ≤ rank_cols q n [r'])%nat by lia.
        apply rank_cols_single; [done|]. intros H0.
        rewrite row_sub_combine' in Heq.
        destruct (Hind 1 (- GF.mul q a0 (GF.inv q b0))) as [H1 _].
        { rewrite Heq. by constructor. }
        by apply one_mod_nonzero in H1.
      * cbn [map tail]. apply IH; [done..|]. intros z c H0. apply Hind.
        rewrite combine_points_cons. constructor; [|done].
        assert (a0 = 0) as -> by (destruct (decide (a0 = 0)); [done|by destruct Hx]).
        assert (b0 = 0) as -> by (destruct (decide (b0 = 0)); [done|by destruct Hy]).
        unfold GF.add, GF.mul. by rewrite !Z.mul_0_r.
Qed.

End RankOfPoints.

Section Kernel.
Variable P : ProjectiveSpace.
Hypothesis Hq : Z.prime (order P).

Let q := order P.
Let n := S (dimension P).

(** The rank that Sage computes for a list of points. *)
Lemma rank_points rows :
  rows ≠ [] → Forall (is_point P) rows → rank q rows = rank_cols q n rows.
Proof.
  intros Hne Hrows. unfold rank. f_equal.
  - destruct rows as [|r rows]; [done|]. apply Forall_cons in Hrows as [Hr _].
    by destruct Hr.
  - clear Hne. induction Hrows as [|r rows Hr _ IH]; [done|]. simpl.
    rewrite IH. f_equal. apply (of_Z_reduced P). by destruct Hr as (_ & ? & _).
Qed.

Lemma rank_pair a b :
  is_point P a → is_point P b → a ≠ b → (2 ≤ rank_cols q n [a; b])%nat.
Proof.
  intros Ha Hb Hne. apply (rank_cols_pair q Hq).
  - by apply is_point_is_vector.
  - by apply is_point_is_vector.
  - intros z c. by apply (points_independent P Hq).
Qed.

(** Normalisation keeps a vector orthogonal to what it was orthogonal to. *)
Lemma dot_projective_space u v p :
  length v = S (dimension P) →
  projective_space P v = Ok p → dot q u v = 0 → dot q u p = 0.
Proof.
  pose proof (order_gt_1 q Hq) as Hq1. intros Hlen.
  rewrite (projective_space_Ok P) by done. intros (c & _ & ->) H0. fold q.
  by rewrite (dot_scale_r q Hq), (dot_of_Z q), H0, Z.mul_0_r, Z.mod_0_l by lia.
Qed.

Lemma dot_line_point u p1 p2 z a p :
  length p1 = S (dimension P) → length p1 = length p2 →
  line_point P p1 p2 (z, a) = Ok p →
  dot q u p1 = 0 → dot q u p2 = 0 → dot q u p = 0.
Proof.
  pose proof (order_gt_1 q Hq) as Hq1.
  intros Hl1 Hlen Hp H1 H2. unfold line_point in Hp. simpl in Hp.
  apply (dot_projective_space u) in Hp; [done| |].
  { unfold combine_points. rewrite length_map, length_zip_with. lia. }
  fold q.
  rewrite (dot_of_Z q), (dot_combine_points q Hq) by done.
  by rewrite H1, H2, !Z.mul_0_r, Z.mod_0_l by lia.
Qed.

Variable pole : list Z.

Local Notation in_kernel := (in_kernel P pole).

Lemma line_in_kernel p1 p2 pts :
  in_kernel p1 → in_kernel p2 → p1 ≠ p2 →
  points_on_line p1 p2 P = Ok pts → Forall in_kernel pts.
Proof.
  intros [Hp1 Hd1] [Hp2 Hd2] Hne Hpts.
  destruct (points_on_line_spec P Hq p1 p2 Hp1 Hp2 Hne) as (pts' & Hpts' & _ & Hel).
  rewrite Hpts in Hpts'. injection Hpts' as <-.
  apply Forall_forall. intros p Hp. apply Hel in Hp as ([z a] & _ & Hp).
  split; [by apply projective_space_is_point in Hp|].
  eapply dot_line_point; [| |done..]; [by destruct Hp1 as [-> _]|].
  destruct Hp1 as [-> _]. by destruct Hp2 as [-> _].
Qed.

Lemma combine_points_1_0 p1 p2 :
  length p1 = length p2 → Forall (fun x => 0 ≤ x < q) p1 →
  combine_points q 1 0 p1 p2 = p1.
Proof.
  intros Hlen Hp1. revert p2 Hlen. induction Hp1 as [|x p1 Hx _ IH];
    intros [|y p2] Hlen; try done.
  injection Hlen as Hlen. rewrite combine_points_cons, IH by done. f_equal.
  unfold GF.add, GF.mul.
  rewrite Z.mul_1_l, Z.mul_0_l, Zmod_0_l, Z.add_0_r, Z.mod_mod, Z.mod_small
    by (done || pose proof (order_gt_1 q Hq); lia).
  done.
Qed.

(** A line through a point of the hyperplane that does not lie in the
    hyperplane meets it in that point only. *)
Lemma line_meets_kernel_once secret second line x p :
  is_point P secret → is_point P second → secret ≠ second →
  points_on_line secret second P = Ok line →
  dot q pole secret = 0 →
  x ∈ line → dot q pole x ≠ 0 →
  p ∈ line → dot q pole p = 0 → p = secret.
Proof.
  pose proof (order_gt_1 q Hq) as Hq1.
  intros Hs Ht Hne Hline Hds Hx Hdx Hp Hdp.
  destruct (points_on_line_spec P Hq secret second Hs Ht Hne)
    as (line' & Hline' & _ & Hel).
  rewrite Hline in Hline'. injection Hline' as <-.
  assert (length secret = length second) as Hlen.
  { destruct Hs as [-> _]. by destruct Ht as [-> _]. }
  assert (dot q pole second ≠ 0) as Hdt.
  { intros Hdt. apply Hdx. apply Hel in Hx as ([z a] & _ & Hx).
    eapply dot_line_point; [|done..]. by destruct Hs as [-> _]. }
  apply Hel in Hp as ([z a] & Hza & Hp).
  apply elem_of_line_coefficients in Hza as (Hz & Ha & Hza). fold q in Hz, Ha.
  assert (a = 0) as ->.
  { pose proof Hp as Hm. unfold line_point in Hm. simpl in Hm.
    apply (projective_space_multiple P Hq) in Hm as (k & Hk & Hm);
      [|unfold combine_points; rewrite length_map, length_zip_with;
        destruct Hs as [Hls _]; lia].
    fold q in Hm.
    apply (f_equal (dot q pole)) in Hm.
    rewrite !(dot_of_Z q), (dot_scale_r q Hq), (dot_combine_points q Hq) in Hm
      by done.
    rewrite Hds, Hdp, !Z.mul_0_r, Z.add_0_l, Z.mod_0_l in Hm by lia.
    apply (mul_mod_eq_0 q Hq) in Hm as [Hm|Hm].
    - rewrite Z.mod_small in Hm; lia.
    - rewrite Z.mod_small in Hm by apply (dot_range q Hq). done. }
  assert (z mod q ≠ 0) as Hzq by (rewrite Z.mod_small; lia).
  pose proof (line_point_scale P Hq secret second Hs Ht z 1 0 Hzq) as Hsc.
  fold q in Hsc. rewrite Z.mul_1_r, Z.mul_0_r, Z.mod_0_l, Z.mod_small in Hsc by lia.
  rewrite Hsc in Hp. unfold line_point in Hp. simpl in Hp. fold q in Hp.
  rewrite combine_points_1_0 in Hp by (done || by destruct Hs as (_ & ? & _)).
  rewrite (of_Z_reduced P) in Hp by (by destruct Hs as (_ & ? & _)).
  rewrite projective_space_point in Hp by done. by injection Hp.
Qed.

End Kernel.

(** ** Invariants of the closure *)

Lemma Ok_singleton_inj (l1 l2 : list point) :
  Ok ({[1%nat := l1]} : gmap nat (list point)) = Ok {[1%nat := l2]} → l1 = l2.
Proof.
  intros H.
  assert (({[1%nat := l1]} : gmap nat (list point)) = {[1%nat := l2]}) as H'
    by congruence.
  apply (f_equal (fun h : gmap nat (list point) => h !! 1%nat)) in H'.
  rewrite !lookup_singleton_eq in H'. congruence.
Qed.

Section ClosureInvariant.
Variable P : ProjectiveSpace.
Variable Q : point → Prop.
Hypothesis Hline : ∀ p1 p2 pts,
  Q p1 → Q p2 → p1 ≠ p2 → points_on_line p1 p2 P = Ok pts → Forall Q pts.

Lemma append_new_Forall l pts :
  Forall Q l → Forall Q pts → Forall Q (append_new l pts).
Proof.
  intros Hl Hpts. destruct (append_new_spec l pts) as (e & -> & _ & He).
  apply Forall_app. split; [done|]. apply Forall_forall. intros x Hx.
  apply He in Hx as [Hx _]. rewrite Forall_forall in Hpts. by apply Hpts.
Qed.

Lemma inner_loop_Forall fuel p1 j l l' :
  Q p1 → Forall Q l → inner_loop fuel P p1 j l = Ok l' → Forall Q l'.
Proof.
  intros Hp1. revert j l. induction fuel as [|fuel IH]; intros j l Hl; simpl; [done|].
  destruct (l !! j) as [p2|] eqn:Hj; [|by intros [= <-]].
  assert (Q p2) as Hp2.
  { rewrite Forall_forall in Hl. apply Hl. by eapply list_elem_of_lookup_2. }
  case_bool_decide as Hne; [|by apply IH].
  destruct (points_on_line p1 p2 P) as [pts| |] eqn:Hpts; simpl; try done.
  apply IH. apply append_new_Forall; [done|]. by apply (Hline p1 p2).
Qed.

Lemma outer_loop_Forall fuel i l l' :
  Forall Q l → outer_loop fuel P i l = Ok l' → Forall Q l'.
Proof.
  revert i l. induction fuel as [|fuel IH]; intros i l Hl; simpl; [done|].
  destruct (l !! i) as [p1|] eqn:Hi; [|by intros [= <-]].
  assert (Q p1) as Hp1.
  { rewrite Forall_forall in Hl. apply Hl. by eapply list_elem_of_lookup_2. }
  destruct (inner_loop fuel P p1 0 l) as [l1| |] eqn:Hin; simpl; try done.
  apply IH. by eapply inner_loop_Forall.
Qed.

Lemma reconstruct_hyperplane_Forall fuel points l :
  Forall Q points → reconstruct_hyperplane fuel points P = Ok {[1%nat := l]} →
  Forall Q l.
Proof.
  revert points. induction fuel as [|fuel IH]; intros points Hpts; simpl; [done|].
  destruct (outer_loop fuel P 0 points) as [l1| |] eqn:Hl1; simpl; try done.
  apply outer_loop_Forall in Hl1; [|done].
  case_bool_decide as Heq; [|by apply IH].
  intros H. by apply Ok_singleton_inj in H as <-.
Qed.

End ClosureInvariant.

(** ** The enumeration of the points *)

Lemma vectors_is_vector q n v : v ∈ vectors q n → is_vector q n v.
Proof.
  revert v. induction n as [|n IH]; intros v; simpl.
  - intros ->%list_elem_of_singleton. split; [done|constructor].
  - intros (x & Hv & Hx)%list_elem_of_bind.
    apply list_elem_of_bind in Hv as (v' & Hv & Hv').
    apply list_elem_of_singleton in Hv as ->. apply elem_of_seqZ in Hx.
    destruct (IH v' Hv') as [Hl Hr]. split; [simpl; lia|].
    constructor; [lia|done].
Qed.

Lemma last_nonzero_zeros k : last_nonzero (replicate k 0) = None.
Proof. apply last_nonzero_None, Forall_replicate. done. Qed.

Lemma last_nonzero_app_zeros v c k :
  c ≠ 0 → last_nonzero (v ++ c :: replicate k 0) = Some c.
Proof.
  intros Hc. induction v as [|x v IH]; simpl.
  - by rewrite last_nonzero_cons, last_nonzero_zeros, decide_False.
  - by rewrite last_nonzero_cons, IH.
Qed.

Lemma last_nonzero_decompose p c :
  last_nonzero p = Some c → ∃ v k, p = v ++ c :: replicate k 0.
Proof.
  induction p as [|x p IH]; [done|]. rewrite last_nonzero_cons.
  destruct (last_nonzero p) as [c'|] eqn:Hl.
  - intros [= ->]. destruct IH as (v & k & ->); [done|]. by exists (x :: v), k.
  - case_decide; [done|]. intros [= ->]. exists [], (length p). simpl. f_equal.
    apply last_nonzero_None in Hl. clear -Hl.
    induction Hl as [|y p -> _ IH]; [done|]. simpl. by f_equal.
Qed.

Lemma rational_points_elem P p :
  p ∈ rational_points P ↔
  ∃ k v, (k ≤ dimension P)%nat ∧ v ∈ vectors (order P) (dimension P - k)
         ∧ p = v ++ 1 :: replicate k 0.
Proof.
  unfold rational_points. rewrite list_elem_of_bind. split.
  - intros (k & Hp & Hk). apply list_elem_of_bind in Hp as (v & Hp & Hv).
    apply list_elem_of_singleton in Hp. apply elem_of_seq in Hk.
    exists k, v. split; [lia|done].
  - intros (k & v & Hk & Hv & ->). exists k. split; [|apply elem_of_seq; lia].
    apply list_elem_of_bind. exists v. split; [|done].
    by apply list_elem_of_singleton.
Qed.

Lemma rational_points_is_point P p :
  1 < order P → p ∈ rational_points P → is_point P p.
Proof.
  intros Hq (k & v & Hk & Hv & ->)%rational_points_elem.
  apply vectors_is_vector in Hv as [Hl Hr]. split; [|split].
  - rewrite length_app. simpl. rewrite length_replicate. lia.
  - apply Forall_app. split; [done|]. constructor; [lia|].
    apply Forall_replicate. lia.
  - by apply last_nonzero_app_zeros.
Qed.

Lemma is_point_rational_points P p : is_point P p → p ∈ rational_points P.
Proof.
  intros (Hl & Hr & Hn). apply last_nonzero_decompose in Hn as (v & k & ->).
  rewrite length_app in Hl. simpl in Hl. rewrite length_replicate in Hl.
  apply Forall_app in Hr as [Hr _].
  apply rational_points_elem. exists k, v. split; [lia|]. split; [|done].
  apply elem_of_vectors; [lia|done].
Qed.

(** ** The hyperplanes of a plane *)

Lemma two_elements_length {A} (l : list A) a b :
  a ∈ l → b ∈ l → a ≠ b → (2 ≤ length l)%nat.
Proof.
  intros Ha Hb Hne. destruct l as [|x [|y l]]; simpl; [|exfalso|lia].
  - by apply elem_of_nil in Ha.
  - apply list_elem_of_singleton in Ha, Hb. congruence.
Qed.

Lemma has_one_nonzero (v : list Z) : 1 ∈ v → ¬ Forall (fun x => x = 0) v.
Proof. intros H1 H0. rewrite Forall_forall in H0. by specialize (H0 1 H1). Qed.

Lemma NoDup_two_others (l : list point) (s : point) :
  NoDup l → (3 ≤ length l)%nat →
  ∃ a b, a ∈ l ∧ b ∈ l ∧ a ≠ b ∧ a ≠ s ∧ b ≠ s.
Proof.
  intros Hnd Hlen. destruct l as [|x [|y [|z l]]]; simpl in Hlen; try lia.
  apply NoDup_cons in Hnd as [Hx Hnd]. apply NoDup_cons in Hnd as [Hy _].
  rewrite !elem_of_cons in Hx. rewrite elem_of_cons in Hy.
  assert (x ∈ x :: y :: z :: l) as Hix by (by left).
  assert (y ∈ x :: y :: z :: l) as Hiy by (right; by left).
  assert (z ∈ x :: y :: z :: l) as Hiz by (right; right; by left).
  destruct (decide (x = s)) as [->|Hxs].
  - exists y, z. repeat split; try done; intros ->; tauto.
  - destruct (decide (y = s)) as [->|Hys].
    + exists x, z. repeat split; try done; intros ->; tauto.
    + exists x, y. repeat split; try done. intros ->. tauto.
Qed.

Section Plane.
Variable P : ProjectiveSpace.
Hypothesis Hq : Z.prime (order P).

Let q := order P.

Lemma projective_space_vector v :
  is_vector q (S (dimension P)) v → ¬ Forall (fun x => x = 0) v →
  ∃ p, projective_space P v = Ok p.
Proof.
  intros [Hl Hr] Hnz. rewrite (projective_space_full P) by done.
  fold q. rewrite (of_Z_reduced P) by done.
  destruct (last_nonzero v) as [c|] eqn:Hc; [eauto|].
  by apply last_nonzero_None in Hc.
Qed.

(** Vectors with the same normal form are proportional. *)
Lemma normal_form_proportional v w p :
  is_vector q (S (dimension P)) v → is_vector q (S (dimension P)) w →
  projective_space P v = Ok p → projective_space P w = Ok p →
  ∃ k, v = map (GF.mul q k) w.
Proof.
  intros [Hlv Hv] [Hlw Hw] Hpv Hpw.
  apply (projective_space_multiple P Hq) in Hpv as (k1 & Hk1 & Hev);
    [|done].
  apply (projective_space_multiple P Hq) in Hpw as (k2 & Hk2 & Hew);
    [|done].
  fold q in Hev, Hew, Hk2. rewrite (of_Z_reduced P) in Hev, Hew by done.
  exists (k1 * GF.inv q k2). rewrite Hev, Hew, (scale_scale P). fold q.
  apply map_ext. intros x. unfold GF.mul.
  pose proof (inv_mul q Hq k2 Hk2) as Hi.
  transitivity ((k1 * ((GF.inv q k2 * k2) mod q) * x) mod q); [|eqm_ring q].
  rewrite Hi. f_equal. ring.
Qed.

Hypothesis Hdim : dimension P = 2%nat.

(** Two vectors of the hyperplane of [pole] that are not proportional. *)
Lemma kernel_two_vectors pole :
  is_point P pole →
  ∃ v w, is_vector q 3 v ∧ is_vector q 3 w ∧
         dot q pole v = 0 ∧ dot q pole w = 0 ∧
         ¬ Forall (fun x => x = 0) v ∧ ¬ Forall (fun x => x = 0) w ∧
         ∀ k, v ≠ map (GF.mul q k) w.
Proof.
  pose proof (order_gt_1 q Hq) as Hq1.
  intros (Hl & Hr & Hn). rewrite Hdim in Hl.
  destruct pole as [|P0 [|P1 [|P2 [|? ?]]]]; try done.
  apply Forall_cons in Hr as [HP0 Hr]. apply Forall_cons in Hr as [HP1 Hr].
  apply Forall_cons in Hr as [HP2 _]. fold q in HP0, HP1, HP2.
  rewrite !last_nonzero_cons in Hn. change (last_nonzero []) with (@None Z) in Hn.
  assert (∀ x, 0 ≤ x mod q < q) as Hm by (intros x; apply mod_range, Hq).
  assert (∀ a b c, 0 ≤ a < q → 0 ≤ b < q → 0 ≤ c < q → is_vector q 3 [a; b; c])
    as Hvec
    by (intros a b c ???; split; [done|];
        constructor; [done|constructor; [done|constructor; [done|constructor]]]).
  assert (∀ k, (k * 0) mod q ≠ 1) as Hk0.
  { intros k. rewrite Z.mul_0_r, Z.mod_0_l; lia. }
  destruct (decide (P2 = 0)) as [->|HP2'].
  - destruct (decide (P1 = 0)) as [->|HP1'].
    + destruct (decide (P0 = 0)) as [->|HP0']; [done|].
      injection Hn as ->.
      exists [0; 1; 0], [0; 0; 1].
      do 2 (split; [apply Hvec; lia|]).
      split; [rewrite !dot_cons, dot_nil_l; unfold GF.add, GF.mul;
              transitivity (0 mod q); [eqm_ring q|apply Zmod_0_l]|].
      split; [rewrite !dot_cons, dot_nil_l; unfold GF.add, GF.mul;
              transitivity (0 mod q); [eqm_ring q|apply Zmod_0_l]|].
      split; [apply has_one_nonzero; rewrite !elem_of_cons; auto|].
      split; [apply has_one_nonzero; rewrite !elem_of_cons; auto|].
      intros k [= _ H _]. unfold GF.mul in H. by apply (Hk0 k).
    + injection Hn as ->.
      exists [1; (- P0) mod q; 0], [0; 0; 1].
      do 2 (split; [apply Hvec; (lia || apply Hm)|]).
      split; [rewrite !dot_cons, dot_nil_l; unfold GF.add, GF.mul;
              transitivity (0 mod q); [eqm_ring q|apply Zmod_0_l]|].
      split; [rewrite !dot_cons, dot_nil_l; unfold GF.add, GF.mul;
              transitivity (0 mod q); [eqm_ring q|apply Zmod_0_l]|].
      split; [apply has_one_nonzero; rewrite !elem_of_cons; auto|].
      split; [apply has_one_nonzero; rewrite !elem_of_cons; auto|].
      intros k [= H _ _]. unfold GF.mul in H. by apply (Hk0 k).
  - injection Hn as ->.
    exists [1; 0; (- P0) mod q], [0; 1; (- P1) mod q].
    do 2 (split; [apply Hvec; (lia || apply Hm)|]).
    split; [rewrite !dot_cons, dot_nil_l; unfold GF.add, GF.mul;
            transitivity (0 mod q); [eqm_ring q|apply Zmod_0_l]|].
    split; [rewrite !dot_cons, dot_nil_l; unfold GF.add, GF.mul;
            transitivity (0 mod q); [eqm_ring q|apply Zmod_0_l]|].
    split; [apply has_one_nonzero; rewrite !elem_of_cons; auto|].
    split; [apply has_one_nonzero; rewrite !elem_of_cons; auto|].
    intros k [= H _ _]. unfold GF.mul in H. by apply (Hk0 k).
Qed.

(** The hyperplane of a point holds a point other than a given one. *)
Lemma kernel_other_point pole secret :
  is_point P pole → ∃ o, in_kernel P pole o ∧ o ≠ secret.
Proof.
  intros Hpole.
  destruct (kernel_two_vectors pole Hpole)
    as (v & w & Hv & Hw & Hdv & Hdw & Hvn & Hwn & Hvw).
  rewrite <- Hdim in Hv, Hw.
  destruct (projective_space_vector v Hv Hvn) as [pv Hpv].
  destruct (projective_space_vector w Hw Hwn) as [pw Hpw].
  destruct (decide (pv = secret)) as [->|Hne].
  - exists pw. split.
    + split; [by apply projective_space_is_point in Hpw|].
      apply (dot_projective_space P Hq pole w); [by destruct Hw|done..].
    + intros ->.
      destruct (normal_form_proportional v w secret Hv Hw Hpv Hpw) as [k Hk].
      by apply (Hvw k).
  - exists pv. split; [|done].
    split; [by apply projective_space_is_point in Hpv|].
    apply (dot_projective_space P Hq pole v); [by destruct Hv|done..].
Qed.

(** The points of a hyperplane of the plane, without the secret, are at
    least two. *)
Lemma hyperplane_two_points pole secret points :
  is_point P pole → in_kernel P pole secret →
  (∀ p, is_point P p → p ∈ points) →
  ∃ a b, a ≠ b ∧
    a ∈ remove_first secret (filter (fun p => dot q pole p = 0) points) ∧
    b ∈ remove_first secret (filter (fun p => dot q pole p = 0) points).
Proof.
  pose proof (order_gt_1 q Hq) as Hq1.
  intros Hpole [Hs Hds] Hall.
  destruct (kernel_other_point pole secret Hpole) as (o & [Ho Hdo] & Hne).
  destruct (points_on_line_spec P Hq secret o Hs Ho (not_eq_sym Hne))
    as (line & Hline & Hnd & Hel).
  pose proof (points_on_line_length P Hq secret o Hs Ho (not_eq_sym Hne) line Hline)
    as Hlen.
  pose proof (line_in_kernel P Hq pole secret o line (conj Hs Hds) (conj Ho Hdo)
                (not_eq_sym Hne) Hline) as Hker.
  destruct (NoDup_two_others line secret Hnd) as (a & b & Ha & Hb & Hab & Has & Hbs).
  { fold q in Hlen. lia. }
  rewrite Forall_forall in Hker.
  exists a, b. split; [done|].
  split; (apply remove_first_other; [|done]); apply list_elem_of_filter.
  - destruct (Hker a Ha) as [? ?]. split; [done|by apply Hall].
  - destruct (Hker b Hb) as [? ?]. split; [done|by apply Hall].
Qed.

End Plane.

(** ** What encryption hands out *)

Lemma is_prime_prime q : GF.is_prime q = true → Z.prime q.
Proof.
  unfold GF.is_prime. intros [Hq Hall]%andb_true_iff.
  apply Z.ltb_lt in Hq. split; [done|]. intros k Hk Hdiv.
  rewrite forallb_forall in Hall. specialize (Hall k).
  assert (negb (q mod k =? 0) = true) as Hn.
  { apply Hall, list_elem_of_In, elem_of_seqZ. lia. }
  apply negb_true_iff, Z.eqb_neq in Hn. apply Hn.
  apply Z.mod_divide; [lia|done].
Qed.

Lemma mret_Ok {A} (a b : A) (s s' : state) :
  (mret a : M A) s = Ok (b, s') ↔ a = b ∧ s = s'.
Proof. unfold mret, M_ret. split; [by intros [= -> ->]|by intros [-> ->]]. Qed.

Lemma lift_Ok {A} (r : result A) a s s' :
  lift r s = Ok (a, s') ↔ r = Ok a ∧ s' = s.
Proof.
  unfold lift. destruct r; split; try done.
  - by intros [= -> ->].
  - by intros [[= ->] ->].
  - by intros [? _].
  - by intros [? _].
Qed.

Lemma alloc_Ok v s l s' :
  alloc v s = Ok (l, s') →
  heap s !! l = None ∧ heap s' = <[l := v]> (heap s).
Proof.
  unfold alloc. intros [= <- <-]. split; [|done].
  apply not_elem_of_dom, is_fresh.
Qed.

Lemma all_hyperplaines_from_Ok q i todo points s dict s' :
  all_hyperplaines_from q i todo points s = Ok (dict, s') →
  (∀ l v, heap s !! l = Some v → heap s' !! l = Some v) ∧
  ∀ id l, (id, l) ∈ dict →
    ∃ pole, pole ∈ todo ∧
            heap s' !! l = Some (filter (fun p => dot q pole p = 0) points).
Proof.
  revert i s dict. induction todo as [|pole todo IH]; intros i s dict; simpl.
  - intros [<- <-]%mret_Ok. split; [done|]. by intros id l ?%elem_of_nil.
  - intros H. apply M_bind_Ok in H as (l0 & s1 & Hal & H).
    apply alloc_Ok in Hal as [Hfresh Hh1].
    apply M_bind_Ok in H as (dict' & s2 & Hrec & H).
    apply mret_Ok in H as [<- <-].
    apply IH in Hrec as [Hmono Hdict]. split.
    + intros l v Hl. apply Hmono. rewrite Hh1.
      rewrite lookup_insert_ne; [done|]. intros ->. congruence.
    + intros id l [[= -> ->]|Hin]%elem_of_cons.
      * exists pole. split; [by left|]. apply Hmono.
        by rewrite Hh1, lookup_insert_eq.
      * destruct (Hdict id l Hin) as (pole' & ? & ?). exists pole'.
        split; [by right|done].
Qed.

Lemma find_point_for_secret_line_Ok secret points s chosen s' :
  find_point_for_secret_line secret points s = Ok (Some chosen, s') →
  chosen ∈ points ∧ chosen ≠ secret ∧ heap s' = heap s.
Proof.
  unfold find_point_for_secret_line.
  set (valid := filter _ points). case_decide as Hv; [by intros [[=] _]%mret_Ok|].
  intros H. apply M_bind_Ok in H as (i & s1 & Hi & H).
  apply randbelow_Ok in Hi as [Hh _].
  apply M_bind_Ok in H as (c & s2 & Hc & H).
  apply lift_Ok in Hc as [Hc ->]. apply mret_Ok in H as [[= ->] <-].
  apply index_Ok in Hc. apply list_elem_of_lookup_2 in Hc.
  unfold valid in Hc. apply list_elem_of_filter in Hc as [[Hne _] Hin]. done.
Qed.

(** The set returned by splitter selection, in terms of the heap the call
    started from. *)
Lemma get_secret_splitter_result fuel m (secret : point) d q cands s r s' :
  m !! secret = Some cands →
  get_secret_splitter fuel m secret d q s = Ok (r, s') →
  ∃ hp pts,
    hp ∈ cands ∧ heap s !! hp = Some pts ∧
    (d = 2 ∧ r = Shared hp ∧ heap s' !! hp = Some (remove_first secret pts)
     ∨ d ≠ 2 ∧ ∃ v, r = Local v ∧ d ≤ Z.of_nat (rank q v) ∧ ∀ p, p ∈ v → p ∈ pts).
Proof.
  intros Hm. revert s. induction fuel as [|fuel IH]; intros s H; [done|].
  apply get_secret_splitter_inv in H
    as (cands' & k & t & hp & pts & Hm' & Ht & Hhp & Hh & H).
  rewrite Hm in Hm'. injection Hm' as <-.
  assert (hp ∈ cands) as Hin by (by eapply list_elem_of_lookup_2).
  destruct H as [(-> & -> & ->)|(Hd & subset & s2 & Hsub & H)].
  - exists hp, pts. do 2 (split; [done|]). left. do 2 (split; [done|]).
    unfold select_heap. simpl. by rewrite lookup_insert_eq.
  - apply find_largest_general_position_subset_Ok in Hsub
      as (pts1 & pts2 & Hl1 & Hp2 & Hh2 & Hsubset).
    unfold select_heap in Hl1, Hh2. simpl in Hl1, Hh2.
    rewrite lookup_insert_eq in Hl1. injection Hl1 as <-.
    rewrite insert_insert_eq in Hh2.
    assert (∀ p, p ∈ pts2 → p ∈ pts) as Hp2in.
    { intros p Hp. rewrite Hp2 in Hp. by apply remove_first_incl in Hp. }
    destruct H as [(Hrk & -> & ->)|(Hrk & H)].
    + exists hp, pts. do 2 (split; [done|]). right. split; [done|].
      exists subset. do 2 (split; [done|]). intros p Hp. by apply Hp2in, Hsubset.
    + apply IH in H as (hp' & pts' & Hin' & Hh' & [(? & _)|(_ & v & -> & Hv & Hvin)]);
        [done|].
      rewrite Hh2 in Hh'. destruct (decide (hp' = hp)) as [->|Hne].
      * rewrite lookup_insert_eq in Hh'. injection Hh' as <-.
        exists hp, pts. do 2 (split; [done|]). right. split; [done|].
        exists v. do 2 (split; [done|]). intros p Hp. by apply Hp2in, Hvin.
      * rewrite lookup_insert_ne in Hh' by done.
        exists hp', pts'. do 2 (split; [done|]). right. split; [done|].
        by exists v.
Qed.

Lemma run_Ok {A} (m : M A) tape a :
  run m tape = Ok a ↔ ∃ s', m (mkState tape ∅) = Ok (a, s').
Proof.
  unfold run. destruct (m _) as [[a' s']| |]; split; try done.
  - intros [= ->]. by exists s'.
  - by intros [s'' [= -> _]].
  - by intros [? ?].
  - by intros [? ?].
Qed.

(** What an honest run of encryption prints: the secret, the line through
    it and a second point, and splitters taken from a hyperplane that holds
    the secret and not the whole line. *)
Lemma t_threshold_encrypt_Ok fuel d q tape secret line splitters :
  run (t_threshold_encrypt fuel d q) tape
    = Ok [Secret secret; SecretLine line; Splitters splitters] →
  ∃ P second pole,
    P = mkSpace (Z.to_nat d) q ∧
    1 < d ∧ GF.is_prime q = true ∧ Z.prime q ∧
    is_point P secret ∧ is_point P second ∧ second ≠ secret ∧
    points_on_line secret second P = Ok line ∧
    is_point P pole ∧ dot q pole secret = 0 ∧
    (¬ ∀ p, p ∈ line →
            p ∈ filter (fun p => dot q pole p = 0) (rational_points P)) ∧
    (d = 2 ∧
     splitters = remove_first secret
                   (filter (fun p => dot q pole p = 0) (rational_points P))
     ∨ d ≠ 2 ∧ d ≤ Z.of_nat (rank q splitters) ∧
       ∀ p, p ∈ splitters →
            p ∈ filter (fun p => dot q pole p = 0) (rational_points P)).
Proof.
  intros H. apply run_Ok in H as [s' H]. unfold t_threshold_encrypt in H.
  destruct (_ || _) eqn:Hc1; [by apply mret_Ok in H as [[=] _]|].
  destruct (negb _) eqn:Hc2; [by apply mret_Ok in H as [[=] _]|].
  apply orb_false_iff in Hc1 as [Ho Hd]. apply Z.leb_gt in Ho, Hd.
  apply negb_false_iff in Hc2. pose proof (is_prime_prime _ Hc2) as Hprime.
  set (P := mkSpace (Z.to_nat d) q) in *.
  apply M_bind_Ok in H as (rn & sa & Hrn & H).
  unfold randint0 in Hrn. case_decide as Hlen; [done|].
  apply randbelow_Ok in Hrn as [Hh1 _].
  apply M_bind_Ok in H as (secret' & sb & Hsec & H).
  apply lift_Ok in Hsec as [Hsec ->]. apply index_Ok in Hsec.
  apply list_elem_of_lookup_2 in Hsec.
  apply M_bind_Ok in H as (second & sc & Hsnd & H).
  apply M_bind_Ok in H as (second' & sd & Hsnd' & H).
  destruct second as [snd|]; [|done]. apply mret_Ok in Hsnd' as [-> ->].
  apply find_point_for_secret_line_Ok in Hsnd as (Hsin & Hsne & Hh2).
  apply M_bind_Ok in H as (line' & se & Hline & H).
  apply lift_Ok in Hline as [Hline ->].
  apply M_bind_Ok in H as (hyperplanes & sf & Hhyp & H).
  apply all_hyperplaines_from_Ok in Hhyp as [_ Hhyp].
  apply M_bind_Ok in H as (m & sg & Hm & H).
  apply find_hyperplanes_for_secret_line_Ok in Hm as [-> Hm].
  apply M_bind_Ok in H as (r & sh & Hget & H).
  apply M_bind_Ok in H as (spl & si & Hspl & H).
  apply mret_Ok in H as [[= -> -> ->] _].
  assert (1 < order P) as Hq1 by (simpl; lia).
  pose proof (rational_points_is_point P secret Hq1 Hsec) as Hps.
  pose proof (rational_points_is_point P second' Hq1 Hsin) as Hpt.
  destruct fuel as [|fuel]; [done|].
  pose proof Hget as Hinv.
  apply get_secret_splitter_inv in Hinv as (cands & _ & _ & _ & _ & Hc & _).
  destruct (get_secret_splitter_result _ _ _ _ _ _ _ _ _ Hc Hget)
    as (hp & pts & Hin & Hpts & Hres).
  destruct (Hm secret cands hp Hc Hin) as (_ & id & pts' & Hid & Hpts' & Hsp & Hnl).
  rewrite Hpts in Hpts'. injection Hpts' as <-.
  destruct (Hhyp id hp Hid) as (pole & Hpole & Hheap).
  rewrite Hpts in Hheap. injection Hheap as ->.
  exists P, second', pole. split; [done|].
  do 7 (split; [done|]).
  split; [by apply rational_points_is_point|].
  split; [by apply list_elem_of_filter in Hsp as [? _]|].
  split; [done|].
  destruct Hres as [(-> & -> & Hs')|(Hd2 & v & -> & Hrk & Hv)].
  - left. split; [done|]. unfold to_list in Hspl.
    apply load_Ok in Hspl as [Hspl _]. rewrite Hs' in Hspl. by injection Hspl.
  - right. unfold to_list in Hspl. apply mret_Ok in Hspl as [<- _]. done.
Qed.

Lemma mapM_projective_space P (l : list point) :
  Z.prime (order P) → Forall (is_point P) l →
  mapM (projective_space P) l = Ok l.
Proof.
  intros Hq. induction 1 as [|p l Hp _ IH]; [done|].
  simpl. rewrite projective_space_point by done. simpl. by rewrite IH.
Qed.

(** ** The round trip *)

Section RoundTrip.
Variable P : ProjectiveSpace.
Hypothesis Hq : Z.prime (order P).
Hypothesis Hdim : (2 ≤ dimension P)%nat.

Let q := order P.
Let n := S (dimension P).

Variables secret second pole : point.
Variables line splitters : list point.
Hypothesis Hsecret : is_point P secret.
Hypothesis Hsecond : is_point P second.
Hypothesis Hne : second ≠ secret.
Hypothesis Hline : points_on_line secret second P = Ok line.
Hypothesis Hpole : is_point P pole.
Hypothesis Hdot : dot q pole secret = 0.

(** The points of the hyperplane chosen by encryption. *)
Let hyperplane : list point :=
  filter (fun p => dot q pole p = 0) (rational_points P).

Hypothesis Hcut : ¬ ∀ p, p ∈ line → p ∈ hyperplane.
Hypothesis Hsplitters :
  dimension P = 2%nat ∧ splitters = remove_first secret hyperplane
  ∨ dimension P ≠ 2%nat ∧ (dimension P ≤ rank q splitters)%nat ∧
    ∀ p, p ∈ splitters → p ∈ hyperplane.

Lemma hyperplane_in_kernel p : p ∈ hyperplane ↔ in_kernel P pole p.
Proof.
  pose proof (order_gt_1 q Hq) as Hq1.
  unfold hyperplane. rewrite list_elem_of_filter. split.
  - intros [Hd Hp]. split; [|done]. by apply rational_points_is_point.
  - intros [Hp Hd]. split; [done|]. by apply is_point_rational_points.
Qed.

Lemma splitters_in_kernel : Forall (in_kernel P pole) splitters.
Proof.
  apply Forall_forall. intros p Hp. apply hyperplane_in_kernel.
  destruct Hsplitters as [[_ ->]|(_ & _ & Hall)]; [|by apply Hall].
  by apply remove_first_incl in Hp.
Qed.

Lemma splitters_points : Forall (is_point P) splitters.
Proof. eapply Forall_impl; [apply splitters_in_kernel|]. by intros p [? _]. Qed.

Lemma line_points : Forall (is_point P) line ∧ Z.of_nat (length line) = q + 1
                    ∧ secret ∈ line.
Proof.
  pose proof (order_gt_1 q Hq) as Hq1.
  destruct (points_on_line_spec P Hq secret second Hsecret Hsecond
              (not_eq_sym Hne)) as (line' & Hline' & _ & Hel).
  rewrite Hline in Hline'. injection Hline' as <-.
  split; [|split].
  - apply Forall_forall. intros p Hp. apply Hel in Hp as (za & _ & Hp).
    by apply projective_space_is_point in Hp.
  - by apply (points_on_line_length P Hq secret second).
  - apply Hel. exists (1, 0). split; [apply elem_of_line_coefficients; lia|].
    unfold line_point. simpl.
    rewrite (combine_points_1_0 P Hq), (of_Z_reduced P);
      [by apply projective_space_point| | |].
    + by destruct Hsecret as (_ & ? & _).
    + destruct Hsecret as [-> _]. by destruct Hsecond as [-> _].
    + by destruct Hsecret as (_ & ? & _).
Qed.

(** Some point of the line is off the hyperplane. *)
Lemma line_point_off_hyperplane : ∃ x, x ∈ line ∧ dot q pole x ≠ 0.
Proof.
  destruct line_points as (Hpts & _).
  assert (¬ Forall (fun p => p ∈ hyperplane) line) as Hnf.
  { intros Hall. apply Hcut. by apply Forall_forall. }
  apply not_Forall_Exists in Hnf; [|apply _].
  apply Exists_exists in Hnf as (x & Hx & Hnx). exists x. split; [done|].
  intros Hd. apply Hnx, hyperplane_in_kernel. split; [|done].
  rewrite Forall_forall in Hpts. by apply Hpts.
Qed.

(** Enough splitters are handed out for the checks of decryption. *)
Lemma splitters_length :
  (2 ≤ length splitters)%nat ∧ (dimension P ≤ length splitters)%nat.
Proof.
  destruct Hsplitters as [[Hd ->]|(Hd & Hrk & _)].
  - destruct (hyperplane_two_points P Hq Hd pole secret (rational_points P))
      as (a & b & Hab & Ha & Hb); [done|by split| |].
    { intros p. apply is_point_rational_points. }
    pose proof (two_elements_length _ a b Ha Hb Hab) as H2.
    unfold hyperplane, q. lia.
  - unfold rank in Hrk.
    pose proof (rank_cols_le_rows q (length (hd [] splitters))
                  (map (map (GF.of_Z q)) splitters)) as Hle.
    rewrite length_map in Hle. lia.
Qed.

Variable l : list point.
Hypothesis Hclosed : closed P l.
Hypothesis Hextends : extends P splitters l.
Hypothesis Hkernel : Forall (in_kernel P pole) l.

Lemma splitters_in_closure p : p ∈ splitters → p ∈ l.
Proof.
  intros Hp. destruct Hextends as (e & -> & _). apply elem_of_app. by left.
Qed.

Lemma closure_points : Forall (is_point P) l.
Proof. eapply Forall_impl; [exact Hkernel|]. by intros p [? _]. Qed.

(** The secret lies in the closure of the splitters. *)
Lemma secret_in_closure : secret ∈ l.
Proof.
  pose proof splitters_points as Hsp. rewrite Forall_forall in Hsp.
  pose proof splitters_in_kernel as Hsk. rewrite Forall_forall in Hsk.
  assert (∃ rows, (∀ r, r ∈ rows → r ∈ splitters)
                  ∧ (n ≤ S (rank_cols q n rows))%nat) as (rows & Hrows & Hrk).
  { destruct Hsplitters as [[Hd Hs]|(Hd & Hrk & _)].
    - pose proof Hs as Hs'. rewrite Hs'.
      destruct (hyperplane_two_points P Hq Hd pole secret (rational_points P))
        as (a & b & Hab & Ha & Hb); [done|by split| |].
      { intros p. apply is_point_rational_points. }
      fold q hyperplane in Ha, Hb. exists [a; b]. split.
      + intros r [->|[->|?%elem_of_nil]%elem_of_cons]%elem_of_cons; done.
      + rewrite <- Hs' in Ha, Hb.
        pose proof (rank_pair P Hq a b (Hsp a Ha) (Hsp b Hb) Hab) as H2.
        unfold n, q. rewrite Hd in H2 |- *. lia.
    - exists splitters. split; [done|].
      assert (splitters ≠ []) as Hnil.
      { intros Hs. rewrite Hs in Hrk. unfold rank in Hrk. simpl in Hrk. lia. }
      rewrite (rank_points P) in Hrk; [|done|by apply Forall_forall].
      unfold n, q. lia. }
  apply (span_closed_point P Hq l Hclosed closure_points rows).
  - intros r Hr. by apply splitters_in_closure, Hrows.
  - fold q n. apply (hyperplane_rank_span q Hq n rows pole).
    + intros r Hr. by apply (is_point_is_vector P), Hsp, Hrows.
    + by apply (is_point_is_vector P).
    + by apply (is_point_nonzero P).
    + intros r Hr. by apply Hsk, Hrows.
    + done.
    + by apply (is_point_is_vector P).
    + done.
  - done.
Qed.

(** The closure meets the secret line in the secret and nowhere else. *)
Lemma closure_meets_line :
  intersect_hyperplane_w_secret_line {[1%nat := l]} line = {[secret]}.
Proof.
  apply set_eq. intros p. rewrite intersect_elem, elem_of_singleton. split.
  - intros (Hp & k & pts & Hk & Hin).
    apply lookup_singleton_Some in Hk as [_ <-].
    destruct line_point_off_hyperplane as (x & Hx & Hdx).
    apply (line_meets_kernel_once P Hq pole secret second line x p);
      try done.
    rewrite Forall_forall in Hkernel. by apply Hkernel.
  - intros ->. split; [by apply line_points|].
    exists 1%nat, l. split; [apply lookup_singleton_eq|apply secret_in_closure].
Qed.

End RoundTrip.

(** Decryption goes through when its input passes the checks. *)
Lemma t_threshold_decrypt_Ok fuel P (splitters line : list point) first h :
  line !! 0%nat = Some first → length first = S (dimension P) →
  Z.of_nat (length line) = order P + 1 →
  1 < order P → (2 ≤ dimension P)%nat →
  (2 ≤ length splitters)%nat → (dimension P ≤ length splitters)%nat →
  GF.is_prime (order P) = true →
  mapM (projective_space P) splitters = Ok splitters →
  mapM (projective_space P) line = Ok line →
  reconstruct_hyperplane fuel splitters P = Ok h →
  t_threshold_decrypt fuel splitters line
  = Ok [RestoredHyperplane h;
        DecryptedSecret (intersect_hyperplane_w_secret_line h line)].
Proof.
  intros Hfirst Hlf Hll Hq Hd Hn2 Hnd Hprime Hms Hml Hrec.
  unfold t_threshold_decrypt. apply index_Ok in Hfirst. rewrite Hfirst. simpl.
  assert (mkSpace (Z.to_nat (Z.of_nat (length first) - 1))
                  (Z.of_nat (length line) - 1) = P) as ->.
  { destruct P as [dm q]. simpl in *. f_equal; lia. }
  rewrite Hlf, Hll.
  replace (order P + 1 - 1 <=? 1) with false by (symmetry; apply Z.leb_gt; lia).
  replace (Z.of_nat (S (dimension P)) - 1 <=? 1) with false
    by (symmetry; apply Z.leb_gt; lia).
  replace (Z.of_nat (length splitters) <=? 1) with false
    by (symmetry; apply Z.leb_gt; lia).
  replace (Z.of_nat (length splitters) <? Z.of_nat (S (dimension P)) - 1)
    with false by (symmetry; apply Z.ltb_ge; lia).
  replace (order P + 1 - 1) with (order P) by lia.
  rewrite Hprime. simpl. rewrite Hms. simpl. rewrite Hml. simpl.
  rewrite Hrec. reflexivity.
Qed.

(** C1. Round trip: what an honest run of encryption prints as splitters
    and secret line, given to decryption (with fuel for the closure),
    makes it restore a hyperplane and print, as the decrypted secret, the
    set that holds the original secret and nothing else. *)
Theorem round_trip fuel d q tape secret (line splitters : list point) :
  run (t_threshold_encrypt fuel d q) tape
    = Ok [Secret secret; SecretLine line; Splitters splitters] →
  ∃ n, ∀ fuel', (n ≤ fuel')%nat →
    ∃ h, t_threshold_decrypt fuel' splitters line
         = Ok [RestoredHyperplane h; DecryptedSecret {[secret]}].
Proof.
  intros Henc.
  destruct (t_threshold_encrypt_Ok _ _ _ _ _ _ _ Henc)
    as (P & second & pole & HP & Hd & Hprime & Hq & Hs & Ht & Hne & Hline
        & Hpole & Hdot & Hcut & Hspl).
  assert (order P = q) as Hoq by (by rewrite HP).
  assert (dimension P = Z.to_nat d) as Hdd by (by rewrite HP).
  rewrite <- Hoq in Hq, Hprime, Hdot, Hcut, Hspl.
  assert (2 ≤ dimension P)%nat as Hdim by lia.
  assert (dimension P = 2%nat ∧
          splitters = remove_first secret
            (filter (fun p => dot (order P) pole p = 0) (rational_points P))
          ∨ dimension P ≠ 2%nat ∧ (dimension P ≤ rank (order P) splitters)%nat ∧
            ∀ p, p ∈ splitters →
              p ∈ filter (fun p => dot (order P) pole p = 0) (rational_points P))
    as Hspl'.
  { destruct Hspl as [[-> ->]|(Hd2 & Hrk & Hall)]; [left; by rewrite Hdd|].
    right. split; [lia|]. split; [lia|done]. }
  clear Hspl.
  pose proof (splitters_in_kernel P Hq secret pole splitters Hspl') as Hker.
  pose proof (splitters_points P Hq secret pole splitters Hspl') as Hpts.
  destruct (line_points P Hq Hdim secret second pole line splitters
              Hs Ht Hne Hline Hspl') as (Hlpts & Hllen & _).
  destruct (splitters_length P Hq Hdim secret pole splitters Hs Hpole Hdot Hspl')
    as [Hn2 Hnd].
  exists (3 * (length splitters + space_size P) + 3)%nat. intros fuel' Hf.
  destruct (closure_terminates_from P Hq splitters Hpts
              (length splitters + space_size P) fuel' splitters)
    as (l & Hl & Hext & Hcl); [apply extends_refl|lia..|].
  pose proof (reconstruct_hyperplane_Forall P (in_kernel P pole)
                (line_in_kernel P Hq pole) fuel' splitters l Hker Hl) as Hlk.
  exists {[1%nat := l]}.
  destruct line as [|first rest] eqn:Hlist; [simpl in Hllen; pose proof (order_gt_1 _ Hq); lia|].
  rewrite <- Hlist in *.
  assert (is_point P first) as Hfirst.
  { rewrite Forall_forall in Hlpts. apply Hlpts. rewrite Hlist. by left. }
  rewrite (t_threshold_decrypt_Ok fuel' P splitters line first {[1%nat := l]}).
  - rewrite (closure_meets_line P Hq Hdim secret second pole line splitters)
      by done.
    reflexivity.
  - by rewrite Hlist.
  - by destruct Hfirst.
  - done.
  - apply (order_gt_1 _ Hq).
  - done.
  - done.
  - done.
  - done.
  - by apply mapM_projective_space.
  - by apply mapM_projective_space.
  - done.
Qed.

(** Equalities modulo [q] again, the reductions dropped from the outside
    inwards. *)
Ltac mod_ring q :=
  repeat match goal with
         | |- context [GF.inv q ?a] =>
             let i := fresh "i" in generalize (GF.inv q a); intros i
         | |- context [dot q ?u ?v] =>
             let d := fresh "d" in generalize (dot q u v); intros d
         end;
  match goal with
  | |- ?a mod _ = ?b mod _ => change (eqm q a b)
  end;
  let Hm := fresh in
  pose proof (Zmod_eqm q) as Hm; repeat (rewrite_strat (topdown Hm)); clear Hm;
  unfold eqm; f_equal; ring.

(** ** The order of the points of a line *)

Lemma bind_singleton_map {A B} (f : A → B) (l : list A) :
  (x ← l; [f x]) = map f l.
Proof.
  induction l as [|x l IH]; [done|]. rewrite bind_cons, IH. done.
Qed.

Lemma filter_all {A} (Q : A → Prop) `{∀ x, Decision (Q x)} (l : list A) :
  Forall Q l → filter Q l = l.
Proof.
  induction 1 as [|x l Hx _ IH]; [done|].
  rewrite filter_cons_True by done. by rewrite IH.
Qed.

Lemma nested_loops_head (outer inner rest : list Z) :
  outer = 0 :: 1 :: rest →
  filter (fun za : Z * Z => za.2 ≠ 0 ∨ za.1 ≠ 0)
         (zeta ← outer; alpha ← inner; [(zeta, alpha)])
  = filter (fun za : Z * Z => za.2 ≠ 0 ∨ za.1 ≠ 0) (map (pair 0) inner)
    ++ filter (fun za : Z * Z => za.2 ≠ 0 ∨ za.1 ≠ 0) (map (pair 1) inner)
    ++ filter (fun za : Z * Z => za.2 ≠ 0 ∨ za.1 ≠ 0)
              (zeta ← rest; alpha ← inner; [(zeta, alpha)]).
Proof.
  intros ->. rewrite !bind_cons, !filter_app, !bind_singleton_map. done.
Qed.

(** The two nested loops start with the pairs [(0, alpha)], [alpha] not
    zero, and go on with the pairs [(1, alpha)]. *)
Lemma line_coefficients_head q :
  2 ≤ q →
  ∃ rest, line_coefficients q
          = map (pair 0) (seqZ 1 (q - 1)) ++ map (pair 1) (seqZ 0 q) ++ rest.
Proof.
  intros Hq. unfold line_coefficients, GF.elements.
  rewrite (nested_loops_head (seqZ 0 q) (seqZ 0 q) (seqZ 2 (q - 2))).
  2:{ rewrite (seqZ_cons 0 q), (seqZ_cons (Z.succ 0) (Z.pred q)) by lia.
      do 3 f_equal; lia. }
  eexists. f_equal; [|f_equal].
  - rewrite (seqZ_cons 0 q) by lia. cbn [map].
    rewrite filter_cons_False by (simpl; lia).
    replace (Z.succ 0) with 1 by lia. replace (Z.pred q) with (q - 1) by lia.
    apply filter_all, Forall_forall. intros [z a] Hin.
    apply list_elem_of_fmap in Hin as (a' & Heq & Hin). simplify_eq.
    apply elem_of_seqZ in Hin. simpl. lia.
  - apply filter_all, Forall_forall. intros [z a] Hin.
    apply list_elem_of_fmap in Hin as (a' & Heq & Hin). simplify_eq.
    simpl. lia.
Qed.

Lemma foldl_line_step_Raise P p1 p2 (coeffs : list (Z * Z)) e :
  foldl (line_step P p1 p2) (Raise e) coeffs = Raise e.
Proof. induction coeffs as [|za coeffs IH]; [done|]. apply IH. Qed.

Lemma foldl_line_step_OutOfFuel P p1 p2 (coeffs : list (Z * Z)) :
  foldl (line_step P p1 p2) OutOfFuel coeffs = OutOfFuel.
Proof. induction coeffs as [|za coeffs IH]; [done|]. apply IH. Qed.

(** The loop only appends. *)
Lemma foldl_line_step_prefix P p1 p2 (coeffs : list (Z * Z)) acc l :
  foldl (line_step P p1 p2) (Ok acc) coeffs = Ok l → acc `prefix_of` l.
Proof.
  revert acc. induction coeffs as [|za coeffs IH]; intros acc H.
  - injection H as ->. done.
  - cbn [foldl] in H.
    destruct (line_step P p1 p2 (Ok acc) za) as [acc'|e|] eqn:Hstep.
    + apply IH in H. etrans; [|exact H].
      unfold line_step in Hstep. simpl in Hstep.
      destruct (projective_space P _) as [np| |]; simplify_eq/=.
      case_bool_decide; [done|]. by apply prefix_app_r.
    + by rewrite foldl_line_step_Raise in H.
    + by rewrite foldl_line_step_OutOfFuel in H.
Qed.

(** One turn that yields a point already in the list changes nothing. *)
Lemma foldl_line_step_same P p1 p2 (coeffs : list (Z * Z)) acc :
  (∀ za, za ∈ coeffs → ∃ p, line_point P p1 p2 za = Ok p ∧ p ∈ acc) →
  foldl (line_step P p1 p2) (Ok acc) coeffs = Ok acc.
Proof.
  induction coeffs as [|za coeffs IH]; intros Hall; [done|].
  destruct (Hall za) as (p & Hp & Hin); [set_solver|].
  cbn [foldl]. unfold line_step at 2. simpl. unfold line_point in Hp.
  rewrite Hp. simpl. rewrite bool_decide_eq_true_2 by done.
  apply IH. intros za' Hza'. apply Hall. set_solver.
Qed.

Lemma combine_points_comm q z a (p1 p2 : point) :
  combine_points q z a p1 p2 = combine_points q a z p2 p1.
Proof.
  unfold combine_points. revert p2.
  induction p1 as [|x p1 IH]; intros [|y p2]; simpl; try done.
  f_equal; [|apply IH]. unfold GF.add. f_equal. lia.
Qed.

Section LineOrder.
Variable P : ProjectiveSpace.
Hypothesis Hq : Z.prime (order P).

Let q := order P.

Lemma combine_points_0_1 (p1 p2 : point) :
  length p1 = length p2 → Forall (fun x => 0 ≤ x < q) p2 →
  combine_points q 0 1 p1 p2 = p2.
Proof.
  intros Hlen Hred. rewrite combine_points_comm.
  apply (combine_points_1_0 P Hq); [done|done].
Qed.

Lemma combine_points_0_0 (p1 p2 : point) :
  Forall (fun x => x = 0) (combine_points q 0 0 p1 p2).
Proof.
  unfold combine_points. revert p2.
  induction p1 as [|x p1 IH]; intros [|y p2]; simpl; try constructor;
    [|apply IH].
  unfold GF.add, GF.mul. rewrite !Z.mul_0_l.
  pose proof (order_gt_1 q Hq). rewrite !Z.mod_0_l by lia. done.
Qed.

(** No turn of the loop yields a point from the pair [(0, 0)]. *)
Lemma line_point_coefficients (p1 p2 : point) z a p :
  is_point P p1 → is_point P p2 →
  line_point P p1 p2 (z, a) = Ok p → a mod q ≠ 0 ∨ z mod q ≠ 0.
Proof.
  intros (Hl1 & _) (Hl2 & _) Hp.
  destruct (decide (a mod q = 0)) as [Ha|]; [|by left].
  destruct (decide (z mod q = 0)) as [Hz|]; [|by right]. exfalso.
  unfold line_point in Hp. simpl in Hp. fold q in Hp.
  pose proof (order_gt_1 q Hq) as Hq1.
  assert (0 mod q = 0) as H0 by (apply Z.mod_0_l; lia).
  rewrite (combine_points_mod P Hq z a 0 0) in Hp by (fold q; congruence).
  fold q in Hp.
  apply projective_space_Ok in Hp as (c & Hc & _);
    [|rewrite length_map, (combine_points_length P) by lia; done].
  fold q in Hc. unfold q in Hc.
  rewrite !(of_Z_reduced P (combine_points (order P) 0 0 p1 p2)) in Hc
    by apply (combine_points_reduced P Hq).
  assert (last_nonzero (combine_points q 0 0 p1 p2) = None) as Hn
    by apply last_nonzero_None, combine_points_0_0.
  unfold q in Hn. rewrite Hn in Hc. done.
Qed.

Variables p1 p2 : point.
Hypothesis Hp1 : is_point P p1.
Hypothesis Hp2 : is_point P p2.

Lemma line_point_1_0 : line_point P p1 p2 (1, 0) = Ok p1.
Proof.
  unfold line_point. simpl. fold q.
  destruct Hp1 as (Hl1 & Hr1 & _). destruct Hp2 as (Hl2 & _).
  rewrite (combine_points_1_0 P Hq) by (done || lia).
  rewrite (of_Z_reduced P) by done.
  by apply projective_space_point.
Qed.

Lemma line_point_0_1 : line_point P p1 p2 (0, 1) = Ok p2.
Proof.
  unfold line_point. simpl. fold q.
  destruct Hp1 as (Hl1 & _). destruct Hp2 as (Hl2 & Hr2 & _).
  rewrite combine_points_0_1 by (done || lia).
  rewrite (of_Z_reduced P) by done.
  by apply projective_space_point.
Qed.

Lemma line_point_0_a a : 0 < a < q → line_point P p1 p2 (0, a) = Ok p2.
Proof.
  intros Ha. rewrite <- line_point_0_1.
  rewrite <- (line_point_scale P Hq p1 p2 Hp1 Hp2 a 0 1)
    by (rewrite Z.mod_small; lia).
  rewrite Z.mul_0_r, Z.mul_1_r, Z.mod_0_l, Z.mod_small by (fold q; lia).
  done.
Qed.

(** Every point of the line is a combination of the two points. *)
Lemma line_point_combination za p :
  line_point P p1 p2 za = Ok p →
  ∃ c d, p = combine_points q c d p1 p2.
Proof.
  destruct za as [z a]. unfold line_point. simpl. fold q. intros Hp.
  apply projective_space_Ok in Hp as (c & _ & ->);
    [|destruct Hp1 as (Hl1 & _), Hp2 as (Hl2 & _);
      rewrite length_map, (combine_points_length P) by lia; done].
  fold q.
  unfold q.
  rewrite !(of_Z_reduced P (combine_points (order P) z a p1 p2))
    by apply (combine_points_reduced P Hq).
  rewrite (combine_points_scale P). eauto.
Qed.

Hypothesis Hne : p1 ≠ p2.

(** A combination of the two points that is a point lies on the line. *)
Lemma line_point_in_line z a p l :
  line_point P p1 p2 (z, a) = Ok p → points_on_line p1 p2 P = Ok l → p ∈ l.
Proof.
  intros Hp Hl.
  destruct (points_on_line_spec P Hq p1 p2 Hp1 Hp2 Hne) as (l0 & Hl0 & _ & Hel).
  rewrite Hl in Hl0. injection Hl0 as <-.
  apply Hel. exists (z mod q, a mod q).
  pose proof (order_gt_1 q Hq) as Hq1.
  pose proof (line_point_coefficients p1 p2 z a p Hp1 Hp2 Hp) as Hza.
  split.
  - apply elem_of_line_coefficients. fold q.
    pose proof (Z.mod_pos_bound z q). pose proof (Z.mod_pos_bound a q). lia.
  - rewrite <- Hp. unfold line_point. simpl. fold q. do 2 f_equal.
    apply (combine_points_mod P Hq); apply Z.mod_mod; lia.
Qed.

Lemma points_on_line_first_two :
  ∃ rest, points_on_line p1 p2 P = Ok (p2 :: p1 :: rest).
Proof.
  pose proof (order_gt_1 q Hq) as Hq1.
  destruct (points_on_line_spec P Hq p1 p2 Hp1 Hp2 Hne) as (l & Hl & _ & _).
  destruct (line_coefficients_head q) as [rest Hco]; [lia|].
  unfold points_on_line in *. fold q in Hl |- *. rewrite Hco in Hl |- *.
  rewrite (seqZ_cons 1 (q - 1)) in Hl |- * by lia.
  rewrite (seqZ_cons 0 q) in Hl |- * by lia.
  cbn [map app foldl] in Hl |- *.
  rewrite !foldl_app in Hl |- *. cbn [foldl] in Hl |- *.
  assert (line_step P p1 p2 (Ok []) (0, 1) = Ok [p2]) as H1.
  { unfold line_step. simpl. pose proof line_point_0_1 as H.
    unfold line_point in H. simpl in H. rewrite H. done. }
  rewrite H1 in Hl |- *.
  rewrite (foldl_line_step_same P p1 p2 _ [p2]) in Hl |- *.
  2,3: intros [z a] Hin; apply list_elem_of_fmap in Hin as (a' & Heq & Hin);
    simplify_eq; apply elem_of_seqZ in Hin; exists p2;
    (split; [apply line_point_0_a; lia|set_solver]).
  assert (line_step P p1 p2 (Ok [p2]) (1, 0) = Ok [p2; p1]) as H2.
  { unfold line_step. simpl. pose proof line_point_1_0 as H.
    unfold line_point in H. simpl in H. rewrite H. simpl.
    rewrite bool_decide_eq_false_2; [done|]. set_solver. }
  rewrite H2 in Hl |- *.
  exists (drop 2 l). rewrite Hl. f_equal.
  apply foldl_line_step_prefix in Hl as [rest' ->]. done.
Qed.

End LineOrder.

(** X1: the list [points_on_line] builds starts with the second point,
    followed by the first: the loops reach the pairs [(0, alpha)] before
    the pair [(1, 0)]. *)
Theorem points_on_line_order (P : ProjectiveSpace) (p1 p2 : point) :
  Z.prime (order P) → is_point P p1 → is_point P p2 → p1 ≠ p2 →
  ∃ rest, points_on_line p1 p2 P = Ok (p2 :: p1 :: rest).
Proof. intros Hq Hp1 Hp2 Hne. by apply points_on_line_first_two. Qed.

(** ** Lines as sets of points *)

Lemma combine_points_same q z a (p : point) :
  combine_points q z a p p = map (GF.mul q (z + a)) p.
Proof.
  unfold combine_points. induction p as [|x p IH]; simpl; [done|].
  f_equal; [|apply IH]. unfold GF.add, GF.mul. eqm_ring q.
Qed.

(** A combination of two combinations is a combination. *)
Lemma combine_points_combine q z a c1 d1 c2 d2 (p1 p2 : point) :
  combine_points q z a (combine_points q c1 d1 p1 p2)
                       (combine_points q c2 d2 p1 p2)
  = combine_points q (z * c1 + a * c2) (z * d1 + a * d2) p1 p2.
Proof.
  unfold combine_points. revert p2.
  induction p1 as [|x p1 IH]; intros [|y p2]; simpl; try done.
  f_equal; [|apply IH]. unfold GF.add, GF.mul. eqm_ring q.
Qed.

Section LineSet.
Variable P : ProjectiveSpace.
Hypothesis Hq : Z.prime (order P).

Let q := order P.

(** The loop of [points_on_line] on one point taken twice: the turns
    before the pair [(1, q - 1)] yield the point, that turn the zero
    vector. *)
Lemma line_point_same (p : point) z a :
  is_point P p → (z + a) mod q ≠ 0 → line_point P p p (z, a) = Ok p.
Proof.
  intros Hp Hza. unfold line_point. simpl.
  rewrite combine_points_same.
  rewrite (of_Z_reduced P) by apply (scale_reduced P Hq).
  rewrite (projective_space_scale P Hq)
    by (done || destruct Hp as [-> _]; lia).
  by apply projective_space_point.
Qed.

Lemma line_point_same_zero (p : point) z a :
  is_point P p → (z + a) mod q = 0 →
  line_point P p p (z, a) = Raise ValueError.
Proof.
  intros Hp Hza. unfold line_point. simpl.
  rewrite combine_points_same.
  rewrite (of_Z_reduced P) by apply (scale_reduced P Hq).
  rewrite (projective_space_full P) by (rewrite length_map; apply Hp).
  rewrite (of_Z_reduced P) by apply (scale_reduced P Hq).
  assert (last_nonzero (map (GF.mul (order P) (z + a)) p) = None) as ->; [|done].
  by apply last_nonzero_None, (scale_zero P Hq).
Qed.

Lemma points_on_line_twice (p : point) :
  is_point P p → points_on_line p p P = Raise ValueError.
Proof.
  intros Hp. pose proof (order_gt_1 q Hq) as Hq1.
  destruct (line_coefficients_head q) as [rest Hco]; [lia|].
  unfold points_on_line. fold q. rewrite Hco.
  replace q with ((q - 1) + 1) at 2 by lia.
  rewrite (seqZ_app 0 (q - 1) 1) by lia.
  rewrite (seqZ_cons (0 + (q - 1)) 1),
    (seqZ_nil (Z.succ (0 + (q - 1))) (Z.pred 1)) by lia.
  rewrite map_app. cbn [map]. rewrite <- !app_assoc. cbn [app].
  rewrite app_assoc, foldl_app. cbn [foldl].
  destruct (foldl_line_step P p p
              (map (pair 0) (seqZ 1 (q - 1)) ++ map (pair 1) (seqZ 0 (q - 1))) [])
    as (l & -> & _ & _).
  { intros [z a] Hin. exists p. apply line_point_same; [done|].
    apply elem_of_app in Hin as [Hin|Hin];
      apply list_elem_of_fmap in Hin as (a' & Heq & Hin); simplify_eq;
      apply elem_of_seqZ in Hin; fold q; rewrite Z.mod_small; lia. }
  assert (line_step P p p (Ok l) (1, 0 + (q - 1)) = Raise ValueError) as ->.
  { unfold line_step. simpl.
    pose proof (line_point_same_zero p 1 (0 + (q - 1)) Hp) as H.
    unfold line_point in H. simpl in H. rewrite H; [done|].
    replace (1 + (0 + (q - 1))) with q by lia. apply Z.mod_same. lia. }
  apply foldl_line_step_Raise.
Qed.

Variables p1 p2 : point.
Hypothesis Hp1 : is_point P p1.
Hypothesis Hp2 : is_point P p2.
Hypothesis Hne : p1 ≠ p2.

Lemma line_member_is_point l p :
  points_on_line p1 p2 P = Ok l → p ∈ l → is_point P p.
Proof.
  intros Hl Hin.
  destruct (points_on_line_spec P Hq p1 p2 Hp1 Hp2 Hne) as (l0 & Hl0 & _ & Hel).
  rewrite Hl in Hl0. injection Hl0 as <-.
  apply Hel in Hin as (za & _ & Hp).
  by apply (projective_space_is_point P Hq) in Hp.
Qed.

Lemma line_member_combination l p :
  points_on_line p1 p2 P = Ok l → p ∈ l →
  ∃ c d, p = combine_points q c d p1 p2.
Proof.
  intros Hl Hin.
  destruct (points_on_line_spec P Hq p1 p2 Hp1 Hp2 Hne) as (l0 & Hl0 & _ & Hel).
  rewrite Hl in Hl0. injection Hl0 as <-.
  apply Hel in Hin as (za & _ & Hp).
  by apply (line_point_combination P Hq) in Hp.
Qed.

(** The line through two points of a line lies in it. *)
Lemma line_of_members l r1 r2 l' p :
  points_on_line p1 p2 P = Ok l → r1 ∈ l → r2 ∈ l →
  points_on_line r1 r2 P = Ok l' → r1 ≠ r2 → p ∈ l' → p ∈ l.
Proof.
  intros Hl Hr1 Hr2 Hl' Hr Hin.
  pose proof (line_member_is_point l r1 Hl Hr1) as Hpr1.
  pose proof (line_member_is_point l r2 Hl Hr2) as Hpr2.
  destruct (line_member_combination l r1 Hl Hr1) as (c1 & d1 & Hc1).
  destruct (line_member_combination l r2 Hl Hr2) as (c2 & d2 & Hc2).
  destruct (points_on_line_spec P Hq r1 r2 Hpr1 Hpr2 Hr) as (l0 & Hl0 & _ & Hel).
  rewrite Hl' in Hl0. injection Hl0 as <-.
  apply Hel in Hin as ([z a] & _ & Hp).
  apply (line_point_in_line P Hq p1 p2 Hp1 Hp2 Hne
           (z * c1 + a * c2) (z * d1 + a * d2) p l); [|done].
  rewrite <- Hp. unfold line_point. simpl. fold q. do 2 f_equal.
  rewrite Hc1, Hc2. symmetry. apply combine_points_combine.
Qed.

End LineSet.

(** X2: the line "through" one point taken twice does not exist: the
    loop reaches the zero vector, which Sage refuses as a point. (The
    closure loop skips such pairs.) *)
Theorem points_on_line_same_point (P : ProjectiveSpace) (p : point) :
  Z.prime (order P) → is_point P p →
  points_on_line p p P = Raise ValueError.
Proof. intros Hq Hp. by apply points_on_line_twice. Qed.

(** X3: the list of the points of the line does not depend on the order
    of the two points, up to the order of its entries. *)
Theorem points_on_line_sym (P : ProjectiveSpace) (p1 p2 : point) :
  Z.prime (order P) → is_point P p1 → is_point P p2 → p1 ≠ p2 →
  ∃ l l', points_on_line p1 p2 P = Ok l ∧ points_on_line p2 p1 P = Ok l' ∧
          l ≡ₚ l'.
Proof.
  intros Hq Hp1 Hp2 Hne.
  destruct (points_on_line_spec P Hq p1 p2 Hp1 Hp2 Hne) as (l & Hl & Hnd & Hel).
  destruct (points_on_line_spec P Hq p2 p1 Hp2 Hp1 (not_eq_sym Hne))
    as (l' & Hl' & Hnd' & Hel').
  exists l, l'. split; [done|]. split; [done|].
  apply NoDup_Permutation; [done|done|]. intros p.
  rewrite Hel, Hel'.
  split; intros ([z a] & Hin & Hp); exists (a, z);
    (split; [apply elem_of_line_coefficients in Hin;
             apply elem_of_line_coefficients; tauto|]);
    rewrite <- Hp; unfold line_point; simpl; do 2 f_equal;
    apply combine_points_comm.
Qed.

(** X4: a line is the line through any two of its points: the list built
    from two distinct points of a line holds the points of that line. *)
Theorem points_on_line_through_members (P : ProjectiveSpace)
    (p1 p2 r1 r2 : point) (l : list point) :
  Z.prime (order P) → is_point P p1 → is_point P p2 → p1 ≠ p2 →
  points_on_line p1 p2 P = Ok l → r1 ∈ l → r2 ∈ l → r1 ≠ r2 →
  ∃ l', points_on_line r1 r2 P = Ok l' ∧ l' ≡ₚ l.
Proof.
  intros Hq Hp1 Hp2 Hne Hl Hr1 Hr2 Hr.
  pose proof (line_member_is_point P Hq p1 p2 Hp1 Hp2 Hne l r1 Hl Hr1) as Hpr1.
  pose proof (line_member_is_point P Hq p1 p2 Hp1 Hp2 Hne l r2 Hl Hr2) as Hpr2.
  destruct (points_on_line_spec P Hq r1 r2 Hpr1 Hpr2 Hr) as (l' & Hl' & Hnd' & _).
  exists l'. split; [done|].
  apply submseteq_length_Permutation.
  - apply NoDup_submseteq; [done|]. intros p Hin.
    by apply (line_of_members P Hq p1 p2 Hp1 Hp2 Hne l r1 r2 l' p).
  - pose proof (points_on_line_length P Hq p1 p2 Hp1 Hp2 Hne l Hl).
    pose proof (points_on_line_length P Hq r1 r2 Hpr1 Hpr2 Hr l' Hl'). lia.
Qed.

(** ** The restored hyperplane *)

(** Every closed list that holds the points given holds the closure. *)
Lemma closure_least fuel P (points l big : list point) :
  reconstruct_hyperplane fuel points P = Ok {[1%nat := l]} →
  closed P big → (∀ p, p ∈ points → p ∈ big) → ∀ p, p ∈ l → p ∈ big.
Proof.
  intros Hrec Hcl Hin.
  apply Forall_forall.
  apply (reconstruct_hyperplane_Forall P (fun p => p ∈ big)) with fuel points;
    [|by apply Forall_forall|done].
  intros p1 p2 pts H1 H2 Hne Hpts.
  destruct (Hcl p1 p2 H1 H2 Hne) as (pts' & Hpts' & Hsub).
  rewrite Hpts in Hpts'. injection Hpts' as <-. by apply Forall_forall.
Qed.

Section ClosureSpan.
Variable P : ProjectiveSpace.
Hypothesis Hq : Z.prime (order P).

Let q := order P.
Let n := S (dimension P).

Variable points : list point.
Hypothesis Hpoints : Forall (is_point P) points.

(** The points of a line through two points of the span are in the
    span. *)
Lemma line_in_span p1 p2 pts :
  is_point P p1 ∧ span q n points p1 → is_point P p2 ∧ span q n points p2 →
  p1 ≠ p2 → points_on_line p1 p2 P = Ok pts →
  Forall (fun p => is_point P p ∧ span q n points p) pts.
Proof.
  intros [Hp1 Hs1] [Hp2 Hs2] Hne Hpts. apply Forall_forall. intros p Hin.
  split; [by eapply (line_member_is_point P Hq p1 p2)|].
  destruct (line_member_combination P Hq p1 p2 Hp1 Hp2 Hne pts p Hpts Hin)
    as (c & d & ->).
  rewrite <- vadd_scale_combine.
  by apply span_add; apply span_scale.
Qed.

Lemma closure_in_span fuel l p :
  reconstruct_hyperplane fuel points P = Ok {[1%nat := l]} →
  p ∈ l → is_point P p ∧ span q n points p.
Proof.
  intros Hrec. revert p. apply Forall_forall.
  apply (reconstruct_hyperplane_Forall P
           (fun p => is_point P p ∧ span q n points p) line_in_span
           fuel points l); [|done].
  apply Forall_forall. intros p Hin. split.
  - rewrite Forall_forall in Hpoints. by apply Hpoints.
  - by apply span_row.
Qed.

Lemma span_in_closure fuel l p :
  reconstruct_hyperplane fuel points P = Ok {[1%nat := l]} →
  is_point P p → span q n points p → p ∈ l.
Proof.
  intros Hrec Hp Hs.
  destruct (reconstruct_hyperplane_closed fuel P points _ Hrec)
    as (l' & Heq & Hpre & Hcl).
  assert (l' = l) as ->.
  { apply (f_equal (fun m : gmap nat (list point) => m !! 1%nat)) in Heq.
    rewrite !lookup_singleton_eq in Heq. by injection Heq. }
  apply (span_closed_point P Hq l Hcl) with points; [|by intros r Hr; eapply elem_of_prefix|done|done].
  apply Forall_forall. intros r Hr. by eapply closure_in_span.
Qed.

End ClosureSpan.

(** X5: over a prime field [reconstruct_hyperplane] returns, once it has
    fuel for its passes, the points of the subspace spanned by the shares:
    a point is in the list returned exactly when it is a linear
    combination of the shares. *)
Theorem reconstruct_hyperplane_span P (points : list point) :
  Z.prime (order P) → Forall (is_point P) points →
  ∃ n, ∀ fuel, (n ≤ fuel)%nat →
    ∃ l, reconstruct_hyperplane fuel points P = Ok {[1%nat := l]} ∧
         ∀ p, p ∈ l ↔
              is_point P p ∧ span (order P) (S (dimension P)) points p.
Proof.
  intros Hq Hpts.
  exists (3 * (length points + space_size P) + 3)%nat. intros fuel Hf.
  destruct (closure_terminates_from P Hq points Hpts
              (length points + space_size P) fuel points)
    as (l & Hl & _ & _); [apply extends_refl|lia..|].
  exists l. split; [done|]. intros p. split.
  - by apply (closure_in_span P Hq points Hpts fuel l).
  - intros [Hp Hs]. by apply (span_in_closure P Hq points Hpts fuel l).
Qed.

(** X6: whatever the input, a result of [reconstruct_hyperplane] is the
    least closed list over its input: one entry under the key 1, a list
    that holds the input and every line through two of its points, and
    that lies in every list with these two properties. *)
Theorem reconstruct_hyperplane_least fuel P (points : list point) h :
  reconstruct_hyperplane fuel points P = Ok h →
  ∃ l, h = {[1%nat := l]} ∧ closed P l ∧ (∀ p, p ∈ points → p ∈ l) ∧
       ∀ big, closed P big → (∀ p, p ∈ points → p ∈ big) →
              ∀ p, p ∈ l → p ∈ big.
Proof.
  intros Hrec.
  destruct (reconstruct_hyperplane_closed fuel P points h Hrec)
    as (l & -> & Hpre & Hcl).
  exists l. split; [done|]. split; [done|]. split.
  - intros p Hp. by eapply elem_of_prefix.
  - intros big Hbig Hin. by apply (closure_least fuel P points l big).
Qed.

(** ** Decryption and the form of the shares *)

Lemma mapM_Ok_Forall2 {A B} (f : A → result B) (l : list A) (r : list B) :
  mapM f l = Ok r ↔ Forall2 (fun x y => f x = Ok y) l r.
Proof.
  revert r. induction l as [|x l IH]; intros r; simpl.
  - split.
    + intros [= <-]. constructor.
    + intros H. by inversion H.
  - split.
    + intros H. apply result_bind_Ok in H as (y & Hy & H).
      apply result_bind_Ok in H as (k & Hk & H). injection H as <-.
      constructor; [done|]. by apply IH.
    + intros H. inversion H as [|? y ? k Hy Hk]; subst.
      rewrite Hy. simpl. apply IH in Hk. rewrite Hk. done.
Qed.

(** The converse of [decrypt_Ok_inv]: input that passes the checks is
    normalised, closed and intersected. *)
Lemma decrypt_Ok_intro fuel (shares line : list (list Z)) first P sh ln h :
  line !! 0%nat = Some first →
  P = mkSpace (Z.to_nat (Z.of_nat (length first) - 1))
              (Z.of_nat (length line) - 1) →
  1 < order P → 1 < Z.of_nat (length first) - 1 →
  1 < Z.of_nat (length shares) →
  Z.of_nat (length first) - 1 ≤ Z.of_nat (length shares) →
  GF.is_prime (order P) = true →
  mapM (projective_space P) shares = Ok sh →
  mapM (projective_space P) line = Ok ln →
  reconstruct_hyperplane fuel sh P = Ok h →
  t_threshold_decrypt fuel shares line
  = Ok [RestoredHyperplane h;
        DecryptedSecret (intersect_hyperplane_w_secret_line h ln)].
Proof.
  intros Hfirst -> Hq Hd Hn Hnd Hprime Hsh Hln Hrec. simpl in *.
  unfold t_threshold_decrypt. apply index_Ok in Hfirst. rewrite Hfirst. simpl.
  replace (Z.of_nat (length line) - 1 <=? 1) with false
    by (symmetry; apply Z.leb_gt; lia).
  replace (Z.of_nat (length first) - 1 <=? 1) with false
    by (symmetry; apply Z.leb_gt; lia).
  replace (Z.of_nat (length shares) <=? 1) with false
    by (symmetry; apply Z.leb_gt; lia).
  replace (Z.of_nat (length shares) <? Z.of_nat (length first) - 1)
    with false by (symmetry; apply Z.ltb_ge; lia).
  rewrite Hprime. simpl. rewrite Hsh. simpl. rewrite Hln. simpl.
  rewrite Hrec. reflexivity.
Qed.

Lemma closure_singleton_inv fuel P (points : list point) h :
  reconstruct_hyperplane fuel points P = Ok h →
  ∃ l, h = {[1%nat := l]} ∧ reconstruct_hyperplane fuel points P = Ok {[1%nat := l]}
       ∧ closed P l ∧ ∀ p, p ∈ points → p ∈ l.
Proof.
  intros Hrec.
  destruct (reconstruct_hyperplane_closed fuel P points h Hrec)
    as (l & -> & Hpre & Hcl).
  exists l. split; [done|]. split; [done|]. split; [done|].
  intros p Hp. by eapply elem_of_prefix.
Qed.

(** X7: the order in which the shares are given does not matter for the
    decrypted secret: when decryption prints a set for some shares, it
    prints the same set for the shares in any other order (the restored
    hyperplane is then listed in another order). *)
Theorem decrypt_share_order fuel (shares shares' line : list (list Z)) h s :
  shares ≡ₚ shares' →
  t_threshold_decrypt fuel shares line
    = Ok [RestoredHyperplane h; DecryptedSecret s] →
  ∃ n, ∀ fuel', (n ≤ fuel')%nat →
    ∃ h', t_threshold_decrypt fuel' shares' line
          = Ok [RestoredHyperplane h'; DecryptedSecret s].
Proof.
  intros Hperm Hdec.
  apply decrypt_Ok_inv in Hdec
    as [?|[?|[?|(first & sh & ln & h0 & P & Hfirst & HP & Hq1 & Hd & Hn & Hnd
                 & Hprime & Hsh & Hln & Hrec & Hmsg)]]]; try done.
  injection Hmsg as -> ->.
  pose proof (is_prime_prime _ Hprime) as Hq.
  apply mapM_Ok_Forall2 in Hsh.
  destruct (Permutation_Forall2 Hperm Hsh) as (sh' & Hperm' & Hsh').
  assert (Forall (is_point P) sh') as Hpts'.
  { clear -Hsh' Hq. induction Hsh' as [|v p ? ? Hv _ IH]; constructor; [|done].
    by apply (projective_space_is_point P Hq) in Hv. }
  apply mapM_Ok_Forall2 in Hsh'.
  destruct (closure_singleton_inv fuel P sh h0 Hrec) as (l & -> & Hrec0 & Hcl & Hin).
  exists (3 * (length sh' + space_size P) + 3)%nat. intros fuel' Hf.
  destruct (closure_terminates_from P Hq sh' Hpts'
              (length sh' + space_size P) fuel' sh')
    as (l' & Hl' & Hext' & Hcl'); [apply extends_refl|lia..|].
  exists {[1%nat := l']}.
  assert (∀ p, p ∈ l ↔ p ∈ l') as Hll.
  { intros x. split.
    - apply (closure_least fuel P sh l l' Hrec0 Hcl').
      intros y Hy. rewrite Hperm' in Hy.
      apply extends_prefix in Hext'. by eapply elem_of_prefix.
    - apply (closure_least fuel' P sh' l' l Hl' Hcl).
      intros y Hy. rewrite <- Hperm' in Hy. by apply Hin. }
  assert (intersect_hyperplane_w_secret_line {[1%nat := l]} ln
          = intersect_hyperplane_w_secret_line {[1%nat := l']} ln) as ->.
  { apply set_eq. intros p. rewrite !intersect_elem.
    split; intros (Hp & k & pts & Hk & Hpts);
      apply lookup_singleton_Some in Hk as [<- <-];
      (split; [done|]); eexists 1%nat, _;
      (split; [apply lookup_singleton_eq|by apply Hll]). }
  apply (decrypt_Ok_intro fuel' shares' line first P sh' ln {[1%nat := l']});
    try done; by rewrite <- Hperm.
Qed.

(** ** Shares as coordinate vectors *)

(** Only the residues of the coordinates count. *)
Lemma projective_space_of_Z P (v : list Z) :
  projective_space P (map (GF.of_Z (order P)) v) = projective_space P v.
Proof.
  unfold projective_space. rewrite !length_map.
  assert (map (GF.of_Z (order P)) (map (GF.of_Z (order P)) v)
          = map (GF.of_Z (order P)) v) as ->; [|done].
  rewrite map_map. apply map_ext. intros x. unfold GF.of_Z.
  destruct (decide (order P = 0)) as [->|]; [by rewrite !Zmod_0_r|].
  by apply Z.mod_mod.
Qed.

Lemma projective_space_Zmul P k (v : list Z) :
  Z.prime (order P) → k mod order P ≠ 0 → length v ≠ dimension P →
  projective_space P (map (Z.mul k) v) = projective_space P v.
Proof.
  intros Hq Hk Hlen. rewrite <- projective_space_of_Z, map_map.
  by apply (projective_space_scale P Hq k v).
Qed.

(** A vector of the right length with a coordinate that is not zero in
    the field is accepted as a point. *)
Lemma projective_space_total P (v : list Z) :
  length v = S (dimension P) →
  ¬ Forall (fun x => x mod order P = 0) v →
  ∃ p, projective_space P v = Ok p.
Proof.
  intros Hlen Hnz. rewrite projective_space_full by done.
  destruct (last_nonzero _) as [c|] eqn:Hc; [eauto|].
  exfalso. apply Hnz. apply last_nonzero_None in Hc.
  rewrite Forall_fmap in Hc. done.
Qed.

(** A vector one coordinate short is read with a final one. *)
Lemma projective_space_completed P (v : list Z) :
  length v = dimension P →
  projective_space P v = projective_space P (v ++ [1]).
Proof. apply projective_space_short. Qed.

Lemma projective_space_zero P (v : list Z) :
  length v = S (dimension P) → Forall (fun x => x mod order P = 0) v →
  projective_space P v = Raise ValueError.
Proof.
  intros Hlen Hz. rewrite projective_space_full by done.
  assert (last_nonzero (map (GF.of_Z (order P)) v) = None) as ->; [|done].
  apply last_nonzero_None. by rewrite Forall_fmap.
Qed.

Lemma mapM_total {A B} (f : A → result B) (l : list A) :
  Forall (fun x => ∃ y, f x = Ok y) l → ∃ r, mapM f l = Ok r.
Proof.
  induction 1 as [|x l [y Hy] _ [r IH]]; [by exists []|].
  exists (y :: r). simpl. rewrite Hy. simpl. by rewrite IH.
Qed.

(** [mapM] stops at the first element that fails. *)
Lemma mapM_Raise {A B} (f : A → result B) (good : list A) bad rest e :
  Forall (fun x => ∃ y, f x = Ok y) good → f bad = Raise e →
  mapM f (good ++ bad :: rest) = Raise e.
Proof.
  intros Hgood Hbad. induction Hgood as [|x l [y Hy] _ IH]; simpl.
  - by rewrite Hbad.
  - rewrite Hy. simpl. by rewrite IH.
Qed.

(** X8: shares are projective points: when every share is replaced by a
    multiple of itself, by an integer that is not zero in the field whose
    order is read off the secret line, decryption does the same, result or
    exception. This holds for shares that are not one coordinate short of
    the first point of the line: Sage completes such a share by a final
    one, which a factor does not keep. *)
Theorem decrypt_scaled_shares fuel (shares shares' line : list (list Z)) :
  Forall2 (fun v' v => ∃ k, k mod (Z.of_nat (length line) - 1) ≠ 0
                            ∧ v' = map (Z.mul k) v) shares' shares →
  (∀ first, line !! 0%nat = Some first →
            Forall (fun v => S (length v) ≠ length first) shares) →
  t_threshold_decrypt fuel shares' line = t_threshold_decrypt fuel shares line.
Proof.
  intros Hsc Hlen. unfold t_threshold_decrypt.
  destruct (index line 0) as [first| |] eqn:Hfirst; simpl; [|done..].
  apply index_Ok in Hfirst. specialize (Hlen first Hfirst).
  rewrite (Forall2_length _ _ _ Hsc).
  destruct (_ || _ || _) eqn:Hc1; [done|]. destruct (_ <? _); [done|].
  destruct (GF.is_prime _) eqn:Hprime; simpl; [|done].
  apply is_prime_prime in Hprime.
  apply orb_false_iff in Hc1 as [Hc1 _]. apply orb_false_iff in Hc1 as [_ Hd].
  apply Z.leb_gt in Hd.
  set (P := mkSpace _ _).
  assert (mapM (projective_space P) shares' = mapM (projective_space P) shares)
    as ->; [|done].
  induction Hsc as [|v' v l' l (k & Hk & ->) _ IH]; [done|].
  apply Forall_cons in Hlen as [Hv Hlen].
  simpl. rewrite (projective_space_Zmul P k v Hprime Hk)
    by (unfold P; simpl; lia).
  by rewrite IH.
Qed.

(** ** What decryption raises *)

(** X9: decryption raises nothing on well-formed input: when the secret
    line is not empty and every share and every point of the line has as
    many coordinates as the first point of the line, not all of them zero
    in the field, a call with fuel for the closure returns, with what it
    printed. *)
Theorem decrypt_total (shares line : list (list Z)) (first : list Z) :
  line !! 0%nat = Some first →
  Forall (fun v => length v = length first ∧
                   ¬ Forall (fun x => x mod (Z.of_nat (length line) - 1) = 0) v)
         (shares ++ line) →
  ∃ n, ∀ fuel, (n ≤ fuel)%nat →
    ∃ msgs, t_threshold_decrypt fuel shares line = Ok msgs.
Proof.
  intros Hfirst Hwf. unfold t_threshold_decrypt.
  apply index_Ok in Hfirst. rewrite Hfirst. simpl.
  destruct (_ || _ || _) eqn:Hc1; [exists 0%nat; eauto|].
  destruct (_ <? _) eqn:Hc2; [exists 0%nat; eauto|].
  destruct (GF.is_prime _) eqn:Hprime; simpl; [|exists 0%nat; eauto].
  apply is_prime_prime in Hprime.
  apply orb_false_iff in Hc1 as [Hc1 _]. apply orb_false_iff in Hc1 as [_ Hd].
  apply Z.leb_gt in Hd.
  set (P := mkSpace (Z.to_nat (Z.of_nat (length first) - 1))
                    (Z.of_nat (length line) - 1)) in *.
  assert (Forall (fun v => ∃ p, projective_space P v = Ok p) (shares ++ line))
    as Hok.
  { eapply Forall_impl; [exact Hwf|]. intros v [Hlen Hnz].
    apply projective_space_total; [|done]. simpl. lia. }
  apply Forall_app in Hok as [Hsh Hln].
  apply mapM_total in Hsh as [sh Hsh]. apply mapM_total in Hln as [ln Hln].
  rewrite Hsh, Hln. simpl.
  assert (Forall (is_point P) sh) as Hpts.
  { apply mapM_Ok_Forall2 in Hsh. clear -Hsh Hprime.
    induction Hsh as [|v p ? ? Hv _ IH]; constructor; [|done].
    by apply (projective_space_is_point P Hprime) in Hv. }
  exists (3 * (length sh + space_size P) + 3)%nat. intros fuel Hf.
  destruct (closure_terminates_from P Hprime sh Hpts
              (length sh + space_size P) fuel sh)
    as (l & -> & _ & _); [apply extends_refl|lia..|].
  simpl. eauto.
Qed.

(** [mapM] sees an element through the function only. *)
Lemma mapM_same {A B} (f : A → result B) (good : list A) x y rest :
  f x = f y → mapM f (good ++ x :: rest) = mapM f (good ++ y :: rest).
Proof.
  intros Hxy. induction good as [|g good IH]; simpl; [by rewrite Hxy|].
  by rewrite IH.
Qed.

(** X10: what decryption does with a malformed share. An empty secret
    line is an [IndexError]. When the checks on the sizes pass, the first
    share that is not well-formed decides: a share that has neither the
    number of coordinates of the first point of the line nor one less is
    a [TypeError], and a share with that number of coordinates, all zero
    in the field, is a [ValueError]. A share with one coordinate less is
    no error: it is read as the share with a final one added. *)
Theorem decrypt_malformed_input fuel (line good rest : list (list Z))
    (first bad : list Z) :
  t_threshold_decrypt fuel (good ++ bad :: rest) [] = Raise IndexError ∧
  (line !! 0%nat = Some first →
   GF.is_prime (Z.of_nat (length line) - 1) = true →
   1 < Z.of_nat (length first) - 1 →
   Z.of_nat (length first) - 1 ≤ Z.of_nat (length (good ++ bad :: rest)) →
   Forall (fun v => length v = length first ∧
                    ¬ Forall (fun x => x mod (Z.of_nat (length line) - 1) = 0) v)
          good →
   (length bad ≠ length first → S (length bad) ≠ length first →
    t_threshold_decrypt fuel (good ++ bad :: rest) line = Raise TypeError) ∧
   (length bad = length first →
    Forall (fun x => x mod (Z.of_nat (length line) - 1) = 0) bad →
    t_threshold_decrypt fuel (good ++ bad :: rest) line = Raise ValueError) ∧
   (S (length bad) = length first →
    t_threshold_decrypt fuel (good ++ bad :: rest) line
    = t_threshold_decrypt fuel (good ++ (bad ++ [1]) :: rest) line)).
Proof.
  split; [done|]. intros Hfirst Hprime Hd Hnd Hgood.
  pose proof (is_prime_prime _ Hprime) as Hq.
  pose proof (order_gt_1 _ Hq) as Hq1.
  unfold t_threshold_decrypt.
  apply index_Ok in Hfirst. rewrite Hfirst. simpl.
  replace (length (good ++ (bad ++ [1]) :: rest))
    with (length (good ++ bad :: rest)) by (by rewrite !length_app).
  replace (Z.of_nat (length line) - 1 <=? 1) with false
    by (symmetry; apply Z.leb_gt; lia).
  replace (Z.of_nat (length first) - 1 <=? 1) with false
    by (symmetry; apply Z.leb_gt; lia).
  replace (Z.of_nat (length (good ++ bad :: rest)) <=? 1) with false
    by (symmetry; apply Z.leb_gt; lia).
  replace (Z.of_nat (length (good ++ bad :: rest)) <? Z.of_nat (length first) - 1)
    with false by (symmetry; apply Z.ltb_ge; lia).
  rewrite Hprime. simpl.
  set (P := mkSpace (Z.to_nat (Z.of_nat (length first) - 1))
                    (Z.of_nat (length line) - 1)) in *.
  assert (Forall (fun v => ∃ p, projective_space P v = Ok p) good) as Hok.
  { eapply Forall_impl; [exact Hgood|]. intros v [Hlen Hnz].
    apply projective_space_total; [|done]. simpl. lia. }
  split; [|split].
  - intros Hlen Hshort.
    rewrite (mapM_Raise (projective_space P) good bad rest TypeError);
      [done|done|].
    apply projective_space_other; simpl; lia.
  - intros Hlen Hz.
    rewrite (mapM_Raise (projective_space P) good bad rest ValueError);
      [done|done|].
    apply projective_space_zero; [simpl; lia|done].
  - intros Hlen.
    rewrite (mapM_same (projective_space P) good bad (bad ++ [1]) rest);
      [done|].
    apply projective_space_completed. simpl. lia.
Qed.

(** ** The threshold *)

Section Threshold.
Variable P : ProjectiveSpace.
Hypothesis Hq : Z.prime (order P).

Let q := order P.
Let n := S (dimension P).

Variables secret pole : point.
Variable shares : list point.
Hypothesis Hsecret : is_point P secret.
Hypothesis Hpole : is_point P pole.
Hypothesis Hdot : dot q pole secret = 0.
Hypothesis Hshares : Forall (in_kernel P pole) shares.
Hypothesis Hrank : (dimension P ≤ rank q shares)%nat.
Hypothesis Hdim : (1 ≤ dimension P)%nat.

Variable l : list point.
Hypothesis Hclosed : closed P l.
Hypothesis Hextends : extends P shares l.
Hypothesis Hkernel : Forall (in_kernel P pole) l.

(** Shares of full rank in the hyperplane span it. *)
Lemma secret_in_span : secret ∈ l.
Proof.
  assert (Forall (is_point P) shares) as Hsp.
  { eapply Forall_impl; [exact Hshares|]. by intros p [? _]. }
  assert (Forall (is_point P) l) as Hlp.
  { eapply Forall_impl; [exact Hkernel|]. by intros p [? _]. }
  assert (shares ≠ []) as Hnil.
  { intros Hs. rewrite Hs in Hrank. unfold rank in Hrank. simpl in Hrank. lia. }
  rewrite (rank_points P) in Hrank by done.
  rewrite Forall_forall in Hsp. rewrite Forall_forall in Hshares.
  apply (span_closed_point P Hq l Hclosed Hlp shares).
  - intros r Hr. apply extends_prefix in Hextends. by eapply elem_of_prefix.
  - apply (hyperplane_rank_span q Hq n shares pole).
    + intros r Hr. by apply (is_point_is_vector P), Hsp.
    + by apply (is_point_is_vector P).
    + by apply (is_point_nonzero P).
    + intros r Hr. by apply Hshares.
    + unfold n, q. lia.
    + by apply (is_point_is_vector P).
    + done.
  - done.
Qed.

End Threshold.

(** X11: the threshold. Of the splitters that an honest run of encryption
    prints, any selection whose matrix has rank at least the dimension is
    enough: decryption of these shares with the secret line, with fuel
    for the closure, prints the set that holds the secret and nothing
    else. *)
Theorem threshold fuel d q tape secret (line splitters shares : list point) :
  run (t_threshold_encrypt fuel d q) tape
    = Ok [Secret secret; SecretLine line; Splitters splitters] →
  (∀ p, p ∈ shares → p ∈ splitters) →
  d ≤ Z.of_nat (rank q shares) →
  ∃ n, ∀ fuel', (n ≤ fuel')%nat →
    ∃ h, t_threshold_decrypt fuel' shares line
         = Ok [RestoredHyperplane h; DecryptedSecret {[secret]}].
Proof.
  intros Henc Hsub Hrank.
  destruct (t_threshold_encrypt_Ok _ _ _ _ _ _ _ Henc)
    as (P & second & pole & HP & Hd & Hprime & Hq & Hs & Ht & Hne & Hline
        & Hpole & Hdot & Hcut & Hspl).
  assert (order P = q) as Hoq by (by rewrite HP).
  assert (dimension P = Z.to_nat d) as Hdd by (by rewrite HP).
  rewrite <- Hoq in Hq, Hprime, Hdot, Hcut, Hspl, Hrank.
  assert (2 ≤ dimension P)%nat as Hdim by lia.
  assert (dimension P = 2%nat ∧
          splitters = remove_first secret
            (filter (fun p => dot (order P) pole p = 0) (rational_points P))
          ∨ dimension P ≠ 2%nat ∧ (dimension P ≤ rank (order P) splitters)%nat ∧
            ∀ p, p ∈ splitters →
              p ∈ filter (fun p => dot (order P) pole p = 0) (rational_points P))
    as Hspl'.
  { destruct Hspl as [[-> ->]|(Hd2 & Hrk & Hall)]; [left; by rewrite Hdd|].
    right. split; [lia|]. split; [lia|done]. }
  clear Hspl.
  pose proof (splitters_in_kernel P Hq secret pole splitters Hspl') as Hker.
  assert (Forall (in_kernel P pole) shares) as Hsk.
  { apply Forall_forall. intros p Hp. rewrite Forall_forall in Hker.
    by apply Hker, Hsub. }
  assert (Forall (is_point P) shares) as Hpts.
  { eapply Forall_impl; [exact Hsk|]. by intros p [? _]. }
  destruct (line_points P Hq Hdim secret second pole line splitters
              Hs Ht Hne Hline Hspl') as (Hlpts & Hllen & Hsl).
  destruct (line_point_off_hyperplane P Hq Hdim secret second pole line
              splitters Hs Ht Hne Hline Hcut Hspl') as (x & Hx & Hdx).
  assert (dimension P ≤ length shares)%nat as Hlen.
  { pose proof (rank_cols_le_rows (order P) (length (hd [] shares))
                  (map (map (GF.of_Z (order P))) shares)) as Hle.
    rewrite length_map in Hle. unfold rank in Hrank. lia. }
  exists (3 * (length shares + space_size P) + 3)%nat. intros fuel' Hf.
  destruct (closure_terminates_from P Hq shares Hpts
              (length shares + space_size P) fuel' shares)
    as (l & Hl & Hext & Hcl); [apply extends_refl|lia..|].
  pose proof (reconstruct_hyperplane_Forall P (in_kernel P pole)
                (line_in_kernel P Hq pole) fuel' shares l Hsk Hl) as Hlk.
  exists {[1%nat := l]}.
  destruct line as [|first rest] eqn:Hlist;
    [simpl in Hllen; pose proof (order_gt_1 _ Hq); lia|].
  rewrite <- Hlist in *.
  assert (is_point P first) as Hfirst.
  { rewrite Forall_forall in Hlpts. apply Hlpts. rewrite Hlist. by left. }
  assert (intersect_hyperplane_w_secret_line {[1%nat := l]} line = {[secret]})
    as Hmeet.
  { apply set_eq. intros p. rewrite intersect_elem, elem_of_singleton. split.
    - intros (Hp & k & pts & Hk & Hin).
      apply lookup_singleton_Some in Hk as [_ <-].
      apply (line_meets_kernel_once P Hq pole secret second line x p);
        try done.
      rewrite Forall_forall in Hlk. by apply Hlk.
    - intros ->. split; [done|].
      exists 1%nat, l. split; [apply lookup_singleton_eq|].
      apply (secret_in_span P Hq secret pole shares); try done; lia. }
  rewrite <- Hmeet.
  apply (t_threshold_decrypt_Ok fuel' P shares line first {[1%nat := l]}).
  - by rewrite Hlist.
  - by destruct Hfirst.
  - done.
  - apply (order_gt_1 _ Hq).
  - done.
  - lia.
  - done.
  - done.
  - by apply mapM_projective_space.
  - by apply mapM_projective_space.
  - done.
Qed.

(** ** Arcs *)

(** [itertools.combinations(l, k)] lists the sublists of [l] with [k]
    entries. *)
Lemma elem_of_combinations {A} (k : nat) (l c : list A) :
  c ∈ combinations k l ↔ c `sublist_of` l ∧ length c = k.
Proof.
  revert k c. induction l as [|x l IH]; intros k c.
  - destruct k as [|k]; simpl.
    + rewrite list_elem_of_singleton. split.
      * intros ->. split; [constructor|done].
      * intros [_ Hlen]. by destruct c.
    + split; [by intros ?%elem_of_nil|].
      intros [Hsub Hlen]. apply sublist_nil_r in Hsub. by subst c.
  - destruct k as [|k]; simpl.
    + rewrite list_elem_of_singleton. split.
      * intros ->. split; [apply sublist_nil_l|done].
      * intros [_ Hlen]. by destruct c.
    + rewrite elem_of_app, list_elem_of_fmap. split.
      * intros [(c' & -> & Hc')|Hc].
        -- apply IH in Hc' as [Hsub Hlen]. split; [by constructor|].
           simpl. by rewrite Hlen.
        -- apply IH in Hc as [Hsub Hlen]. split; [by constructor|done].
      * intros [Hsub Hlen]. apply sublist_cons_r in Hsub as [Hsub|(c' & -> & Hsub)].
        -- right. by apply IH.
        -- left. exists c'. split; [done|]. apply IH. split; [done|].
           simpl in Hlen. lia.
Qed.

Lemma is_general_position_true (arc : list point) q :
  is_general_position arc q = true ↔
  ∀ three, three `sublist_of` arc → length three = 3%nat →
           (3 ≤ rank q three)%nat.
Proof.
  unfold is_general_position. rewrite forallb_forall. split.
  - intros H three Hsub Hlen.
    specialize (H three). rewrite negb_true_iff, Nat.ltb_ge in H.
    apply H, list_elem_of_In, elem_of_combinations. done.
  - intros H three Hin.
    apply list_elem_of_In, elem_of_combinations in Hin as [Hsub Hlen].
    rewrite negb_true_iff, Nat.ltb_ge. by apply H.
Qed.

(** A sublist of an arc is an arc. *)
Lemma is_general_position_sublist (arc arc' : list point) q :
  arc' `sublist_of` arc →
  is_general_position arc q = true → is_general_position arc' q = true.
Proof.
  intros Hsub. rewrite !is_general_position_true. intros H three H3 Hlen.
  apply H; [|done]. by etrans.
Qed.

(** The loop of [find_largest_general_position_subset]: the arc stays an
    arc, grows at its end by points of the pool its turns go through, and
    a point passed over cannot be added later. *)
Lemma arc_fold (q : Z) (todo arc : list point) :
  is_general_position arc q = true →
  ∃ added,
    foldl (fun arc pt =>
             if is_general_position (arc ++ [pt]) q then arc ++ [pt]
             else arc) arc todo = arc ++ added
    ∧ added `sublist_of` todo
    ∧ is_general_position (arc ++ added) q = true
    ∧ ∀ p, p ∈ todo →
           p ∈ added ∨ is_general_position ((arc ++ added) ++ [p]) q = false.
Proof.
  revert arc. induction todo as [|pt todo IH]; intros arc Harc; simpl.
  - exists []. rewrite app_nil_r. split; [done|]. split; [constructor|].
    split; [done|]. by intros p ?%elem_of_nil.
  - destruct (is_general_position (arc ++ [pt]) q) eqn:Hgp.
    + destruct (IH (arc ++ [pt]) Hgp) as (added & -> & Hsub & Hgp' & Hmax).
      exists (pt :: added). rewrite <- !app_assoc in *. simpl in *.
      split; [done|]. split; [by constructor|]. split; [done|].
      intros p [->|Hp]%elem_of_cons; [left; by left|].
      destruct (Hmax p Hp) as [?|?]; [left; by right|by right].
    + destruct (IH arc Harc) as (added & -> & Hsub & Hgp' & Hmax).
      exists added. split; [done|]. split; [by constructor|]. split; [done|].
      intros p [->|Hp]%elem_of_cons; [|by apply Hmax].
      right.
      destruct (is_general_position ((arc ++ added) ++ [pt]) q) eqn:Hgp'';
        [|done].
      rewrite <- Hgp. symmetry.
      apply (is_general_position_sublist ((arc ++ added) ++ [pt])); [|done].
      apply sublist_app; [|done]. by apply sublist_inserts_r.
Qed.

Lemma shuffle_total l pts s :
  heap s !! l = Some pts → (length pts - 1 ≤ length (tape s))%nat →
  ∃ pts' t, shuffle l s = Ok (tt, mkState t (<[l := pts']> (heap s)))
            ∧ pts' ≡ₚ pts
            ∧ tape s = take (length pts - 1) (tape s) ++ t.
Proof.
  intros Hl Hlen. unfold shuffle.
  assert (∀ i x s0, (i ≤ length (tape s0))%nat →
            ∃ x' t, shuffle_from i x s0 = Ok (x', mkState t (heap s0))
                    ∧ x' ≡ₚ x ∧ tape s0 = take i (tape s0) ++ t) as Hsh.
  { clear. induction i as [|i IH]; intros x s0 Hi.
    - exists x, (tape s0). destruct s0. simpl. done.
    - destruct s0 as [[|k t0] h]; simpl in *; [lia|].
      destruct (IH (swap x (S i) (k mod S (S i))%nat) (mkState t0 h))
        as (x' & t & Hx' & Hp & Ht); [simpl; lia|].
      exists x', t. unfold mbind, M_bind. simpl.
      unfold randbelow. simpl. split; [done|]. split.
      + rewrite Hp. apply swap_Permutation.
      + simpl in Ht. by rewrite Ht at 1. }
  destruct (Hsh (length pts - 1)%nat pts s Hlen) as (x' & t & Hx' & Hp & Ht).
  exists x', t. unfold mbind, M_bind, load. rewrite Hl, Hx'.
  unfold store. simpl. done.
Qed.

(** X12: what [find_largest_general_position_subset] returns. An empty
    pool is an [IndexError]. Otherwise the pool object is left shuffled,
    and the list returned starts with the first point of the shuffled
    pool, is a sublist of it, forms with the secret an arc (no three of
    its points have a matrix of rank below 3), and is maximal: every other
    point of the pool would break the arc. *)
Theorem find_largest_general_position_subset_spec
    (l : loc) (secret : point) (q : Z) (s : state) :
  (heap s !! l = Some [] →
   find_largest_general_position_subset l secret q s = Raise IndexError) ∧
  (∀ subset s',
     find_largest_general_position_subset l secret q s = Ok (subset, s') →
     ∃ pts first pool rest,
       heap s !! l = Some pts ∧ first :: pool ≡ₚ pts ∧
       heap s' = <[l := first :: pool]> (heap s) ∧
       subset = first :: rest ∧ rest `sublist_of` first :: pool ∧
       is_general_position (secret :: subset) q = true ∧
       ∀ p, p ∈ pool →
            p ∈ subset ∨ is_general_position (secret :: subset ++ [p]) q = false).
Proof.
  split.
  - intros Hl. unfold find_largest_general_position_subset, shuffle.
    unfold mbind, M_bind, load, store. rewrite Hl. simpl.
    by rewrite lookup_insert_eq.
  - intros subset s' H. unfold find_largest_general_position_subset in H.
    apply M_bind_Ok in H as (u & s1 & Hsh & H).
    apply shuffle_Ok in Hsh as (pts & pts' & Hl & Hp & Hh).
    apply M_bind_Ok in H as (pool & s2 & Hpool & H).
    unfold load in Hpool. rewrite Hh, lookup_insert_eq in Hpool.
    injection Hpool as <- <-.
    apply M_bind_Ok in H as (first & s2 & Hf & H).
    unfold lift in Hf. destruct (index pts' 0) as [f| |] eqn:Hi; try done.
    injection Hf as <- <-. apply index_Ok in Hi.
    injection H as <- <-.
    destruct pts' as [|f' pool]; [done|]. injection Hi as ->.
    destruct (arc_fold q (f :: pool) [secret; f]) as (added & -> & Hsub & Hgp & Hmax).
    { apply is_general_position_true. intros three Hs Hlen.
      apply sublist_length in Hs. simpl in Hs. lia. }
    exists pts, f, pool, added. simpl. rewrite decide_True by done.
    do 5 (split; [done|]). split; [done|].
    intros p Hp'. destruct (Hmax p) as [?|?]; [by right|left; by right|by right].
Qed.

(** ** The dictionary of hyperplanes *)

Lemma M_bind_run {A B} (f : A → M B) (m : M A) s a s1 :
  m s = Ok (a, s1) → (m ≫= f) s = f a s1.
Proof. intros H. unfold mbind, M_bind. by rewrite H. Qed.

Lemma load_run l s v : heap s !! l = Some v → load l s = Ok (v, s).
Proof. intros H. unfold load. by rewrite H. Qed.

Lemma all_hyperplaines_from_total q i (todo points : list point) s :
  ∃ dict s',
    all_hyperplaines_from q i todo points s = Ok (dict, s') ∧
    tape s' = tape s ∧
    dict.*1 = seq i (length todo) ∧
    Forall2 (fun pole l =>
               heap s' !! l = Some (filter (fun p => dot q pole p = 0) points)
               ∧ heap s !! l = None) todo dict.*2 ∧
    NoDup dict.*2 ∧
    (∀ l v, heap s !! l = Some v → heap s' !! l = Some v) ∧
    (∀ l, is_Some (heap s' !! l) → is_Some (heap s !! l) ∨ l ∈ dict.*2).
Proof.
  revert i s. induction todo as [|pole todo IH]; intros i s.
  - exists [], s. simpl. split; [done|]. split; [done|]. split; [done|].
    split; [constructor|]. split; [constructor|]. split; [done|]. by left.
  - set (l0 := fresh (dom (heap s))).
    set (h := filter (fun p => dot q pole p = 0) points).
    set (s1 := mkState (tape s) (<[l0 := h]> (heap s))).
    assert (heap s !! l0 = None) as Hfresh by apply not_elem_of_dom, is_fresh.
    destruct (IH (S i) s1) as (dict & s' & Hrun & Htape & Hfst & Hall & Hnd
                               & Hmono & Hdom).
    exists ((i, l0) :: dict), s'. split.
    { cbn [all_hyperplaines_from]. unfold mbind, M_bind, alloc.
      fold l0 h s1. rewrite Hrun. done. }
    split; [done|]. split; [by rewrite fmap_cons, Hfst|].
    assert (Forall (fun l => heap s1 !! l = None) dict.*2) as Hnone.
    { eapply Forall2_Forall_r; [exact Hall|]. apply Forall_forall.
      by intros x _ y [_ ?]. }
    split; [|split; [|split]].
    + rewrite fmap_cons. constructor.
      * split; [|done]. apply Hmono. simpl. by rewrite lookup_insert_eq.
      * eapply Forall2_impl; [exact Hall|]. intros x y [? Hy]. split; [done|].
        simpl in Hy. by apply lookup_insert_None in Hy as [? _].
    + rewrite fmap_cons. constructor; [|done]. intros Hin.
      rewrite Forall_forall in Hnone. specialize (Hnone l0 Hin).
      simpl in Hnone. by rewrite lookup_insert_eq in Hnone.
    + intros l v Hl. apply Hmono. simpl.
      rewrite lookup_insert_ne; [done|]. intros ->. congruence.
    + intros l Hl. rewrite fmap_cons.
      destruct (Hdom l Hl) as [Hs|Hin]; [|right; by right].
      simpl in Hs. destruct (decide (l = l0)) as [->|Hne]; [right; by left|].
      left. by rewrite lookup_insert_ne in Hs.
Qed.

(** X14: [all_hyperplaines] never fails and draws nothing: it numbers the
    hyperplanes 1, 2, ... in the order of the points, makes for each point
    a new list object, distinct from all others, that holds the points
    orthogonal to it in their order, and leaves the list objects that
    exist alone. *)
Theorem all_hyperplaines_spec q (points : list point) s :
  ∃ dict s',
    all_hyperplaines q points s = Ok (dict, s') ∧
    tape s' = tape s ∧
    dict.*1 = seq 1 (length points) ∧
    NoDup dict.*2 ∧
    Forall2 (fun pole l =>
               heap s' !! l = Some (filter (fun p => dot q pole p = 0) points)
               ∧ heap s !! l = None) points dict.*2 ∧
    (∀ l v, heap s !! l = Some v → heap s' !! l = Some v) ∧
    (∀ l, is_Some (heap s' !! l) → is_Some (heap s !! l) ∨ l ∈ dict.*2).
Proof.
  destruct (all_hyperplaines_from_total q 1 points points s)
    as (dict & s' & Hrun & Htape & Hfst & Hall & Hnd & Hmono & Hdom).
  exists dict, s'. done.
Qed.

(** ** The candidates of the points of the line *)

Lemma touching_hyperplanes_total (pt : point) (secret_line : list point)
    (items : list (nat * loc)) s :
  (∀ l, l ∈ items.*2 → is_Some (heap s !! l)) →
  touching_hyperplanes pt secret_line items s
  = Ok (filter (fun l => touches s pt secret_line l = true) items.*2, s).
Proof.
  induction items as [|[id l] items IH]; intros Hall; [done|].
  cbn [touching_hyperplanes].
  destruct (Hall l) as [plane Hl]; [by left|].
  rewrite (M_bind_run _ _ s plane s) by (by apply load_run).
  rewrite (M_bind_run _ _ s _ s (IH (fun l' H => Hall l' (list_elem_of_further _ _ _ H)))).
  unfold mret, M_ret. do 2 f_equal. rewrite fmap_cons. simpl.
  destruct (_ && _) eqn:Hc.
  - rewrite filter_cons_True; [done|]. unfold touches. by rewrite Hl.
  - rewrite filter_cons_False; [done|]. unfold touches. rewrite Hl, Hc. done.
Qed.

Lemma find_hyperplanes_loop_total (hyperplanes : list (nat * loc))
    (secret_line todo : list point) (result : gmap point (list loc)) s :
  (∀ l, l ∈ hyperplanes.*2 → is_Some (heap s !! l)) →
  ∃ m, find_hyperplanes_loop hyperplanes secret_line todo result s = Ok (m, s) ∧
       ∀ k, m !! k =
            if decide (k ∈ todo)
            then Some (filter (fun l => touches s k secret_line l = true)
                              hyperplanes.*2)
            else result !! k.
Proof.
  intros Hall. revert result. induction todo as [|pt todo IH]; intros result.
  - exists result. split; [done|]. intros k. rewrite decide_False; [done|].
    apply not_elem_of_nil.
  - cbn [find_hyperplanes_loop].
    rewrite (M_bind_run _ _ s _ s (touching_hyperplanes_total pt secret_line
                                     hyperplanes s Hall)).
    destruct (IH (<[pt := filter (fun l => touches s pt secret_line l = true)
                                 hyperplanes.*2]> result)) as (m & -> & Hm).
    exists m. split; [done|]. intros k. rewrite Hm.
    destruct (decide (k ∈ todo)) as [Hin|Hnin].
    + rewrite decide_True; [done|]. by right.
    + destruct (decide (k = pt)) as [->|Hne].
      * rewrite decide_True by (by left). by rewrite lookup_insert_eq.
      * rewrite decide_False; [by rewrite lookup_insert_ne|].
        intros [?|?]%elem_of_cons; done.
Qed.

(** X15: [find_hyperplanes_for_secret_line] on hyperplanes that are list
    objects of the heap never fails and changes nothing: the keys of the
    dictionary it returns are the points of the line, and the list of a
    key holds, in the order of the dictionary of hyperplanes, the list
    objects (not copies) that hold the key and not the whole line. *)
Theorem find_hyperplanes_for_secret_line_spec (hyperplanes : list (nat * loc))
    (secret_line : list point) s :
  (∀ l, l ∈ hyperplanes.*2 → is_Some (heap s !! l)) →
  ∃ m, find_hyperplanes_for_secret_line hyperplanes secret_line s = Ok (m, s) ∧
       ∀ k, m !! k =
            if decide (k ∈ secret_line)
            then Some (filter (fun l => touches s k secret_line l = true)
                              hyperplanes.*2)
            else None.
Proof.
  intros Hall.
  destruct (find_hyperplanes_loop_total hyperplanes secret_line secret_line ∅ s
              Hall) as (m & Hm & Hk).
  exists m. split; [done|]. intros k. rewrite Hk.
  case_decide; [done|]. apply lookup_empty.
Qed.

(** ** The second point of the line *)

Lemma shares_coordinate_true (pt secret : point) :
  shares_coordinate pt secret = true ↔
  ∃ i x, pt !! i = Some x ∧ secret !! i = Some x.
Proof.
  unfold shares_coordinate. rewrite existsb_exists. split.
  - intros ([a b] & Hin & Hab). apply bool_decide_eq_true in Hab. simpl in Hab.
    subst b. apply list_elem_of_In, list_elem_of_lookup in Hin as [i Hi].
    apply lookup_zip_Some in Hi as [? ?]. eauto.
  - intros (i & x & H1 & H2). exists (x, x). split.
    + apply list_elem_of_In, list_elem_of_lookup. exists i.
      by apply lookup_zip_Some.
    + by apply bool_decide_eq_true.
Qed.

Lemma find_point_for_secret_line_run (secret : point) (points : list point)
    s p k t :
  p ∈ points → p ≠ secret → shares_coordinate p secret = true →
  tape s = k :: t →
  ∃ chosen,
    find_point_for_secret_line secret points s
    = Ok (Some chosen, mkState t (heap s)) ∧
    chosen ∈ points ∧ chosen ≠ secret ∧ shares_coordinate chosen secret = true.
Proof.
  intros Hp Hne Hsh Ht. unfold find_point_for_secret_line.
  set (valid := filter (fun pt => pt ≠ secret ∧ shares_coordinate pt secret = true)
                       points).
  assert (p ∈ valid) as Hin by (by apply list_elem_of_filter).
  rewrite decide_False by (intros Hv; rewrite Hv in Hin; by apply elem_of_nil in Hin).
  assert (0 < length valid)%nat as Hlen.
  { destruct valid; [by apply elem_of_nil in Hin|simpl; lia]. }
  destruct (lookup_lt_is_Some_2 valid (k mod length valid)%nat) as [c Hc].
  { apply Nat.mod_upper_bound. lia. }
  exists c. unfold mbind, M_bind, randbelow. rewrite Ht.
  unfold lift, index. rewrite Hc. split; [done|].
  apply list_elem_of_lookup_2 in Hc.
  by apply list_elem_of_filter in Hc as [[Hcne Hcsh] Hcin].
Qed.

(** X16: [find_point_for_secret_line] returns [None], and draws nothing,
    when no point other than the secret has a coordinate in common with
    it; otherwise one draw selects such a point of the list: the index
    drawn is in range, whatever the draw. *)
Theorem find_point_for_secret_line_spec (secret : point)
    (points : list point) s :
  ((∀ p, p ∈ points → p = secret ∨ shares_coordinate p secret = false) →
   find_point_for_secret_line secret points s = Ok (None, s)) ∧
  (∀ p k t, p ∈ points → p ≠ secret → shares_coordinate p secret = true →
     tape s = k :: t →
     ∃ chosen,
       find_point_for_secret_line secret points s
       = Ok (Some chosen, mkState t (heap s)) ∧
       chosen ∈ points ∧ chosen ≠ secret ∧
       ∃ i x, chosen !! i = Some x ∧ secret !! i = Some x).
Proof.
  split.
  - intros Hnone. unfold find_point_for_secret_line.
    rewrite decide_True; [done|].
    destruct (filter _ points) as [|v valid'] eqn:Hv; [done|]. exfalso.
    assert (v ∈ filter (fun pt => pt ≠ secret ∧ shares_coordinate pt secret = true)
                       points) as Hin by (rewrite Hv; by left).
    apply list_elem_of_filter in Hin as [[Hne Hsh] Hin].
    destruct (Hnone v Hin) as [?|Hf]; [done|congruence].
  - intros p k t Hp Hne Hsh Ht.
    destruct (find_point_for_secret_line_run secret points s p k t Hp Hne Hsh Ht)
      as (c & Hrun & Hin & Hcne & Hcsh).
    exists c. do 3 (split; [done|]). by apply shares_coordinate_true.
Qed.

(** ** The points of a space, each once *)

Lemma NoDup_vectors q n : NoDup (vectors q n).
Proof.
  induction n as [|n IH]; simpl; [apply NoDup_singleton|].
  apply NoDup_bind; [| |apply NoDup_seqZ].
  - intros x1 x2 y _ _ H1 H2.
    apply list_elem_of_bind in H1 as (v1 & H1 & _).
    apply list_elem_of_bind in H2 as (v2 & H2 & _).
    apply list_elem_of_singleton in H1, H2. congruence.
  - intros x _. rewrite bind_singleton_map.
    apply NoDup_fmap_2_strong; [|done]. by intros ?? _ _ [= ->].
Qed.

Lemma NoDup_rational_points P : NoDup (rational_points P).
Proof.
  unfold rational_points. apply NoDup_bind; [| |apply NoDup_seq].
  - assert (∀ k1 k2 v1 v2,
              (k1 ≤ dimension P)%nat → (k2 ≤ dimension P)%nat →
              length v1 = (dimension P - k1)%nat →
              length v2 = (dimension P - k2)%nat →
              v1 ++ 1 :: replicate k1 0 = v2 ++ 1 :: replicate k2 0 →
              ¬ (k1 < k2)%nat) as Hlt.
    { intros k1 k2 v1 v2 Hk1 Hk2 Hl1 Hl2 Heq Hlt.
      apply (f_equal (fun l => l !! length v1)) in Heq.
      rewrite lookup_app_r, Nat.sub_diag in Heq by lia. simpl in Heq.
      rewrite lookup_app_r in Heq by lia.
      destruct (length v1 - length v2)%nat as [|i] eqn:Hi; [lia|].
      simpl in Heq. symmetry in Heq.
      apply lookup_replicate in Heq as [? _]. done. }
    intros k1 k2 y Hk1 Hk2 H1 H2.
    apply elem_of_seq in Hk1, Hk2.
    apply list_elem_of_bind in H1 as (v1 & H1 & Hv1).
    apply list_elem_of_bind in H2 as (v2 & H2 & Hv2).
    apply list_elem_of_singleton in H1, H2.
    apply vectors_is_vector in Hv1 as [Hl1 _], Hv2 as [Hl2 _].
    subst y. simpl in H2.
    destruct (decide (k1 < k2)%nat) as [H12|H12];
      [by destruct (Hlt k1 k2 v1 v2 ltac:(lia) ltac:(lia) Hl1 Hl2)|].
    destruct (decide (k2 < k1)%nat) as [H21|H21];
      [by destruct (Hlt k2 k1 v2 v1 ltac:(lia) ltac:(lia) Hl2 Hl1)|].
    lia.
  - intros k _. rewrite bind_singleton_map.
    apply NoDup_fmap_2_strong; [|apply NoDup_vectors].
    intros v1 v2 _ _ Heq. by apply app_inv_tail in Heq.
Qed.

Lemma is_point_unit P :
  1 < order P → is_point P (replicate (dimension P) 0 ++ [1]).
Proof.
  intros Hq. split; [|split].
  - rewrite length_app, length_replicate. simpl. lia.
  - apply Forall_app. split; [apply Forall_replicate; lia|].
    constructor; [lia|constructor].
  - by apply (last_nonzero_app_zeros _ 1 0).
Qed.

Lemma rational_points_nonempty P : 1 < order P → rational_points P ≠ [].
Proof.
  intros Hq Hnil.
  pose proof (is_point_rational_points P _ (is_point_unit P Hq)) as Hin.
  rewrite Hnil in Hin. by apply elem_of_nil in Hin.
Qed.

(** ** A second point for every secret *)

Lemma second_point_candidate P (secret : point) :
  1 < order P → (1 ≤ dimension P)%nat → is_point P secret →
  ∃ p, is_point P p ∧ p ≠ secret ∧ shares_coordinate p secret = true.
Proof.
  intros Hq Hd (Hl & Hr & Hn).
  destruct (last_nonzero_decompose _ _ Hn) as (v & k & ->).
  rewrite length_app in Hl. simpl in Hl. rewrite length_replicate in Hl.
  destruct v as [|x v].
  - simpl in Hl. destruct k as [|k]; [lia|].
    exists (1 :: replicate k 0 ++ [1]). split; [|split].
    + split; [|split].
      * simpl. rewrite length_app, length_replicate. simpl. lia.
      * constructor; [lia|]. apply Forall_app.
        split; [apply Forall_replicate; lia|]. constructor; [lia|constructor].
      * change (1 :: replicate k 0 ++ [1])
          with ((1 :: replicate k 0) ++ 1 :: replicate 0 0).
        by apply last_nonzero_app_zeros.
    + simpl. intros [= Heq].
      apply (f_equal (fun l => l !! k)) in Heq.
      rewrite lookup_app_r, length_replicate, Nat.sub_diag in Heq
        by (rewrite length_replicate; lia).
      simpl in Heq. symmetry in Heq.
      change (0 :: replicate k 0) with (replicate (S k) 0) in Heq.
      apply lookup_replicate in Heq as [? _]. done.
    + apply shares_coordinate_true. by exists 0%nat, 1.
  - apply Forall_app in Hr as [Hr1 Hr2]. apply Forall_cons in Hr1 as [Hx Hr1].
    exists (((x + 1) mod order P :: v) ++ 1 :: replicate k 0). split; [|split].
    + split; [|split].
      * rewrite length_app. simpl. rewrite length_replicate. simpl in Hl. lia.
      * apply Forall_app. split; [|done].
        constructor; [apply Z.mod_pos_bound; lia|done].
      * by apply last_nonzero_app_zeros.
    + simpl. intros [= Heq].
      destruct (decide (x + 1 = order P)) as [He|He].
      * rewrite He, Z.mod_same in Heq by lia. lia.
      * rewrite Z.mod_small in Heq by lia. lia.
    + apply shares_coordinate_true. exists (S (length v)), 1.
      split; rewrite lookup_app_r by (simpl; lia); simpl;
        by rewrite Nat.sub_diag.
Qed.

(** ** Vectors with two entries *)

Lemma dot_comm q (u v : list Z) : dot q u v = dot q v u.
Proof.
  revert v. induction u as [|x u IH]; intros [|y v];
    rewrite ?dot_nil_l, ?dot_nil_r; try done.
  rewrite !dot_cons, IH. unfold GF.add, GF.mul. do 3 f_equal. lia.
Qed.

Lemma dot_insert q (u w : list Z) i x a b :
  u !! i = Some a → w !! i = Some b →
  dot q (<[i := x]> u) w = (dot q u w + (x - a) * b) mod q.
Proof.
  revert w i. induction u as [|a0 u IH]; intros [|b0 w] [|i] Hu Hw;
    simplify_eq/=.
  - rewrite !dot_cons. unfold GF.add, GF.mul. mod_ring q.
  - rewrite !dot_cons, (IH w i) by done. unfold GF.add, GF.mul.
    mod_ring q.
Qed.

Section TwoEntries.
Variable P : ProjectiveSpace.
Hypothesis Hq : Z.prime (order P).

Let q := order P.
Let n := S (dimension P).

(** The vector with [1] at [i], [c] at [j] and zeros elsewhere. *)
Let two (i j : nat) (c : Z) : list Z :=
  <[i := 1]> (<[j := c mod q]> (replicate n 0)).

Lemma two_is_vector i j c : is_vector q n (two i j c).
Proof.
  pose proof (order_gt_1 q Hq) as Hq1.
  split; [unfold two; by rewrite !length_insert, length_replicate|].
  unfold two. apply Forall_insert; [|lia].
  apply Forall_insert; [|apply Z.mod_pos_bound; lia].
  apply Forall_replicate. lia.
Qed.

Lemma two_nonzero i j c :
  (i < n)%nat → ¬ Forall (fun x => x = 0) (two i j c).
Proof.
  intros Hi Hall. rewrite Forall_forall in Hall.
  assert (1 ∈ two i j c) as Hin; [|by specialize (Hall 1 Hin)].
  apply list_elem_of_lookup. exists i. unfold two.
  apply list_lookup_insert_eq. by rewrite length_insert, length_replicate.
Qed.

Lemma dot_two i j c (w : list Z) a b :
  i ≠ j → length w = n → w !! i = Some a → w !! j = Some b →
  dot q (two i j c) w = (a + c * b) mod q.
Proof.
  intros Hij Hlen Ha Hb. unfold two.
  assert (j < n)%nat as Hj by (apply lookup_lt_Some in Hb; lia).
  rewrite (dot_insert q _ w i 1 0 a); [| |done].
  2:{ rewrite list_lookup_insert_ne by done.
      apply lookup_replicate. split; [done|].
      apply lookup_lt_Some in Ha. lia. }
  rewrite (dot_insert q _ w j (c mod q) 0 b); [| |done].
  2:{ by apply lookup_replicate. }
  rewrite (dot_zero_l q) by (by apply Forall_replicate).
  mod_ring q.
Qed.

(** Normalisation keeps what a vector is orthogonal to. *)
Lemma dot_normalised (u v p : list Z) :
  length v = n → projective_space P v = Ok p →
  (dot q p u = 0 ↔ dot q v u = 0).
Proof.
  intros Hlen Hp.
  destruct (projective_space_multiple P Hq v p Hlen Hp) as (k & Hk & Hv).
  unfold q. rewrite !(dot_comm (order P) _ u).
  rewrite <- (dot_of_Z (order P) u v), Hv, (dot_scale_r (order P) Hq).
  fold q.
  split.
  - intros ->. rewrite Z.mul_0_r. apply Z.mod_0_l.
    pose proof (order_gt_1 q Hq). lia.
  - intros H0. apply (mul_mod_eq_0 q Hq) in H0 as [?|H0]; [done|].
    pose proof (dot_range q Hq u p). rewrite Z.mod_small in H0; lia.
Qed.

Lemma last_one_index (p : point) :
  is_point P p → ∃ j, p !! j = Some 1.
Proof.
  intros (_ & _ & Hn). apply last_nonzero_Some in Hn as [_ Hin].
  by apply list_elem_of_lookup in Hin.
Qed.

(** Some hyperplane holds the first of two points and not the second. *)
Lemma cutting_pole (s t : point) :
  is_point P s → is_point P t → s ≠ t →
  ∃ pole, is_point P pole ∧ dot q pole s = 0 ∧ dot q pole t ≠ 0.
Proof.
  intros Hs Ht Hne. pose proof (order_gt_1 q Hq) as Hq1.
  destruct (last_one_index s Hs) as [j Hj].
  pose proof Hs as (Hls & Hrs & _). pose proof Ht as (Hlt & Hrt & _).
  assert (j < n)%nat as Hjn by (apply lookup_lt_Some in Hj; unfold n; lia).
  destruct (lookup_lt_is_Some_2 t j) as [tj Htj]; [lia|].
  set (t' := combine_points q (- tj) 1 s t).
  assert (¬ Forall (fun x => x = 0) t') as Hnz.
  { intros H0. apply (points_independent P Hq s t Hs Ht Hne) in H0 as [_ H1].
    rewrite Z.mod_small in H1; fold q; lia. }
  apply not_Forall_Exists in Hnz; [|apply _].
  apply Exists_exists in Hnz as (c & Hc & Hc0).
  apply list_elem_of_lookup in Hc as [i Hi].
  assert (i < n)%nat as Hin.
  { apply lookup_lt_Some in Hi. unfold t' in Hi.
    rewrite (combine_points_length P) in Hi by lia. unfold n. lia. }
  destruct (lookup_lt_is_Some_2 s i) as [si Hsi]; [lia|].
  destruct (lookup_lt_is_Some_2 t i) as [ti Hti]; [lia|].
  assert (c = (- tj * si + ti) mod q) as Hcv.
  { unfold t', combine_points in Hi.
    rewrite lookup_zip_with, Hsi in Hi. simpl in Hi. rewrite Hti in Hi.
    simpl in Hi. injection Hi as <-. unfold GF.add, GF.mul. mod_ring q. }
  assert (i ≠ j) as Hij.
  { intros ->. simplify_eq. apply Hc0.
    transitivity (0 mod q); [mod_ring q|by apply Z.mod_0_l; lia]. }
  destruct (projective_space_vector P (two i j (- si)))
    as [pole Hpole]; [apply two_is_vector|by apply two_nonzero|].
  exists pole. split; [by apply (projective_space_is_point P Hq) in Hpole|].
  rewrite !(dot_normalised _ _ _ (proj1 (two_is_vector _ _ _)) Hpole).
  rewrite (dot_two i j (- si) s si 1), (dot_two i j (- si) t ti tj)
    by (done || unfold n; lia).
  split.
  - transitivity (0 mod q); [mod_ring q|apply Z.mod_0_l; lia].
  - intros H0. apply Hc0. rewrite Hcv, <- H0. mod_ring q.
Qed.

(** A hyperplane of a space of dimension at least 2 has two points. *)
Lemma kernel_second_point (pole secret : point) :
  (2 ≤ dimension P)%nat → is_point P pole →
  ∃ o, in_kernel P pole o ∧ o ≠ secret.
Proof.
  intros Hd Hpole. pose proof (order_gt_1 q Hq) as Hq1.
  destruct (last_one_index pole Hpole) as [j Hj].
  pose proof Hpole as (Hlp & Hrp & _).
  assert (∃ i1 i2 : nat, i1 ≠ j ∧ i2 ≠ j ∧ i1 ≠ i2 ∧ (i1 < n)%nat ∧ (i2 < n)%nat)
    as (i1 & i2 & H1j & H2j & H12 & H1n & H2n).
  { unfold n. destruct j as [|[|j]].
    - exists 1%nat, 2%nat. lia.
    - exists 0%nat, 2%nat. lia.
    - exists 0%nat, 1%nat. lia. }
  assert (∀ i, i ≠ j → (i < n)%nat →
            ∃ o k, in_kernel P pole o ∧ k mod q ≠ 0 ∧
                   o = map (GF.mul q k) (two i j (- (pole !!! i))))
    as Hker.
  { intros i Hij Hin.
    destruct (lookup_lt_is_Some_2 pole i) as [pi Hpi]; [unfold n in Hin; lia|].
    rewrite (list_lookup_total_correct _ _ _ Hpi).
    destruct (projective_space_vector P (two i j (- pi)))
      as [o Ho]; [apply two_is_vector|by apply two_nonzero|].
    pose proof Ho as Ho'.
    apply projective_space_Ok in Ho' as (c & Hc & Heq);
      [|apply two_is_vector].
    rewrite (of_Z_reduced P) in Hc, Heq by apply two_is_vector.
    apply (last_nonzero_reduced P) in Hc as [Hc _]; [|apply two_is_vector].
    exists o, (GF.inv q c). split; [|split; [|done]].
    - split; [by apply (projective_space_is_point P Hq) in Ho|].
      rewrite dot_comm.
      apply (dot_normalised pole _ _ (proj1 (two_is_vector _ _ _)) Ho).
      rewrite (dot_two i j (- pi) pole pi 1) by (done || unfold n; lia).
      transitivity (0 mod q); [mod_ring q|apply Z.mod_0_l; lia].
    - pose proof (inv_range q Hq c). pose proof (inv_nonzero q Hq c Hc).
      rewrite Z.mod_small; lia. }
  destruct (Hker i1 H1j H1n) as (o1 & k1 & Ho1 & Hk1 & He1).
  destruct (Hker i2 H2j H2n) as (o2 & k2 & Ho2 & Hk2 & He2).
  destruct (decide (o1 = secret)) as [<-|]; [|by exists o1].
  exists o2. split; [done|]. intros Heq.
  apply (f_equal (fun l => l !! i2)) in Heq. rewrite He1, He2 in Heq.
  rewrite !list_lookup_fmap in Heq.
  assert (two i2 j (- (pole !!! i2)) !! i2 = Some 1) as Hi2.
  { apply list_lookup_insert_eq. by rewrite length_insert, length_replicate. }
  assert (two i1 j (- (pole !!! i1)) !! i2 = Some 0) as Hi1.
  { unfold two. rewrite !list_lookup_insert_ne by done.
    by apply lookup_replicate. }
  rewrite Hi1, Hi2 in Heq.
  simpl in Heq. injection Heq as Heq. unfold GF.mul in Heq.
  rewrite Z.mul_1_r, Z.mul_0_r, Z.mod_0_l in Heq by (fold q; lia). done.
Qed.

End TwoEntries.

(** ** Splitter selection raises nothing on candidates with two points *)

Lemma M_bind_OutOfFuel {A B} (f : A → M B) (m : M A) s :
  m s = OutOfFuel → (m ≫= f) s = OutOfFuel.
Proof. intros H. unfold mbind, M_bind. by rewrite H. Qed.

Lemma shuffle_from_safe i (x : list point) s :
  shuffle_from i x s = OutOfFuel ∨
  ∃ x' t, shuffle_from i x s = Ok (x', mkState t (heap s)) ∧ x' ≡ₚ x.
Proof.
  revert x s. induction i as [|i IH]; intros x s.
  - right. exists x, (tape s). by destruct s.
  - cbn [shuffle_from]. destruct s as [[|k t] h].
    + left. by apply M_bind_OutOfFuel.
    + rewrite (M_bind_run _ _ _ (k mod S (S i))%nat (mkState t h)) by done.
      destruct (IH (swap x (S i) (k mod S (S i))%nat) (mkState t h))
        as [->|(x' & t' & -> & Hp)]; [by left|].
      right. exists x', t'. split; [done|]. rewrite Hp. apply swap_Permutation.
Qed.

Lemma find_largest_general_position_subset_safe l secret q s pts :
  heap s !! l = Some pts → pts ≠ [] →
  find_largest_general_position_subset l secret q s = OutOfFuel ∨
  ∃ subset pts' t,
    find_largest_general_position_subset l secret q s
    = Ok (subset, mkState t (<[l := pts']> (heap s))) ∧ pts' ≡ₚ pts.
Proof.
  intros Hl Hne. unfold find_largest_general_position_subset, shuffle.
  destruct (shuffle_from_safe (length pts - 1) pts s)
    as [Hout|(x' & t & Hsh & Hp)].
  - left. apply M_bind_OutOfFuel.
    rewrite (M_bind_run _ _ s pts s) by (by apply load_run).
    by apply M_bind_OutOfFuel.
  - right.
    set (s2 := mkState t (<[l := x']> (heap s))).
    assert ((x ← load l; x'0 ← shuffle_from (length x - 1) x; store l x'0) s
            = Ok (tt, s2)) as Hshuffle.
    { rewrite (M_bind_run _ _ s pts s) by (by apply load_run).
      rewrite (M_bind_run _ _ s x' (mkState t (heap s))) by done. done. }
    rewrite (M_bind_run _ _ s tt s2 Hshuffle).
    rewrite (M_bind_run _ _ s2 x' s2)
      by (apply load_run; simpl; by rewrite lookup_insert_eq).
    destruct x' as [|f pool].
    { apply Permutation_nil_l in Hp. by subst pts. }
    rewrite (M_bind_run _ _ s2 f s2) by done.
    eexists _, (f :: pool), t. split; [done|done].
Qed.

Lemma get_secret_splitter_safe fuel m (secret : point) d q cands s :
  m !! secret = Some cands → cands ≠ [] →
  (∀ l, l ∈ cands → ∃ pts p, heap s !! l = Some pts ∧ p ∈ pts ∧ p ≠ secret) →
  get_secret_splitter fuel m secret d q s = OutOfFuel ∨
  ∃ r s' v, get_secret_splitter fuel m secret d q s = Ok (r, s') ∧
            to_list r s' = Ok (v, s').
Proof.
  intros Hm Hne. revert s. induction fuel as [|fuel IH]; intros s Hcands;
    [by left|].
  cbn [get_secret_splitter].
  rewrite (M_bind_run _ _ s cands s) by (unfold lookup_key; by rewrite Hm).
  unfold randint0. rewrite decide_False by (by destruct cands).
  destruct s as [[|k t] h]; [left; by apply M_bind_OutOfFuel|].
  set (s1 := mkState t h).
  rewrite (M_bind_run _ (randbelow (length cands)) (mkState (k :: t) h)
             (k mod length cands)%nat s1) by done.
  destruct (lookup_lt_is_Some_2 cands (k mod length cands)%nat) as [hp Hhp].
  { apply Nat.mod_upper_bound. by destruct cands. }
  rewrite (M_bind_run _ _ s1 hp s1) by (unfold lift, index; by rewrite Hhp).
  assert (hp ∈ cands) as Hin by (by eapply list_elem_of_lookup_2).
  destruct (Hcands hp Hin) as (pts & p & Hpts & Hp & Hps). simpl in Hpts.
  rewrite (M_bind_run _ _ s1 pts s1) by (by apply load_run).
  set (s2 := mkState t (<[hp := remove_first secret pts]> h)).
  assert (((if bool_decide (secret ∈ pts)
            then store hp (remove_first secret pts) else mret tt) : M unit) s1
          = Ok (tt, s2)) as Hstore.
  { case_bool_decide as Hsec; [done|].
    unfold mret, M_ret, s1, s2. do 3 f_equal.
    rewrite remove_first_notin by done. by rewrite insert_id. }
  rewrite (M_bind_run _ _ s1 tt s2 Hstore).
  assert (p ∈ remove_first secret pts) as Hp' by (by apply remove_first_other).
  clear Hstore. destruct (bool_decide (d = 2)) eqn:Hd.
  { right. exists (Shared hp), s2, (remove_first secret pts).
    split; [reflexivity|].
    apply load_run. simpl. by rewrite lookup_insert_eq. }
  destruct (find_largest_general_position_subset_safe hp secret q s2
              (remove_first secret pts))
    as [Hout|(subset & pts' & t' & Hsub & Hperm)].
  { simpl. by rewrite lookup_insert_eq. }
  { intros Hnil. rewrite Hnil in Hp'. by apply elem_of_nil in Hp'. }
  { left. by apply M_bind_OutOfFuel. }
  rewrite (M_bind_run _ _ s2 subset _ Hsub).
  destruct (bool_decide (d ≤ Z.of_nat (rank q subset))) eqn:Hrk.
  { right. eexists (Local subset), _, subset. split; reflexivity. }
  apply IH. intros l Hl. simpl. rewrite insert_insert_eq.
  destruct (decide (l = hp)) as [->|Hlne].
  - rewrite lookup_insert_eq. exists pts', p. split; [done|].
    split; [by rewrite Hperm|done].
  - rewrite lookup_insert_ne by done. by apply (Hcands l).
Qed.

(** ** A run of encryption, step by step *)

Lemma run_bind {A} (m : M A) tape :
  run m tape = match m (mkState tape ∅) with
               | Ok (a, _) => Ok a
               | Raise e => Raise e
               | OutOfFuel => OutOfFuel
               end.
Proof. done. Qed.

Lemma find_point_for_secret_line_no_draw (secret : point)
    (points : list point) s p :
  p ∈ points → p ≠ secret → shares_coordinate p secret = true →
  tape s = [] →
  find_point_for_secret_line secret points s = OutOfFuel.
Proof.
  intros Hp Hne Hsh Ht. unfold find_point_for_secret_line.
  rewrite decide_False.
  - apply M_bind_OutOfFuel. unfold randbelow. by rewrite Ht.
  - intros Hv.
    assert (p ∈ filter (fun pt => pt ≠ secret ∧ shares_coordinate pt secret = true)
                       points) as Hin by (by apply list_elem_of_filter).
    rewrite Hv in Hin. by apply elem_of_nil in Hin.
Qed.

Section EncryptRun.
Variables (d q : Z).
Hypothesis Hprime : GF.is_prime q = true.
Hypothesis Hd : 1 < d.

Let P := mkSpace (Z.to_nat d) q.
Let points := rational_points P.

(** The steps of [t_threshold_encrypt] from the selection of the
    splitters on. *)
Let hand_out (fuel : nat) (m : gmap point (list loc)) (secret : point)
    (line : list point) : M (list enc_message) :=
  secret_splitters ← get_secret_splitter fuel m secret d q;
  secret_splitters ← to_list secret_splitters;
  mret [Secret secret; SecretLine line; Splitters secret_splitters].

Lemma encrypt_prime : Z.prime (order P).
Proof. by apply is_prime_prime. Qed.

Lemma encrypt_checks fuel :
  t_threshold_encrypt fuel d q
  = (random_number ← randint0 (length points);
     secret ← lift (index points random_number);
     second ← find_point_for_secret_line secret points;
     second_point_for_secret_line ←
       match second with Some p => mret p | None => raise TypeError end;
     secret_line ← lift (points_on_line secret second_point_for_secret_line P);
     hyperplanes ← all_hyperplaines q points;
     hyperplanes_cut_secret_line ←
       find_hyperplanes_for_secret_line hyperplanes secret_line;
     hand_out fuel hyperplanes_cut_secret_line secret secret_line).
Proof.
  pose proof (order_gt_1 _ encrypt_prime) as Hq1. simpl in Hq1.
  unfold t_threshold_encrypt.
  replace (q <=? 1) with false by (symmetry; apply Z.leb_gt; lia).
  replace (d <=? 1) with false by (symmetry; apply Z.leb_gt; lia).
  rewrite Hprime. done.
Qed.

(** With fewer than two draws the run stops for want of a draw. *)
Lemma encrypt_short_tape fuel tape :
  (length tape < 2)%nat →
  run (t_threshold_encrypt fuel d q) tape = OutOfFuel.
Proof.
  intros Hlen. pose proof (order_gt_1 _ encrypt_prime) as Hq1.
  rewrite run_bind, encrypt_checks.
  assert (length points ≠ 0%nat) as Hn.
  { intros H0. apply (rational_points_nonempty P Hq1).
    by apply length_zero_iff_nil. }
  destruct tape as [|a [|b t]]; [| |simpl in Hlen; lia].
  - rewrite M_bind_OutOfFuel; [done|].
    unfold randint0. by rewrite decide_False.
  - destruct (lookup_lt_is_Some_2 points (a mod length points)%nat)
      as [secret Hsecret]; [apply Nat.mod_upper_bound; lia|].
    rewrite (M_bind_run _ _ _ (a mod length points)%nat (mkState [] ∅))
      by (unfold randint0; by rewrite decide_False).
    rewrite (M_bind_run _ _ _ secret (mkState [] ∅))
      by (unfold lift, index; by rewrite Hsecret).
    assert (is_point P secret) as Hps.
    { apply rational_points_is_point; [done|].
      by eapply list_elem_of_lookup_2. }
    destruct (second_point_candidate P secret Hq1) as (p & Hp & Hpne & Hsh);
      [simpl; lia|done|].
    rewrite M_bind_OutOfFuel; [done|].
    apply (find_point_for_secret_line_no_draw secret points _ p); try done.
    by apply is_point_rational_points.
Qed.

(** With two draws the run reaches the selection of the splitters, on
    candidates that are hyperplanes through the secret. *)
Lemma encrypt_prefix a b t :
  ∃ secret second line (dict : list (nat * loc)) m s cands,
    points !! (a mod length points)%nat = Some secret ∧
    is_point P secret ∧ is_point P second ∧ second ≠ secret ∧
    shares_coordinate second secret = true ∧
    points_on_line secret second P = Ok line ∧
    tape s = t ∧
    NoDup dict.*2 ∧
    (∀ l, is_Some (heap s !! l) ↔ l ∈ dict.*2) ∧
    (∀ k, m !! k =
          if decide (k ∈ line)
          then Some (filter (fun l => touches s k line l = true) dict.*2)
          else None) ∧
    m !! secret = Some cands ∧ cands ≠ [] ∧
    (∀ l, l ∈ cands →
       l ∈ dict.*2 ∧
       ∃ pole, is_point P pole ∧ dot q pole secret = 0 ∧
               heap s !! l
               = Some (filter (fun p => dot q pole p = 0) points) ∧
               ¬ ∀ p, p ∈ line →
                      p ∈ filter (fun p => dot q pole p = 0) points) ∧
    ∀ fuel, t_threshold_encrypt fuel d q (mkState (a :: b :: t) ∅)
            = hand_out fuel m secret line s.
Proof.
  pose proof encrypt_prime as Hq. pose proof (order_gt_1 _ Hq) as Hq1.
  assert (length points ≠ 0%nat) as Hn.
  { intros H0. apply (rational_points_nonempty P Hq1).
    by apply length_zero_iff_nil. }
  destruct (lookup_lt_is_Some_2 points (a mod length points)%nat)
    as [secret Hsecret]; [apply Nat.mod_upper_bound; lia|].
  assert (is_point P secret) as Hps.
  { apply rational_points_is_point; [done|]. by eapply list_elem_of_lookup_2. }
  destruct (second_point_candidate P secret Hq1) as (p & Hp & Hpne & Hsh);
    [simpl; lia|done|].
  destruct (find_point_for_secret_line_run secret points
              (mkState (b :: t) ∅) p b t)
    as (second & Hfind & Hsin & Hsne & Hssh);
    [by apply is_point_rational_points|done..|].
  assert (is_point P second) as Hpt
    by (by apply rational_points_is_point).
  destruct (points_on_line_first_two P Hq secret second Hps Hpt
              (not_eq_sym Hsne)) as [rest Hline].
  set (line := second :: secret :: rest) in *.
  destruct (all_hyperplaines_from_total q 1 points points (mkState t ∅))
    as (dict & s & Hdict & Htape & Hfst & Hall & Hnd & _ & Hdom).
  assert (∀ l, l ∈ dict.*2 → is_Some (heap s !! l)) as Halloc.
  { intros l Hl. apply list_elem_of_lookup in Hl as [i Hi].
    destruct (Forall2_lookup_r _ _ _ _ _ Hall Hi) as (pole & _ & Hl & _).
    by rewrite Hl. }
  destruct (find_hyperplanes_loop_total dict line line ∅ s Halloc)
    as (m & Hm & Hmk).
  assert (∀ k, m !! k =
               if decide (k ∈ line)
               then Some (filter (fun l => touches s k line l = true) dict.*2)
               else None) as Hmk'.
  { intros k. rewrite Hmk. case_decide; [done|]. apply lookup_empty. }
  set (cands := filter (fun l => touches s secret line l = true) dict.*2).
  assert (secret ∈ line) as Hsl by (right; by left).
  assert (second ∈ line) as Htl by (by left).
  assert (∀ l, l ∈ dict.*2 →
            ∃ pole, is_point P pole ∧
                    heap s !! l
                    = Some (filter (fun p => dot q pole p = 0) points))
    as Hpole.
  { intros l Hl. apply list_elem_of_lookup in Hl as [i Hi].
    destruct (Forall2_lookup_r _ _ _ _ _ Hall Hi) as (pole & Hpi & Hl & _).
    exists pole. split; [|done].
    apply rational_points_is_point; [done|].
    by eapply list_elem_of_lookup_2. }
  exists secret, second, line, dict, m, s, cands.
  do 6 (split; [done|]). split; [done|]. split; [done|].
  split.
  { intros l. split; [|apply Halloc].
    intros Hl. destruct (Hdom l Hl) as [Hin|?]; [|done].
    simpl in Hin. rewrite lookup_empty in Hin. by destruct Hin. }
  split; [done|].
  split; [rewrite Hmk'; by rewrite decide_True|].
  split.
  { destruct (cutting_pole P Hq secret second Hps Hpt (not_eq_sym Hsne))
      as (pole & Hpp & Hd0 & Hd1).
    apply is_point_rational_points, list_elem_of_lookup in Hpp as [i Hi].
    destruct (Forall2_lookup_l _ _ _ _ _ Hall Hi) as (l & Hli & Hl & _).
    assert (l ∈ cands) as Hin; [|intros Hnil; rewrite Hnil in Hin;
                                 by apply elem_of_nil in Hin].
    apply list_elem_of_filter. split; [|by eapply list_elem_of_lookup_2].
    unfold touches. rewrite Hl. apply andb_true_iff. split.
    - apply bool_decide_eq_true, list_elem_of_filter. split; [done|].
      by apply is_point_rational_points.
    - apply negb_true_iff, not_true_iff_false. intros Hlp.
      unfold line_in_plane in Hlp. rewrite forallb_forall in Hlp.
      specialize (Hlp second (proj1 (list_elem_of_In _ _) Htl)).
      apply bool_decide_eq_true, list_elem_of_filter in Hlp as [? _]. done. }
  split.
  { intros l Hl. apply list_elem_of_filter in Hl as [Ht Hl].
    split; [done|].
    destruct (Hpole l Hl) as (pole & Hpp & Hheap). exists pole.
    unfold touches in Ht. rewrite Hheap in Ht.
    apply andb_true_iff in Ht as [Hin Hnl].
    apply bool_decide_eq_true, list_elem_of_filter in Hin as [Hd0 _].
    do 3 (split; [done|]). intros Hall'.
    apply negb_true_iff, not_true_iff_false in Hnl. apply Hnl.
    unfold line_in_plane. apply forallb_forall. intros x Hx.
    apply bool_decide_eq_true, Hall', list_elem_of_In, Hx. }
  intros fuel. rewrite encrypt_checks.
  rewrite (M_bind_run _ _ _ (a mod length points)%nat (mkState (b :: t) ∅))
    by (unfold randint0; by rewrite decide_False).
  rewrite (M_bind_run _ _ _ secret (mkState (b :: t) ∅))
    by (unfold lift, index; by rewrite Hsecret).
  rewrite (M_bind_run _ _ _ (Some second) (mkState t ∅) Hfind).
  rewrite (M_bind_run _ _ _ second (mkState t ∅)) by done.
  rewrite (M_bind_run _ _ _ line (mkState t ∅))
    by (unfold lift; by rewrite Hline).
  rewrite (M_bind_run _ _ _ dict s Hdict).
  by rewrite (M_bind_run _ _ _ m s Hm).
Qed.

End EncryptRun.

(** ** What encryption raises, and what it prints *)

(** In dimension 2 one draw selects the hyperplane, and the list object
    itself comes back. *)
Lemma get_secret_splitter_plane fuel m (secret : point) q cands s c t :
  m !! secret = Some cands → cands ≠ [] →
  (∀ l, l ∈ cands → is_Some (heap s !! l)) →
  tape s = c :: t →
  ∃ hp pts,
    hp ∈ cands ∧ heap s !! hp = Some pts ∧
    get_secret_splitter (S fuel) m secret 2 q s
    = Ok (Shared hp, mkState t (<[hp := remove_first secret pts]> (heap s))).
Proof.
  intros Hm Hne Hcands Ht. destruct s as [tp h]. simpl in Ht. subst tp.
  destruct (lookup_lt_is_Some_2 cands (c mod length cands)%nat) as [hp Hhp].
  { apply Nat.mod_upper_bound. by destruct cands. }
  assert (hp ∈ cands) as Hin by (by eapply list_elem_of_lookup_2).
  destruct (Hcands hp Hin) as [pts Hpts]. simpl in Hpts.
  exists hp, pts. split; [done|]. split; [done|].
  cbn [get_secret_splitter].
  rewrite (M_bind_run _ _ _ cands (mkState (c :: t) h))
    by (unfold lookup_key; by rewrite Hm).
  unfold randint0. rewrite decide_False by (by destruct cands).
  set (s1 := mkState t h).
  rewrite (M_bind_run _ (randbelow (length cands)) (mkState (c :: t) h)
             (c mod length cands)%nat s1) by done.
  rewrite (M_bind_run _ _ s1 hp s1) by (unfold lift, index; by rewrite Hhp).
  rewrite (M_bind_run _ _ s1 pts s1) by (by apply load_run).
  set (s2 := mkState t (<[hp := remove_first secret pts]> h)).
  assert (((if bool_decide (secret ∈ pts)
            then store hp (remove_first secret pts) else mret tt) : M unit) s1
          = Ok (tt, s2)) as Hstore.
  { case_bool_decide as Hsec; [done|].
    unfold mret, M_ret, s1, s2. do 3 f_equal.
    rewrite remove_first_notin by done. by rewrite insert_id. }
  rewrite (M_bind_run _ _ s1 tt s2 Hstore). reflexivity.
Qed.

(** The candidates that encryption builds hold a point other than the
    secret. *)
Lemma candidate_second_point d q (secret pole : point) :
  Z.prime q → 1 < d →
  is_point (mkSpace (Z.to_nat d) q) pole →
  ∃ p, p ∈ filter (fun p => dot q pole p = 0)
                  (rational_points (mkSpace (Z.to_nat d) q)) ∧ p ≠ secret.
Proof.
  intros Hq Hd Hpole. set (P := mkSpace (Z.to_nat d) q) in *.
  destruct (kernel_second_point P Hq pole secret) as (o & [Ho Hdot] & Hne);
    [simpl; lia|done|].
  exists o. split; [|done]. apply list_elem_of_filter. split; [done|].
  by apply is_point_rational_points.
Qed.

(** X17: encryption raises nothing, whatever its arguments, the draws and
    the fuel: a run prints a refusal, prints the secret with its line and
    its splitters, or stops for want of a draw or of fuel for another
    attempt at the splitters. (No [None] for the second point, no empty
    list of candidates, no empty hyperplane.) *)
Theorem encrypt_never_raises fuel d q tape :
  run (t_threshold_encrypt fuel d q) tape = OutOfFuel ∨
  ∃ msgs, run (t_threshold_encrypt fuel d q) tape = Ok msgs.
Proof.
  destruct ((q <=? 1) || (d <=? 1)) eqn:Hc1.
  { right. unfold t_threshold_encrypt. rewrite Hc1. by eexists. }
  destruct (GF.is_prime q) eqn:Hprime.
  2:{ right. unfold t_threshold_encrypt. rewrite Hc1, Hprime. by eexists. }
  apply orb_false_iff in Hc1 as [_ Hd]. apply Z.leb_gt in Hd.
  pose proof (is_prime_prime q Hprime) as Hq.
  destruct tape as [|a [|b t]];
    [left; by rewrite (encrypt_short_tape d q Hprime Hd) by (simpl; lia)..|].
  destruct (encrypt_prefix d q Hprime Hd a b t)
    as (secret & second & line & dict & m & s & cands & _ & Hps & _ & _ & _ & _
        & _ & _ & _ & _ & Hm & Hne & Hcands & Hrun).
  rewrite !run_bind, Hrun.
  destruct (get_secret_splitter_safe fuel m secret d q cands s Hm Hne)
    as [Hout|(r & s' & v & Hget & Hto)].
  - intros l Hl. destruct (Hcands l Hl) as (_ & pole & Hpole & _ & Hheap & _).
    destruct (candidate_second_point d q secret pole Hq Hd Hpole) as (p & Hp & Hpne).
    exists (filter (fun p => dot q pole p = 0)
              (rational_points (mkSpace (Z.to_nat d) q))), p.
    done.
  - left. by rewrite (M_bind_OutOfFuel _ _ s Hout).
  - right. rewrite (M_bind_run _ _ s r s' Hget), (M_bind_run _ _ s' v s' Hto).
    by eexists.
Qed.

(** X18: in dimension 2, over a prime field, encryption succeeds on
    every tape with three draws, with fuel for one attempt: the first draw
    selects the secret among the points of the plane, and the run prints
    it with its line and its splitters. *)
Theorem encrypt_plane_total fuel q a b c t :
  GF.is_prime q = true →
  ∃ secret line splitters,
    rational_points (mkSpace 2 q)
      !! (a mod length (rational_points (mkSpace 2 q)))%nat = Some secret ∧
    run (t_threshold_encrypt (S fuel) 2 q) (a :: b :: c :: t)
    = Ok [Secret secret; SecretLine line; Splitters splitters].
Proof.
  intros Hprime.
  destruct (encrypt_prefix 2 q Hprime ltac:(lia) a b (c :: t))
    as (secret & second & line & dict & m & s & cands & Hsec & _ & _ & _ & _ & _
        & Htape & _ & _ & _ & Hm & Hne & Hcands & Hrun).
  destruct (get_secret_splitter_plane fuel m secret q cands s c t Hm Hne)
    as (hp & pts & Hin & Hpts & Hget); [|done|].
  { intros l Hl. destruct (Hcands l Hl) as (_ & pole & _ & _ & -> & _). done. }
  exists secret, line, (remove_first secret pts). split; [done|].
  rewrite run_bind, Hrun.
  set (s1 := mkState t (<[hp := remove_first secret pts]> (heap s))) in *.
  rewrite (M_bind_run _ _ s (Shared hp) s1 Hget).
  rewrite (M_bind_run _ _ s1 (remove_first secret pts) s1).
  - done.
  - apply load_run. simpl. by rewrite lookup_insert_eq.
Qed.

(** X19: the printed secret line shows the secret: the second entry of
    the list is the secret, whatever the draws (the first entry is the
    second point of the line). *)
Theorem encrypt_line_shows_secret fuel d q tape secret
    (line splitters : list point) :
  run (t_threshold_encrypt fuel d q) tape
    = Ok [Secret secret; SecretLine line; Splitters splitters] →
  line !! 1%nat = Some secret.
Proof.
  intros Henc.
  destruct (t_threshold_encrypt_Ok _ _ _ _ _ _ _ Henc)
    as (P & second & pole & HP & Hd & Hprime & Hq & Hs & Ht & Hne & Hline & _).
  assert (Z.prime (order P)) as Hq' by (by rewrite HP).
  destruct (points_on_line_first_two P Hq' secret second Hs Ht (not_eq_sym Hne))
    as [rest Hrest].
  rewrite Hline in Hrest. by injection Hrest as ->.
Qed.

(** X20: the splitters that encryption prints are points of one
    hyperplane through the secret, at least as many as the dimension, and
    the secret is not among them. *)
Theorem encrypt_splitters fuel d q tape secret (line splitters : list point) :
  run (t_threshold_encrypt fuel d q) tape
    = Ok [Secret secret; SecretLine line; Splitters splitters] →
  (secret ∉ splitters) ∧
  d ≤ Z.of_nat (length splitters) ∧
  ∃ pole, is_point (mkSpace (Z.to_nat d) q) pole ∧ dot q pole secret = 0 ∧
          Forall (fun p => is_point (mkSpace (Z.to_nat d) q) p ∧
                           dot q pole p = 0) splitters.
Proof.
  intros Henc.
  destruct (t_threshold_encrypt_Ok _ _ _ _ _ _ _ Henc)
    as (P & second0 & pole0 & HP & Hd & Hprime & Hq & Hs0 & Ht0 & Hne0 & Hline0
        & Hpole0 & Hdot0 & Hcut0 & Hspl0).
  assert (d ≤ Z.of_nat (length splitters)) as Hlen.
  { assert (order P = q) as Hoq by (by rewrite HP).
    assert (dimension P = Z.to_nat d) as Hdd by (by rewrite HP).
    rewrite <- Hoq in Hq, Hdot0, Hspl0.
    destruct (splitters_length P Hq ltac:(lia) secret pole0 splitters Hs0 Hpole0
                Hdot0) as [H2 Hdl]; [|lia].
    destruct Hspl0 as [[-> ->]|(Hd2 & Hrk & Hall)]; [left; by rewrite Hdd|].
    right. split; [lia|]. split; [lia|done]. }
  split; [|split; [done|]].
  - destruct tape as [|a [|b t]];
      [by rewrite (encrypt_short_tape d q Hprime Hd) in Henc by (simpl; lia)..|].
    destruct (encrypt_prefix d q Hprime Hd a b t)
      as (secret' & second & line' & dict & m & s & cands & _ & Hps & _ & _ & _ & _
          & _ & _ & _ & _ & Hm & Hne & Hcands & Hrun).
    apply run_Ok in Henc as [sf Hout]. rewrite Hrun in Hout.
    apply M_bind_Ok in Hout as (r & s1 & Hget & Hout).
    apply M_bind_Ok in Hout as (spl & s2 & Hto & Hout).
    apply mret_Ok in Hout as [[= -> -> ->] _].
    destruct (get_secret_splitter_heap fuel m secret d q cands s r s1 Hm)
      as (_ & hp & pts & pts' & Hin & Hpts & Hpts' & Hperm & Hnot & Hres);
      [|done|].
    { intros l lp Hl Hlp. destruct (Hcands l Hl) as (_ & pole & _ & _ & Hheap & _).
      rewrite Hheap in Hlp. injection Hlp as <-.
      apply NoDup_filter, NoDup_rational_points. }
    destruct Hres as [(-> & ->)|(_ & v & -> & Hv)].
    + apply load_Ok in Hto as [Hto _]. rewrite Hpts' in Hto. by injection Hto as ->.
    + apply mret_Ok in Hto as [<- _]. intros Hsec. by apply Hnot, Hv.
  - exists pole0. split; [by rewrite <- HP|]. split; [done|].
    assert (order P = q) as Hoq by (by rewrite HP).
    rewrite <- Hoq in Hq.
    apply Forall_forall. intros p Hp.
    assert (p ∈ filter (fun p => dot q pole0 p = 0) (rational_points P)) as Hin.
    { destruct Hspl0 as [[_ ->]|(_ & _ & Hall)]; [|by apply Hall].
      by apply remove_first_incl in Hp. }
    apply list_elem_of_filter in Hin as [Hdot Hin]. split; [|done].
    rewrite <- HP. apply rational_points_is_point; [|done].
    apply (order_gt_1 _ Hq).
Qed.

(** ** Arcs and the selection of the splitters, on their own *)

(** X13: [is_general_position] looks at the sublists of three points, in
    the order of the list: it is the test that each of them has a matrix
    of rank 3. So a list of fewer than three points always passes, and a
    sublist of a list that passes does. *)
Theorem is_general_position_spec (arc : list point) (q : Z) :
  (is_general_position arc q = true ↔
   ∀ a b c, [a; b; c] `sublist_of` arc → rank q [a; b; c] = 3%nat) ∧
  ((length arc < 3)%nat → is_general_position arc q = true) ∧
  (∀ arc', arc' `sublist_of` arc → is_general_position arc q = true →
           is_general_position arc' q = true).
Proof.
  split; [|split].
  - rewrite is_general_position_true. split.
    + intros H a b c Hsub.
      pose proof (H [a; b; c] Hsub eq_refl) as Hge.
      assert (rank q [a; b; c] ≤ 3)%nat as Hle; [|lia].
      unfold rank. etrans; [apply rank_cols_le_rows|]. by rewrite length_map.
    + intros H three Hsub Hlen.
      destruct three as [|a [|b [|c [|? ?]]]]; try done.
      by rewrite (H a b c Hsub).
  - intros Hlen. apply is_general_position_true. intros three Hsub Hl3.
    apply sublist_length in Hsub. lia.
  - intros arc' Hsub. by apply is_general_position_sublist.
Qed.

Lemma find_largest_general_position_subset_empty l (secret : point) q s :
  heap s !! l = Some [] →
  find_largest_general_position_subset l secret q s = Raise IndexError.
Proof.
  intros Hl. unfold find_largest_general_position_subset, shuffle.
  unfold mbind, M_bind, load, store. rewrite Hl. simpl.
  by rewrite lookup_insert_eq.
Qed.

(** X21: what [get_secret_splitter] raises. A secret that is no key of the
    mapping is a [KeyError]. When the dimension is not 2 and the hyperplane
    drawn holds no point besides the secret, the selection of an arc finds
    its pool empty: an [IndexError]. *)
Theorem get_secret_splitter_errors fuel m (secret : point) d q s :
  (m !! secret = None →
   get_secret_splitter (S fuel) m secret d q s = Raise KeyError) ∧
  (∀ cands k t hp pts,
     m !! secret = Some cands → tape s = k :: t →
     cands !! (k mod length cands)%nat = Some hp →
     heap s !! hp = Some pts → remove_first secret pts = [] → d ≠ 2 →
     get_secret_splitter (S fuel) m secret d q s = Raise IndexError).
Proof.
  split.
  - intros Hm. cbn [get_secret_splitter]. unfold mbind, M_bind, lookup_key.
    by rewrite Hm.
  - intros cands k t hp pts Hm Ht Hhp Hpts Hrem Hd.
    destruct s as [tp h]. simpl in Ht, Hpts. subst tp.
    assert (cands ≠ []) as Hne by (intros ->; done).
    cbn [get_secret_splitter].
    rewrite (M_bind_run _ _ _ cands (mkState (k :: t) h))
      by (unfold lookup_key; by rewrite Hm).
    unfold randint0. rewrite decide_False by (by destruct cands).
    set (s1 := mkState t h).
    rewrite (M_bind_run _ (randbelow (length cands)) (mkState (k :: t) h)
               (k mod length cands)%nat s1) by done.
    rewrite (M_bind_run _ _ s1 hp s1) by (unfold lift, index; by rewrite Hhp).
    rewrite (M_bind_run _ _ s1 pts s1) by (by apply load_run).
    set (s2 := mkState t (<[hp := []]> h)).
    assert (((if bool_decide (secret ∈ pts)
              then store hp (remove_first secret pts) else mret tt) : M unit) s1
            = Ok (tt, s2)) as Hstore.
    { rewrite Hrem. case_bool_decide as Hsec; [done|].
      rewrite remove_first_notin in Hrem by done. subst pts.
      unfold mret, M_ret, s1, s2. do 3 f_equal. by rewrite insert_id. }
    rewrite (M_bind_run _ _ s1 tt s2 Hstore).
    rewrite bool_decide_eq_false_2 by done.
    unfold mbind at 1, M_bind at 1.
    rewrite (find_largest_general_position_subset_empty hp secret q s2); [done|].
    simpl. by rewrite lookup_insert_eq.
Qed.

Lemma remove_first_length (x : point) (l : list point) :
  (length (remove_first x l) ≤ length l)%nat.
Proof.
  induction l as [|y l IH]; simpl; [done|].
  destruct (decide (x = y)); simpl; lia.
Qed.

(** With draws for the shuffle, the selection of an arc in a pool that is
    not empty returns. *)
Lemma find_largest_general_position_subset_total l (secret : point) q s pts :
  heap s !! l = Some pts → pts ≠ [] → (length pts - 1 ≤ length (tape s))%nat →
  ∃ subset pts' t,
    find_largest_general_position_subset l secret q s
    = Ok (subset, mkState t (<[l := pts']> (heap s))) ∧ pts' ≡ₚ pts.
Proof.
  intros Hl Hne Hlen.
  destruct (find_largest_general_position_subset_safe l secret q s pts Hl Hne)
    as [Hout|?]; [|done].
  exfalso. destruct (shuffle_total l pts s Hl Hlen) as (pts' & t & Hsh & Hp & _).
  unfold find_largest_general_position_subset in Hout.
  rewrite (M_bind_run _ _ s tt _ Hsh) in Hout.
  rewrite (M_bind_run _ _ _ pts' (mkState t (<[l := pts']> (heap s)))) in Hout
    by (apply load_run; simpl; by rewrite lookup_insert_eq).
  destruct pts' as [|f pool]; [by apply Permutation_nil_l in Hp|].
  rewrite (M_bind_run _ _ _ f (mkState t (<[l := f :: pool]> (heap s))))
    in Hout by done.
  done.
Qed.

(** X22: no attempt of [get_secret_splitter] raises when the secret is a
    key of the mapping, with candidates, each a list object that holds a
    point besides the secret, and the draws for one attempt are there:
    the attempt returns splitters, which [list] can copy, or its arc fails
    the rank test and the call is the next attempt, on candidates that
    again hold a point besides the secret. (Nothing bounds the number of
    attempts: a chain that never passes the rank test ends, in CPython,
    with a [RecursionError], where the model runs out of fuel.) *)
Theorem get_secret_splitter_attempt fuel m (secret : point) d q cands s :
  m !! secret = Some cands → cands ≠ [] →
  (∀ l, l ∈ cands →
     ∃ pts p, heap s !! l = Some pts ∧ p ∈ pts ∧ p ≠ secret ∧
              (length pts ≤ length (tape s))%nat) →
  (∃ r s' v, get_secret_splitter (S fuel) m secret d q s = Ok (r, s') ∧
             to_list r s' = Ok (v, s'))
  ∨ ∃ subset s1,
      d ≠ 2 ∧ Z.of_nat (rank q subset) < d ∧
      get_secret_splitter (S fuel) m secret d q s
      = get_secret_splitter fuel m secret d q s1 ∧
      ∀ l, l ∈ cands → ∃ pts p, heap s1 !! l = Some pts ∧ p ∈ pts ∧ p ≠ secret.
Proof.
  intros Hm Hne Hcands.
  cbn [get_secret_splitter].
  rewrite (M_bind_run _ _ s cands s) by (unfold lookup_key; by rewrite Hm).
  unfold randint0. rewrite decide_False by (by destruct cands).
  destruct s as [[|k t] h].
  { destruct cands as [|l0 cands]; [done|].
    destruct (Hcands l0) as (pts & p & _ & Hp & _ & Hlen); [by left|].
    destruct pts; [by apply elem_of_nil in Hp|]. simpl in Hlen. lia. }
  set (s1 := mkState t h).
  rewrite (M_bind_run _ (randbelow (length cands)) (mkState (k :: t) h)
             (k mod length cands)%nat s1) by done.
  destruct (lookup_lt_is_Some_2 cands (k mod length cands)%nat) as [hp Hhp].
  { apply Nat.mod_upper_bound. by destruct cands. }
  rewrite (M_bind_run _ _ s1 hp s1) by (unfold lift, index; by rewrite Hhp).
  assert (hp ∈ cands) as Hin by (by eapply list_elem_of_lookup_2).
  destruct (Hcands hp Hin) as (pts & p & Hpts & Hp & Hps & Hlen).
  simpl in Hpts, Hlen.
  rewrite (M_bind_run _ _ s1 pts s1) by (by apply load_run).
  set (s2 := mkState t (<[hp := remove_first secret pts]> h)).
  assert (((if bool_decide (secret ∈ pts)
            then store hp (remove_first secret pts) else mret tt) : M unit) s1
          = Ok (tt, s2)) as Hstore.
  { case_bool_decide as Hsec; [done|].
    unfold mret, M_ret, s1, s2. do 3 f_equal.
    rewrite remove_first_notin by done. by rewrite insert_id. }
  rewrite (M_bind_run _ _ s1 tt s2 Hstore).
  assert (p ∈ remove_first secret pts) as Hp' by (by apply remove_first_other).
  clear Hstore. destruct (bool_decide (d = 2)) eqn:Hd.
  { left. exists (Shared hp), s2, (remove_first secret pts).
    split; [reflexivity|].
    apply load_run. simpl. by rewrite lookup_insert_eq. }
  apply bool_decide_eq_false in Hd.
  destruct (find_largest_general_position_subset_total hp secret q s2
              (remove_first secret pts))
    as (subset & pts' & t' & Hsub & Hperm).
  { simpl. by rewrite lookup_insert_eq. }
  { intros Hnil. rewrite Hnil in Hp'. by apply elem_of_nil in Hp'. }
  { pose proof (remove_first_length secret pts). simpl. lia. }
  rewrite (M_bind_run _ _ s2 subset _ Hsub).
  destruct (bool_decide (d ≤ Z.of_nat (rank q subset))) eqn:Hrk.
  { left. eexists (Local subset), _, subset. split; reflexivity. }
  apply bool_decide_eq_false in Hrk.
  right. eexists subset, _. split; [done|]. split; [lia|].
  split; [reflexivity|].
  intros l Hl. simpl. rewrite insert_insert_eq.
  destruct (decide (l = hp)) as [->|Hlne].
  - rewrite lookup_insert_eq. exists pts', p. split; [done|].
    split; [by rewrite Hperm|done].
  - rewrite lookup_insert_ne by done.
    destruct (Hcands l Hl) as (pts0 & p0 & ? & ? & ? & _). by exists pts0, p0.
Qed.

(** ** The rank of a matrix with two independent rows *)

Lemma find_pivot_member rows p others (r : list Z) :
  find_pivot rows = Some (p, others) → r ∈ rows → r = p ∨ r ∈ others.
Proof.
  revert others. induction rows as [|r0 rows IH]; intros others; [done|].
  simpl. case_bool_decide as Hh.
  - intros [= <- <-] [->|Hr]%elem_of_cons; [by left|by right].
  - destruct (find_pivot rows) as [[p' o']|]; [|done].
    intros [= <- <-] [->|Hr]%elem_of_cons.
    + right. by left.
    + destruct (IH o' eq_refl Hr) as [?|?]; [by left|right; by right].
Qed.

Lemma combine_points_scaled q z a c1 c2 (p : list Z) :
  combine_points q z a (map (GF.mul q c1) p) (map (GF.mul q c2) p)
  = map (GF.mul q (z * c1 + a * c2)) p.
Proof.
  unfold combine_points. induction p as [|x p IH]; [done|].
  simpl. rewrite IH. f_equal. unfold GF.add, GF.mul. mod_ring q.
Qed.

Section RankLower.
Variable q : Z.
Hypothesis Hq : Z.prime q.

Let Pq : ProjectiveSpace := mkSpace 0 q.

(** A matrix with a row that is not zero has rank at least 1. *)
Lemma rank_cols_nonzero n rows (r : list Z) :
  (∀ r, r ∈ rows → is_vector q n r) → r ∈ rows →
  ¬ Forall (fun x => x = 0) r → (1 ≤ rank_cols q n rows)%nat.
Proof.
  revert rows r. induction n as [|n IH]; intros rows r Hv Hr Hnz.
  - destruct (Hv r Hr) as [Hl _]. destruct r; [|done].
    exfalso. apply Hnz. constructor.
  - rewrite rank_cols_S.
    destruct (find_pivot rows) as [[p o]|] eqn:Hp; [lia|].
    destruct (is_vector_cons_inv q n r (Hv r Hr)) as (x & r' & -> & Hx & Hr').
    pose proof (find_pivot_None rows Hp _ Hr) as H0. simpl in H0. subst x.
    apply (IH (map (@tail Z) rows) r').
    + intros t Ht. apply list_elem_of_fmap in Ht as (t0 & -> & Ht0).
      destruct (is_vector_cons_inv q n t0 (Hv _ Ht0)) as (? & ? & -> & _ & ?).
      done.
    + apply list_elem_of_fmap. by exists (0 :: r').
    + intros Hz. apply Hnz. by constructor.
Qed.

(** A row that elimination by the pivot row turns into zero is a
    multiple of the pivot row. *)
Lemma eliminated_to_zero c (r p : list Z) :
  Forall (fun x => 0 ≤ x < q) r → length r = length p →
  Forall (fun x => x = 0) (row_sub q c r p) → r = map (GF.mul q c) p.
Proof.
  intros Hr Hlen H0. rewrite (row_sub_restore q c r p Hr Hlen) at 1.
  apply (vadd_zero_l Pq); [done| |].
  - unfold row_sub. rewrite length_zip_with, length_map. lia.
  - apply (scale_reduced Pq Hq).
Qed.

(** A matrix with two independent rows has rank at least 2. *)
Lemma rank_cols_two n rows (a b : list Z) :
  (∀ r, r ∈ rows → is_vector q n r) → a ∈ rows → b ∈ rows →
  (∀ z c, Forall (fun x => x = 0) (combine_points q z c a b) →
          z mod q = 0 ∧ c mod q = 0) →
  (2 ≤ rank_cols q n rows)%nat.
Proof.
  pose proof (order_gt_1 q Hq) as Hq1.
  pose proof (one_mod_nonzero q Hq) as H1q.
  revert rows a b. induction n as [|n IH]; intros rows a b Hv Ha Hb Hind.
  - destruct (Hv a Ha) as [Hla _], (Hv b Hb) as [Hlb _].
    destruct a, b; try done.
    destruct (Hind 1 1) as [H1 _]; [constructor|]. done.
  - rewrite rank_cols_S.
    destruct (find_pivot rows) as [[p others]|] eqn:Hp.
    + enough (1 ≤ rank_cols q n
                (map (fun r => tail (row_sub q (GF.mul q (hd 0%Z r)
                                       (GF.inv q (hd 0%Z p))) r p)) others))%nat
        by lia.
      destruct (pivot_row q n rows p others Hv Hp) as (y & p' & -> & Hy & Hp').
      assert (∀ r, r ∈ others →
                Forall (fun x => x = 0)
                  (tail (row_sub q (GF.mul q (hd 0 r) (GF.inv q y)) r (y :: p')))
                → Forall (fun x => x = 0)
                    (row_sub q (GF.mul q (hd 0 r) (GF.inv q y)) r (y :: p')))
        as Htail.
      { intros r Hr H0.
        apply find_pivot_Some in Hp as (_ & _ & Ho & _).
        destruct (is_vector_cons_inv q n r (Hv r (Ho r Hr)))
          as (x & r' & -> & Hx & Hlr & _).
        destruct Hp' as [Hlp _].
        destruct (row_sub_pivot q Hq n x r' y p' Hx Hy Hlr Hlp)
          as (e & He & _).
        cbn [hd] in *. rewrite He in H0 |- *. by constructor. }
      assert (∀ r, r ∈ others →
                ¬ Forall (fun x => x = 0)
                    (row_sub q (GF.mul q (hd 0 r) (GF.inv q y)) r (y :: p')) →
                (1 ≤ rank_cols q n
                   (map (fun r => tail (row_sub q (GF.mul q (hd 0%Z r)
                                          (GF.inv q (hd 0%Z (y :: p')))) r
                                          (y :: p'))) others))%nat)
        as Hone.
      { intros r Hr Hnz.
        apply (rank_cols_nonzero n _
                 (tail (row_sub q (GF.mul q (hd 0 r) (GF.inv q y)) r (y :: p')))).
        - intros r' Hr'.
          by apply (eliminated_rows q Hq n rows (y :: p') others Hv Hp).
        - apply list_elem_of_fmap. by exists r.
        - intros H0. by apply Hnz, Htail. }
      assert (∀ r, r ∈ rows → length r = length (y :: p')) as Hlen.
      { intros r Hr. destruct (Hv r Hr) as [-> _].
        destruct Hp' as [Hlp _]. simpl. lia. }
      destruct (find_pivot_member rows _ _ a Hp Ha) as [->|Hao];
        destruct (find_pivot_member rows _ _ b Hp Hb) as [->|Hbo].
      * destruct (Hind 1 (-1)) as [H1 _]; [|done].
        rewrite combine_points_same. by apply (scale_zero Pq Hq).
      * apply (Hone b Hbo). intros H0. rewrite row_sub_combine in H0.
        by destruct (Hind _ _ H0) as [_ H1].
      * apply (Hone a Hao). intros H0. rewrite row_sub_combine' in H0.
        by destruct (Hind _ _ H0) as [H1 _].
      * set (ca := GF.mul q (hd 0 a) (GF.inv q y)).
        set (cb := GF.mul q (hd 0 b) (GF.inv q y)).
        destruct (decide (Forall (fun x => x = 0) (row_sub q ca a (y :: p'))))
          as [Hza|Hza]; [|by apply (Hone a Hao)].
        destruct (decide (Forall (fun x => x = 0) (row_sub q cb b (y :: p'))))
          as [Hzb|Hzb]; [|by apply (Hone b Hbo)].
        exfalso.
        apply eliminated_to_zero in Hza; [|by destruct (Hv a Ha)|by apply Hlen].
        apply eliminated_to_zero in Hzb; [|by destruct (Hv b Hb)|by apply Hlen].
        destruct (Hind cb (- ca)) as [Hcb Hca].
        { rewrite Hza, Hzb at 1. rewrite combine_points_scaled.
          apply (scale_zero Pq Hq). simpl.
          transitivity (0 mod q); [mod_ring q|by apply Z.mod_0_l; lia]. }
        destruct (Hind 1 0) as [H1 _]; [|done].
        rewrite (combine_points_1_0 Pq Hq);
          [|by rewrite (Hlen a Ha), (Hlen b Hb)|by destruct (Hv a Ha)].
        rewrite Hza. apply (scale_zero Pq Hq). simpl.
        rewrite <- (Z.opp_involutive ca), Z.mod_opp_l_z; [done|lia|done].
    + destruct (is_vector_cons_inv q n a (Hv a Ha)) as (a0 & a' & -> & _ & Ha').
      destruct (is_vector_cons_inv q n b (Hv b Hb)) as (b0 & b' & -> & _ & Hb').
      pose proof (find_pivot_None rows Hp _ Ha) as Ha0.
      pose proof (find_pivot_None rows Hp _ Hb) as Hb0. cbn [hd] in *.
      subst a0 b0.
      apply (IH (map (@tail Z) rows) a' b').
      * intros t Ht. apply list_elem_of_fmap in Ht as (t0 & -> & Ht0).
        destruct (is_vector_cons_inv q n t0 (Hv _ Ht0))
          as (? & ? & -> & _ & ?).
        done.
      * apply list_elem_of_fmap. by exists (0 :: a').
      * apply list_elem_of_fmap. by exists (0 :: b').
      * intros z c H0. apply Hind. rewrite combine_points_cons.
        constructor; [|done]. unfold GF.add, GF.mul. by rewrite !Z.mul_0_r.
Qed.

End RankLower.

(** A list that holds two points of the space has rank at least 2. *)
Lemma rank_two_points P (l : list point) (a b : point) :
  Z.prime (order P) → Forall (is_point P) l → a ∈ l → b ∈ l → a ≠ b →
  (2 ≤ rank (order P) l)%nat.
Proof.
  intros Hq Hl Ha Hb Hne.
  rewrite (rank_points P);
    [|intros ->; by apply elem_of_nil in Ha|done].
  rewrite Forall_forall in Hl.
  apply (rank_cols_two (order P) Hq _ l a b); [|done..|].
  - intros r Hr. by apply is_point_is_vector, Hl.
  - intros z c. apply (points_independent P Hq); [by apply Hl..|done].
Qed.

(** The points of a line of the plane, without the secret, have rank 2. *)
Lemma plane_pool_rank q (pole secret : point) :
  Z.prime q → is_point (mkSpace 2 q) pole → is_point (mkSpace 2 q) secret →
  dot q pole secret = 0 →
  2 ≤ Z.of_nat (rank q (remove_first secret
                          (filter (fun p => dot q pole p = 0)
                                  (rational_points (mkSpace 2 q))))).
Proof.
  intros Hq Hpole Hsecret Hdot. set (P := mkSpace 2 q).
  pose proof (order_gt_1 _ Hq) as Hq1.
  destruct (hyperplane_two_points P Hq eq_refl pole secret (rational_points P)
              Hpole) as (a & b & Hne & Ha & Hb); [done| |].
  { intros p. apply is_point_rational_points. }
  enough (2 ≤ rank (order P)
                (remove_first secret
                   (filter (fun p => dot q pole p = 0%Z) (rational_points P))))%nat
    by (simpl in *; lia).
  apply (rank_two_points P _ a b); [done| |done..].
  apply Forall_forall. intros p Hp. apply remove_first_incl in Hp.
  apply list_elem_of_filter in Hp as [_ Hp].
  by apply rational_points_is_point.
Qed.

(** ** C7 *)


(** So the splitters that a run of encryption prints have rank at least
    the dimension, in every dimension. *)
Lemma encrypt_splitters_rank fuel d q tape secret (line splitters : list point) :
  run (t_threshold_encrypt fuel d q) tape
    = Ok [Secret secret; SecretLine line; Splitters splitters] →
  d ≤ Z.of_nat (rank q splitters).
Proof.
  intros Henc.
  destruct (t_threshold_encrypt_Ok _ _ _ _ _ _ _ Henc)
    as (P & second & pole & -> & Hd & _ & Hq & Hs & _ & _ & _ & Hpole & Hdot
        & _ & [(-> & ->)|(_ & Hrk & _)]); [|done].
  exact (plane_pool_rank q pole secret Hq Hpole Hs Hdot).
Qed.

(** ** C2 *)

(** C2, as amended. Past its checks, on shares and a secret line that
    Sage takes as points, decryption returns once it has fuel for the
    closure, and prints the restored hyperplane and, as the decrypted
    secret, the whole set of the points of the restored hyperplane that
    lie on the secret line, whatever the size of that set: no exception,
    no refusal, no choice of one point among several. When exactly one
    point [p] is common, the set printed is [{p}]. *)
Theorem decrypt_prints_whole_intersection
    (shares line : list (list Z)) (first : list Z) P (sh ln : list point) :
  line !! 0%nat = Some first →
  P = mkSpace (Z.to_nat (Z.of_nat (length first) - 1))
              (Z.of_nat (length line) - 1) →
  1 < Z.of_nat (length first) - 1 →
  Z.of_nat (length first) - 1 ≤ Z.of_nat (length shares) →
  GF.is_prime (order P) = true →
  mapM (projective_space P) shares = Ok sh →
  mapM (projective_space P) line = Ok ln →
  ∃ n, ∀ fuel, (n ≤ fuel)%nat →
    ∃ l s,
      reconstruct_hyperplane fuel sh P = Ok {[1%nat := l]} ∧
      t_threshold_decrypt fuel shares line
      = Ok [RestoredHyperplane {[1%nat := l]}; DecryptedSecret s] ∧
      (∀ p, p ∈ s ↔ p ∈ ln ∧ p ∈ l) ∧
      (∀ p, (∀ x, x ∈ ln ∧ x ∈ l ↔ x = p) → s = {[p]}).
Proof.
  intros Hfirst HP Hd Hnd Hprime Hsh Hln.
  pose proof (is_prime_prime _ Hprime) as Hq.
  pose proof (order_gt_1 _ Hq) as Hq1.
  assert (Forall (is_point P) sh) as Hpts.
  { pose proof Hsh as Hsh'. apply mapM_Ok_Forall2 in Hsh'. clear -Hsh' Hq.
    induction Hsh' as [|v p ? ? Hv _ IH]; constructor; [|done].
    by apply (projective_space_is_point P Hq) in Hv. }
  exists (3 * (length sh + space_size P) + 3)%nat. intros fuel Hf.
  destruct (closure_terminates_from P Hq sh Hpts
              (length sh + space_size P) fuel sh)
    as (l & Hl & _ & _); [apply extends_refl|lia..|].
  exists l, (intersect_hyperplane_w_secret_line {[1%nat := l]} ln).
  assert (∀ p, p ∈ intersect_hyperplane_w_secret_line {[1%nat := l]} ln
               ↔ p ∈ ln ∧ p ∈ l) as Hel.
  { intros p. rewrite intersect_elem. split.
    - intros (Hp & k & pts & Hk & Hpts').
      by apply lookup_singleton_Some in Hk as [<- <-].
    - intros [Hp Hpl]. split; [done|]. exists 1%nat, l.
      by rewrite lookup_singleton_eq. }
  split; [done|]. split; [|split; [done|]].
  - apply (decrypt_Ok_intro fuel shares line first P sh ln {[1%nat := l]});
      try done; lia.
  - intros p Hp. apply set_eq. intros x. rewrite Hel, Hp. set_solver.
Qed.

(** ** C10 *)

(** What [find_largest_general_position_subset] leaves in the list object:
    the list as [random.shuffle] reorders it with the next draws. *)
Lemma find_largest_general_position_subset_exact l (secret : point) q s subset s2 :
  find_largest_general_position_subset l secret q s = Ok (subset, s2) →
  ∃ pts pool' t',
    heap s !! l = Some pts ∧
    shuffle_from (length pts - 1) pts s = Ok (pool', mkState t' (heap s)) ∧
    s2 = mkState t' (<[l := pool']> (heap s)) ∧
    ∀ p, p ∈ subset → p ∈ pool'.
Proof.
  intros H.
  destruct (find_largest_general_position_subset_Ok l secret q s subset s2 H)
    as (pts0 & pts' & Hl0 & _ & Hh2 & Hsub).
  unfold find_largest_general_position_subset in H.
  apply M_bind_Ok in H as (u & s1 & Hsh & H).
  unfold shuffle in Hsh. apply M_bind_Ok in Hsh as (x & sx & Hx & Hsh).
  apply load_Ok in Hx as [Hx ->].
  apply M_bind_Ok in Hsh as (x' & sh & Hx' & Hst).
  pose proof (shuffle_from_Ok _ _ _ _ _ Hx') as [_ Hheap].
  unfold store in Hst. injection Hst as _ <-.
  apply M_bind_Ok in H as (pool & s3 & Hpool & H).
  apply load_Ok in Hpool as [Hpool ->]. simpl in Hpool.
  rewrite lookup_insert_eq in Hpool. injection Hpool as <-.
  apply M_bind_Ok in H as (f & s3 & Hf & H).
  apply lift_Ok in Hf as [_ ->]. apply mret_Ok in H as [_ <-].
  exists x, x', (tape sh). split; [done|]. split; [|split].
  - rewrite Hx'. destruct sh. simpl in *. by rewrite Hheap.
  - by rewrite Hheap.
  - intros p Hp. specialize (Hsub p Hp). simpl in Hh2.
    apply (f_equal (fun h : gmap loc (list point) => h !! l)) in Hh2.
    rewrite !lookup_insert_eq in Hh2. by injection Hh2 as ->.
Qed.

(** C10. [get_secret_splitter] works on the list objects of the dictionary
    of hyperplanes, which the candidate mapping built by
    [find_hyperplanes_for_secret_line] only refers to: building the mapping
    leaves the heap as it is, and its candidates are locations of the
    dictionary. A call draws a candidate [hp] and changes the list object
    at [hp]: the secret goes and, when the dimension is not 2, the list is
    reordered, as [random.shuffle] does with the next draws. After this
    first attempt the heap is the heap before the call with the new list
    at [hp], and nothing else changed: that list is what every reference
    to [hp] in the mapping reads, and it does not hold the secret. In
    dimension 2 the call returns this list object; otherwise it returns a
    new list of points of it, or, when the rank test fails, goes on from
    that state with another attempt. Whatever the number of attempts, an
    object is unchanged or is a candidate of the secret that lost the
    secret and was reordered, and the list selected last does not hold
    the secret. *)
Theorem get_secret_splitter_mutates_shared_lists
    hyperplanes secret_line s0 m s fuel (secret : point) d q r s' :
  find_hyperplanes_for_secret_line hyperplanes secret_line s0 = Ok (m, s) →
  (∀ id l pts, (id, l) ∈ hyperplanes → heap s0 !! l = Some pts → NoDup pts) →
  get_secret_splitter fuel m secret d q s = Ok (r, s') →
  s = s0 ∧
  ∃ cands k t hp pts pool' t',
    m !! secret = Some cands ∧
    (∀ l, l ∈ cands → ∃ id, (id, l) ∈ hyperplanes) ∧
    tape s0 = k :: t ∧ cands !! (k mod length cands)%nat = Some hp ∧
    heap s0 !! hp = Some pts ∧
    (d = 2 ∧ pool' = remove_first secret pts ∧ t' = t
     ∨ d ≠ 2 ∧
       shuffle_from (length (remove_first secret pts) - 1)
         (remove_first secret pts) (select_heap secret hp pts s0 t)
       = Ok (pool', mkState t' (heap (select_heap secret hp pts s0 t)))) ∧
    (secret ∉ pool') ∧
    let s1 := mkState t' (<[hp := pool']> (heap s0)) in
    (∀ key ls i, m !! key = Some ls → ls !! i = Some hp →
                 ls !! i ≫= (heap s1 !!.) = Some pool') ∧
    (d = 2 ∧ r = Shared hp ∧ s' = s1
     ∨ d ≠ 2 ∧ ∃ subset,
         (∀ p, p ∈ subset → p ∈ pool') ∧
         (d ≤ Z.of_nat (rank q subset) ∧ r = Local subset ∧ s' = s1
          ∨ Z.of_nat (rank q subset) < d ∧
            get_secret_splitter (pred fuel) m secret d q s1 = Ok (r, s'))) ∧
    (∀ l, heap s' !! l = heap s0 !! l
          ∨ l ∈ cands ∧ ∃ pts pts', heap s0 !! l = Some pts ∧
                                     heap s' !! l = Some pts' ∧
                                     pts' ≡ₚ remove_first secret pts) ∧
    ∃ last pts0 pts',
      last ∈ cands ∧ heap s0 !! last = Some pts0 ∧
      heap s' !! last = Some pts' ∧
      pts' ≡ₚ remove_first secret pts0 ∧ (secret ∉ pts') ∧
      (d = 2 ∧ r = Shared last
       ∨ d ≠ 2 ∧ ∃ v, r = Local v ∧ ∀ p, p ∈ v → p ∈ pts').
Proof.
  intros Hfind Hnd Hget.
  apply find_hyperplanes_for_secret_line_Ok in Hfind as [-> Hm].
  split; [done|].
  destruct fuel as [|fuel]; [done|].
  pose proof Hget as Hinv.
  apply get_secret_splitter_inv in Hinv
    as (cands & k & t & hp & pts & Hc & Ht & Hhp & Hpts & Hinv).
  assert (∀ l, l ∈ cands → ∃ id, (id, l) ∈ hyperplanes) as Href.
  { intros l Hl. destruct (Hm secret cands l Hc Hl) as (_ & id & pts1 & ? & _).
    by exists id. }
  assert (∀ l pts, l ∈ cands → heap s0 !! l = Some pts → NoDup pts) as Hndc.
  { intros l pts1 Hl Hpts1. destruct (Href l Hl) as [id Hid]. by eapply Hnd. }
  destruct (get_secret_splitter_heap (S fuel) m secret d q cands s0 r s' Hc
              Hndc Hget) as [Hall Hlast].
  assert (hp ∈ cands) as Hin by (by eapply list_elem_of_lookup_2).
  destruct (remove_first_NoDup secret pts (Hndc hp pts Hin Hpts))
    as [_ Hsec].
  assert (∀ pool' t' key ls i,
            m !! key = Some ls → ls !! i = Some hp →
            ls !! i ≫= (heap (mkState t' (<[hp := pool']> (heap s0))) !!.)
            = Some pool') as Halias.
  { intros pool' t' key ls i _ Hi. rewrite Hi. simpl.
    by rewrite lookup_insert_eq. }
  destruct Hinv as [(Hd & -> & ->)|(Hd & subset & s2 & Hsub & Hinv)].
  - exists cands, k, t, hp, pts, (remove_first secret pts), t.
    do 5 (split; [done|]). split; [by left|]. split; [done|].
    split; [apply Halias|]. split; [by left|]. done.
  - apply find_largest_general_position_subset_exact in Hsub
      as (pts1 & pool' & t' & Hl1 & Hsh & -> & Hincl).
    simpl in Hl1. rewrite lookup_insert_eq in Hl1. injection Hl1 as <-.
    assert (mkState t' (<[hp := pool']> (heap (select_heap secret hp pts s0 t)))
            = mkState t' (<[hp := pool']> (heap s0))) as Heq
      by (simpl; by rewrite insert_insert_eq).
    rewrite Heq in Hinv.
    exists cands, k, t, hp, pts, pool', t'.
    do 5 (split; [done|]). split; [by right|]. split.
    { apply shuffle_from_Ok in Hsh as [Hp _]. by rewrite Hp. }
    split; [apply Halias|]. split; [|done].
    right. split; [done|]. exists subset. split; [done|].
    destruct Hinv as [(? & ? & ?)|(? & ?)]; [left|right]; done.
Qed.

(** ** The claims at concrete inputs *)

(** C2 fails as stated: two shares taken on the secret line itself close up
    to that line, the intersection has four points, and the engine prints
    the four of them as the decrypted secret; two equal shares give an
    empty intersection, printed likewise. No error is reported. *)
Lemma decrypt_prints_ambiguous_intersection :
  (∃ h s,
     t_threshold_decrypt 20 [[1; 0; 0]; [0; 1; 0]] Ex.line_z0
       = Ok [RestoredHyperplane h; DecryptedSecret s] ∧ size s = 4%nat)
  ∧ (∃ h,
     t_threshold_decrypt 20 [[1; 0; 0]; [1; 0; 0]] Ex.line_x0
       = Ok [RestoredHyperplane h; DecryptedSecret ∅]).
Proof.
  split.
  - eexists _, _. split; [vm_compute; reflexivity|]. vm_compute. reflexivity.
  - eexists. vm_compute. reflexivity.
Qed.

Lemma decrypt_prints_whole_intersection_witness :
  ∃ n, ∀ fuel, (n ≤ fuel)%nat →
    ∃ l s,
      reconstruct_hyperplane fuel [[1; 0; 0]; [0; 1; 0]] Ex.PG23
        = Ok {[1%nat := l]} ∧
      t_threshold_decrypt fuel [[1; 0; 0]; [0; 1; 0]] Ex.line_z0
      = Ok [RestoredHyperplane {[1%nat := l]}; DecryptedSecret s] ∧
      (∀ p, p ∈ s ↔ p ∈ Ex.line_z0 ∧ p ∈ l) ∧
      (∀ p, (∀ x, x ∈ Ex.line_z0 ∧ x ∈ l ↔ x = p) → s = {[p]}).
Proof.
  apply (decrypt_prints_whole_intersection [[1; 0; 0]; [0; 1; 0]] Ex.line_z0
           [0; 1; 0] Ex.PG23 [[1; 0; 0]; [0; 1; 0]] Ex.line_z0).
  - reflexivity.
  - reflexivity.
  - simpl. lia.
  - simpl. lia.
  - reflexivity.
  - vm_compute. reflexivity.
  - vm_compute. reflexivity.
Defined.

(** C3 fails as stated: two shares in dimension 3 are refused by a printed
    line, the call returns normally and no error is raised. *)
Lemma two_shares_in_dimension_3_refused :
  t_threshold_decrypt 20 [[1; 0; 0; 0]; [0; 1; 0; 0]] Ex.line_PG32
    = Ok [SorryTooFewSecrets]
  ∧ ∀ e, t_threshold_decrypt 20 [[1; 0; 0; 0]; [0; 1; 0; 0]] Ex.line_PG32
         ≠ Raise e.
Proof. split; [reflexivity|]. intros e. vm_compute. discriminate. Qed.

Lemma decrypt_too_few_shares_witness :
  t_threshold_decrypt 20 [[1; 0; 0; 0]; [0; 1; 0; 0]] Ex.line_PG32
    = Ok [SorryMustExceedOne]
  ∨ t_threshold_decrypt 20 [[1; 0; 0; 0]; [0; 1; 0; 0]] Ex.line_PG32
    = Ok [SorryTooFewSecrets].
Proof.
  apply (decrypt_too_few_shares 20 [[1; 0; 0; 0]; [0; 1; 0; 0]] Ex.line_PG32
           [0; 0; 1; 0]).
  - reflexivity.
  - simpl. lia.
Defined.

(** C4 fails as stated: the failure on an empty candidate list is the
    [ValueError] of the random draw. *)
Lemma get_secret_splitter_empty_candidates :
  get_secret_splitter 5 Ex.no_candidate Ex.secret 2 3 Ex.short_hyperplane
    = Raise ValueError.
Proof. reflexivity. Qed.

Lemma get_secret_splitter_no_candidate_witness :
  get_secret_splitter 5 Ex.no_candidate Ex.secret 3 3 Ex.short_hyperplane
    = Raise ValueError.
Proof.
  apply (get_secret_splitter_no_candidate 4 Ex.no_candidate Ex.secret 3 3).
  reflexivity.
Defined.

Lemma get_secret_splitter_dimension_2_witness :
  ∃ cands hp pts,
    Ex.one_candidate !! Ex.secret = Some cands ∧ hp ∈ cands ∧
    heap Ex.line_object !! hp = Some pts ∧
    Shared 0 = Shared hp ∧
    [[0; 1; 0]; [1; 1; 0]; [2; 1; 0]] = remove_first Ex.secret pts ∧
    (NoDup pts →
     ∀ p, p ∈ [[0; 1; 0]; [1; 1; 0]; [2; 1; 0]] ↔ p ∈ pts ∧ p ≠ Ex.secret).
Proof.
  apply (get_secret_splitter_dimension_2 0 Ex.one_candidate Ex.secret 3
           Ex.line_object (Shared 0)
           (mkState [1%nat; 0%nat; 1%nat]
                    {[0%nat := [[0; 1; 0]; [1; 1; 0]; [2; 1; 0]]]})).
  - vm_compute. reflexivity.
  - vm_compute. reflexivity.
Defined.

Lemma is_point_100 : is_point Ex.PG23 [1; 0; 0].
Proof. apply (bool_decide_unpack _). vm_compute. exact I. Qed.

Lemma is_point_010 : is_point Ex.PG23 [0; 1; 0].
Proof. apply (bool_decide_unpack _). vm_compute. exact I. Qed.


Lemma points_on_line_size_witness :
  ∃ l, points_on_line [1; 0; 0] [0; 1; 0] Ex.PG23 = Ok l ∧
       Z.of_nat (length l) = order Ex.PG23 + 1 ∧
       NoDup l ∧ Forall (is_point Ex.PG23) l.
Proof.
  apply (points_on_line_size Ex.PG23 [1; 0; 0] [0; 1; 0]).
  - exact Z.prime_3.
  - exact is_point_100.
  - exact is_point_010.
  - discriminate.
Defined.

Lemma reconstruct_hyperplane_terminates_witness :
  ∃ n, ∀ fuel, (n ≤ fuel)%nat →
    ∃ l, reconstruct_hyperplane fuel [[1; 0; 0]; [0; 1; 0]] Ex.PG23
           = Ok {[1%nat := l]}
         ∧ extends Ex.PG23 [[1; 0; 0]; [0; 1; 0]] l
         ∧ (length l ≤ length [[1; 0; 0]; [0; 1; 0]] + space_size Ex.PG23)%nat
         ∧ closed Ex.PG23 l.
Proof.
  apply (reconstruct_hyperplane_terminates Ex.PG23 [[1; 0; 0]; [0; 1; 0]]).
  - exact Z.prime_3.
  - constructor; [exact is_point_100|]. constructor; [exact is_point_010|].
    constructor.
Defined.

(** The line [z = 0], as the closure computes it, is closed. *)
Lemma closed_z0_closed : closed Ex.PG23 Ex.closed_z0.
Proof.
  destruct (reconstruct_hyperplane_closed 20 Ex.PG23 [[1; 0; 0]; [0; 1; 0]]
              {[1%nat := Ex.closed_z0]}) as (l & Hl & _ & Hcl).
  - vm_compute. reflexivity.
  - apply (f_equal (fun h : gmap nat (list point) => h !! 1%nat)) in Hl.
    rewrite !lookup_singleton_eq in Hl. injection Hl as <-. exact Hcl.
Qed.

Lemma reconstruct_hyperplane_idempotent_witness :
  reconstruct_hyperplane 11 Ex.closed_z0 Ex.PG23 = Ok {[1%nat := Ex.closed_z0]}.
Proof.
  apply (reconstruct_hyperplane_idempotent 11 Ex.PG23 Ex.closed_z0).
  - exact closed_z0_closed.
  - simpl. lia.
Defined.

(** C10 in the plane over GF(3), where the list object itself comes
    back, and in dimension 3 over GF(2), where the list object is left
    reordered. *)
Lemma get_secret_splitter_mutates_shared_lists_witness :
  (Ex.two_objects = Ex.two_objects ∧
   ∃ cands k t hp pts pool' t',
     Ex.two_objects_mapping !! Ex.secret = Some cands ∧
     (∀ l, l ∈ cands → ∃ id, (id, l) ∈ Ex.two_hyperplanes) ∧
     tape Ex.two_objects = k :: t ∧ cands !! (k mod length cands)%nat = Some hp ∧
     heap Ex.two_objects !! hp = Some pts ∧
     (2 = 2 ∧ pool' = remove_first Ex.secret pts ∧ t' = t
      ∨ 2 ≠ 2 ∧
        shuffle_from (length (remove_first Ex.secret pts) - 1)
          (remove_first Ex.secret pts) (select_heap Ex.secret hp pts Ex.two_objects t)
        = Ok (pool', mkState t' (heap (select_heap Ex.secret hp pts Ex.two_objects t)))) ∧
     (Ex.secret ∉ pool') ∧
     let s1 := mkState t' (<[hp := pool']> (heap Ex.two_objects)) in
     (∀ key ls i, Ex.two_objects_mapping !! key = Some ls → ls !! i = Some hp →
                  ls !! i ≫= (heap s1 !!.) = Some pool') ∧
     (2 = 2 ∧ Shared 0 = Shared hp ∧ Ex.two_objects_after = s1
      ∨ 2 ≠ 2 ∧ ∃ subset,
          (∀ p, p ∈ subset → p ∈ pool') ∧
          (2 ≤ Z.of_nat (rank 3 subset) ∧ Shared 0 = Local subset ∧ Ex.two_objects_after = s1
           ∨ Z.of_nat (rank 3 subset) < 2 ∧
             get_secret_splitter (pred 3%nat) Ex.two_objects_mapping Ex.secret 2 3 s1
             = Ok (Shared 0, Ex.two_objects_after))) ∧
     (∀ l, heap Ex.two_objects_after !! l = heap Ex.two_objects !! l
           ∨ l ∈ cands ∧ ∃ pts pts', heap Ex.two_objects !! l = Some pts ∧
                                      heap Ex.two_objects_after !! l = Some pts' ∧
                                      pts' ≡ₚ remove_first Ex.secret pts) ∧
     ∃ last pts0 pts',
       last ∈ cands ∧ heap Ex.two_objects !! last = Some pts0 ∧
       heap Ex.two_objects_after !! last = Some pts' ∧
       pts' ≡ₚ remove_first Ex.secret pts0 ∧ (Ex.secret ∉ pts') ∧
       (2 = 2 ∧ Shared 0 = Shared last
        ∨ 2 ≠ 2 ∧ ∃ v, Shared 0 = Local v ∧ ∀ p, p ∈ v → p ∈ pts'))
  ∧
  (Ex.plane_object = Ex.plane_object ∧
   ∃ cands k t hp pts pool' t',
     ({[Ex.secret3 := [0%nat]; [1; 0; 0; 0] := []]} : gmap point (list loc)) !! Ex.secret3 = Some cands ∧
     (∀ l, l ∈ cands → ∃ id, (id, l) ∈ [(1%nat, 0%nat)]) ∧
     tape Ex.plane_object = k :: t ∧ cands !! (k mod length cands)%nat = Some hp ∧
     heap Ex.plane_object !! hp = Some pts ∧
     (3 = 2 ∧ pool' = remove_first Ex.secret3 pts ∧ t' = t
      ∨ 3 ≠ 2 ∧
        shuffle_from (length (remove_first Ex.secret3 pts) - 1)
          (remove_first Ex.secret3 pts) (select_heap Ex.secret3 hp pts Ex.plane_object t)
        = Ok (pool', mkState t' (heap (select_heap Ex.secret3 hp pts Ex.plane_object t)))) ∧
     (Ex.secret3 ∉ pool') ∧
     let s1 := mkState t' (<[hp := pool']> (heap Ex.plane_object)) in
     (∀ key ls i, ({[Ex.secret3 := [0%nat]; [1; 0; 0; 0] := []]} : gmap point (list loc)) !! key = Some ls → ls !! i = Some hp →
                  ls !! i ≫= (heap s1 !!.) = Some pool') ∧
     (3 = 2 ∧ Local [[0; 1; 1; 1]; [0; 0; 1; 0]; [0; 1; 0; 0]] = Shared hp ∧ Ex.plane_shuffled = s1
      ∨ 3 ≠ 2 ∧ ∃ subset,
          (∀ p, p ∈ subset → p ∈ pool') ∧
          (3 ≤ Z.of_nat (rank 2 subset) ∧ Local [[0; 1; 1; 1]; [0; 0; 1; 0]; [0; 1; 0; 0]] = Local subset ∧ Ex.plane_shuffled = s1
           ∨ Z.of_nat (rank 2 subset) < 3 ∧
             get_secret_splitter (pred 3%nat) ({[Ex.secret3 := [0%nat]; [1; 0; 0; 0] := []]} : gmap point (list loc)) Ex.secret3 3 2 s1
             = Ok (Local [[0; 1; 1; 1]; [0; 0; 1; 0]; [0; 1; 0; 0]], Ex.plane_shuffled))) ∧
     (∀ l, heap Ex.plane_shuffled !! l = heap Ex.plane_object !! l
           ∨ l ∈ cands ∧ ∃ pts pts', heap Ex.plane_object !! l = Some pts ∧
                                      heap Ex.plane_shuffled !! l = Some pts' ∧
                                      pts' ≡ₚ remove_first Ex.secret3 pts) ∧
     ∃ last pts0 pts',
       last ∈ cands ∧ heap Ex.plane_object !! last = Some pts0 ∧
       heap Ex.plane_shuffled !! last = Some pts' ∧
       pts' ≡ₚ remove_first Ex.secret3 pts0 ∧ (Ex.secret3 ∉ pts') ∧
       (3 = 2 ∧ Local [[0; 1; 1; 1]; [0; 0; 1; 0]; [0; 1; 0; 0]] = Shared last
        ∨ 3 ≠ 2 ∧ ∃ v, Local [[0; 1; 1; 1]; [0; 0; 1; 0]; [0; 1; 0; 0]] = Local v ∧ ∀ p, p ∈ v → p ∈ pts')).
Proof.
  split.
  - apply (get_secret_splitter_mutates_shared_lists Ex.two_hyperplanes
             Ex.line_y0 Ex.two_objects Ex.two_objects_mapping Ex.two_objects 3
             Ex.secret 2 3 (Shared 0) Ex.two_objects_after).
    + vm_compute. reflexivity.
    + intros id l pts Hin Hl. unfold Ex.two_hyperplanes in Hin.
      apply elem_of_cons in Hin as [[= -> ->]|Hin];
        [|apply list_elem_of_singleton in Hin as [= -> ->]];
        vm_compute in Hl; injection Hl as <-;
        apply (bool_decide_unpack _); vm_compute; exact I.
    + vm_compute. reflexivity.
  - apply (get_secret_splitter_mutates_shared_lists [(1%nat, 0%nat)]
             [Ex.secret3; [1; 0; 0; 0]] Ex.plane_object
             {[Ex.secret3 := [0%nat]; [1; 0; 0; 0] := []]} Ex.plane_object 3
             Ex.secret3 3 2
             (Local [[0; 1; 1; 1]; [0; 0; 1; 0]; [0; 1; 0; 0]])
             Ex.plane_shuffled).
    + vm_compute. reflexivity.
    + intros id l pts Hin Hl.
      apply list_elem_of_singleton in Hin as [= -> ->].
      vm_compute in Hl. injection Hl as <-.
      apply (bool_decide_unpack _). vm_compute. exact I.
    + vm_compute. reflexivity.
Defined.

Lemma round_trip_witness :
  ∃ n, ∀ fuel', (n ≤ fuel')%nat →
    ∃ h, t_threshold_decrypt fuel' [[0; 1; 1]; [1; 0; 1]]
           [[0; 1; 0]; [1; 1; 0]; [1; 0; 0]]
         = Ok [RestoredHyperplane h; DecryptedSecret {[ [1; 1; 0] ]}].
Proof.
  apply (round_trip 5 2 2 Ex.tape3 [1; 1; 0]
           [[0; 1; 0]; [1; 1; 0]; [1; 0; 0]] [[0; 1; 1]; [1; 0; 1]]).
  vm_compute. reflexivity.
Defined.

(** ** The further properties at concrete inputs *)

Lemma points_on_line_order_witness :
  ∃ rest, points_on_line [1; 0; 0] [0; 1; 0] Ex.PG23
          = Ok ([0; 1; 0] :: [1; 0; 0] :: rest).
Proof.
  apply (points_on_line_order Ex.PG23 [1; 0; 0] [0; 1; 0]).
  - exact Z.prime_3.
  - exact is_point_100.
  - exact is_point_010.
  - discriminate.
Defined.

Lemma points_on_line_same_point_witness :
  points_on_line [1; 0; 0] [1; 0; 0] Ex.PG23 = Raise ValueError.
Proof.
  apply (points_on_line_same_point Ex.PG23 [1; 0; 0]).
  - exact Z.prime_3.
  - exact is_point_100.
Defined.

Lemma points_on_line_sym_witness :
  ∃ l l', points_on_line [1; 0; 0] [0; 1; 0] Ex.PG23 = Ok l ∧
          points_on_line [0; 1; 0] [1; 0; 0] Ex.PG23 = Ok l' ∧ l ≡ₚ l'.
Proof.
  apply (points_on_line_sym Ex.PG23 [1; 0; 0] [0; 1; 0]).
  - exact Z.prime_3.
  - exact is_point_100.
  - exact is_point_010.
  - discriminate.
Defined.

Lemma points_on_line_through_members_witness :
  ∃ l', points_on_line [1; 1; 0] [2; 1; 0] Ex.PG23 = Ok l' ∧ l' ≡ₚ Ex.line_z0.
Proof.
  apply (points_on_line_through_members Ex.PG23 [1; 0; 0] [0; 1; 0]
           [1; 1; 0] [2; 1; 0] Ex.line_z0).
  - exact Z.prime_3.
  - exact is_point_100.
  - exact is_point_010.
  - discriminate.
  - vm_compute. reflexivity.
  - apply (bool_decide_unpack _). vm_compute. exact I.
  - apply (bool_decide_unpack _). vm_compute. exact I.
  - discriminate.
Defined.

Lemma reconstruct_hyperplane_span_witness :
  ∃ n, ∀ fuel, (n ≤ fuel)%nat →
    ∃ l, reconstruct_hyperplane fuel [[1; 0; 0]; [0; 1; 0]] Ex.PG23
           = Ok {[1%nat := l]} ∧
         ∀ p, p ∈ l ↔
              is_point Ex.PG23 p ∧
              span (order Ex.PG23) (S (dimension Ex.PG23))
                   [[1; 0; 0]; [0; 1; 0]] p.
Proof.
  apply (reconstruct_hyperplane_span Ex.PG23 [[1; 0; 0]; [0; 1; 0]]).
  - exact Z.prime_3.
  - constructor; [exact is_point_100|]. constructor; [exact is_point_010|].
    constructor.
Defined.

Lemma reconstruct_hyperplane_least_witness :
  ∃ l, ({[1%nat := Ex.closed_z0]} : gmap nat (list point)) = {[1%nat := l]} ∧
       closed Ex.PG23 l ∧
       (∀ p, p ∈ [[1; 0; 0]; [0; 1; 0]] → p ∈ l) ∧
       ∀ big, closed Ex.PG23 big →
              (∀ p, p ∈ [[1; 0; 0]; [0; 1; 0]] → p ∈ big) →
              ∀ p, p ∈ l → p ∈ big.
Proof.
  apply (reconstruct_hyperplane_least 20 Ex.PG23 [[1; 0; 0]; [0; 1; 0]]
           {[1%nat := Ex.closed_z0]}).
  vm_compute. reflexivity.
Defined.

Lemma decrypt_share_order_witness :
  ∃ n, ∀ fuel', (n ≤ fuel')%nat →
    ∃ h', t_threshold_decrypt fuel' [[0; 1; 0]; [1; 0; 0]] Ex.line_x0
          = Ok [RestoredHyperplane h'; DecryptedSecret {[ [0; 1; 0] ]}].
Proof.
  apply (decrypt_share_order 20 [[1; 0; 0]; [0; 1; 0]] [[0; 1; 0]; [1; 0; 0]]
           Ex.line_x0 {[1%nat := Ex.closed_z0]} {[ [0; 1; 0] ]}).
  - apply perm_swap.
  - vm_compute. reflexivity.
Defined.

Lemma decrypt_scaled_shares_witness :
  t_threshold_decrypt 20 [[2; 0; 0]; [0; 5; 0]] Ex.line_x0
  = t_threshold_decrypt 20 [[1; 0; 0]; [0; 1; 0]] Ex.line_x0.
Proof.
  apply (decrypt_scaled_shares 20 [[1; 0; 0]; [0; 1; 0]]
           [[2; 0; 0]; [0; 5; 0]] Ex.line_x0).
  - constructor; [exists 2; split; [discriminate|reflexivity]|].
    constructor; [exists 5; split; [discriminate|reflexivity]|].
    constructor.
  - intros first [= <-]. repeat constructor; discriminate.
Defined.

Lemma decrypt_total_witness :
  ∃ n, ∀ fuel, (n ≤ fuel)%nat →
    ∃ msgs, t_threshold_decrypt fuel [[1; 0; 0]; [0; 1; 0]] Ex.line_x0 = Ok msgs.
Proof.
  apply (decrypt_total [[1; 0; 0]; [0; 1; 0]] Ex.line_x0 [0; 0; 1]).
  - reflexivity.
  - apply (bool_decide_unpack _). vm_compute. exact I.
Defined.

Lemma decrypt_malformed_input_witness :
  t_threshold_decrypt 20 [[1; 0; 0]; [0; 1; 0; 0]] Ex.line_x0
    = Raise TypeError ∧
  t_threshold_decrypt 20 [[1; 0; 0]; [0; 3; 0]] Ex.line_x0 = Raise ValueError ∧
  t_threshold_decrypt 20 [[1; 0; 0]; [0; 1]] Ex.line_x0
    = t_threshold_decrypt 20 [[1; 0; 0]; [0; 1; 1]] Ex.line_x0.
Proof.
  split; [|split].
  - destruct (proj2 (decrypt_malformed_input 20 Ex.line_x0 [[1; 0; 0]] []
                       [0; 0; 1] [0; 1; 0; 0])) as (HT & _ & _).
    + reflexivity.
    + reflexivity.
    + simpl. lia.
    + simpl. lia.
    + apply (bool_decide_unpack _). vm_compute. exact I.
    + apply HT; simpl; lia.
  - destruct (proj2 (decrypt_malformed_input 20 Ex.line_x0 [[1; 0; 0]] []
                       [0; 0; 1] [0; 3; 0])) as (_ & HV & _).
    + reflexivity.
    + reflexivity.
    + simpl. lia.
    + simpl. lia.
    + apply (bool_decide_unpack _). vm_compute. exact I.
    + apply HV; [reflexivity|].
      apply (bool_decide_unpack _). vm_compute. exact I.
  - destruct (proj2 (decrypt_malformed_input 20 Ex.line_x0 [[1; 0; 0]] []
                       [0; 0; 1] [0; 1])) as (_ & _ & HS).
    + reflexivity.
    + reflexivity.
    + simpl. lia.
    + simpl. lia.
    + apply (bool_decide_unpack _). vm_compute. exact I.
    + apply HS. reflexivity.
Defined.

Lemma threshold_witness :
  ∃ n, ∀ fuel', (n ≤ fuel')%nat →
    ∃ h, t_threshold_decrypt fuel' [[0; 0; 1]; [2; 1; 0]]
           [[1; 0; 1]; [1; 2; 1]; [1; 1; 1]; [0; 1; 0]]
         = Ok [RestoredHyperplane h; DecryptedSecret {[ [1; 2; 1] ]}].
Proof.
  apply (threshold 5 2 3 Ex.tape3 [1; 2; 1]
           [[1; 0; 1]; [1; 2; 1]; [1; 1; 1]; [0; 1; 0]]
           [[0; 0; 1]; [2; 1; 1]; [2; 1; 0]] [[0; 0; 1]; [2; 1; 0]]).
  - vm_compute. reflexivity.
  - intros p Hp. apply elem_of_cons in Hp as [->|Hp];
      [|apply list_elem_of_singleton in Hp as ->];
      apply (bool_decide_unpack _); vm_compute; exact I.
  - vm_compute. discriminate.
Defined.

Lemma find_largest_general_position_subset_spec_witness :
  ∃ pts first pool rest,
    heap (mkState [3; 1; 2; 0; 1; 5; 6; 7]%nat
            {[0%nat := remove_first Ex.secret3 Ex.plane_x0]}) !! 0%nat
      = Some pts ∧
    first :: pool ≡ₚ pts ∧
    heap Ex.plane_shuffled
      = <[0%nat := first :: pool]>
          (heap (mkState [3; 1; 2; 0; 1; 5; 6; 7]%nat
                   {[0%nat := remove_first Ex.secret3 Ex.plane_x0]})) ∧
    [[0; 1; 1; 1]; [0; 0; 1; 0]; [0; 1; 0; 0]] = first :: rest ∧
    rest `sublist_of` first :: pool ∧
    is_general_position
      (Ex.secret3 :: [[0; 1; 1; 1]; [0; 0; 1; 0]; [0; 1; 0; 0]]) 2 = true ∧
    ∀ p, p ∈ pool →
         p ∈ [[0; 1; 1; 1]; [0; 0; 1; 0]; [0; 1; 0; 0]]
         ∨ is_general_position
             (Ex.secret3 :: [[0; 1; 1; 1]; [0; 0; 1; 0]; [0; 1; 0; 0]] ++ [p]) 2
           = false.
Proof.
  apply (find_largest_general_position_subset_spec 0 Ex.secret3 2
           (mkState [3; 1; 2; 0; 1; 5; 6; 7]%nat
              {[0%nat := remove_first Ex.secret3 Ex.plane_x0]})).
  vm_compute. reflexivity.
Defined.

Lemma is_general_position_spec_witness :
  is_general_position [[1; 0; 0]; [0; 1; 0]] 3 = true ∧
  is_general_position [[1; 0; 0]; [0; 0; 1]] 3 = true.
Proof.
  split.
  - apply (proj1 (proj2 (is_general_position_spec [[1; 0; 0]; [0; 1; 0]] 3))).
    simpl. lia.
  - apply (proj2 (proj2 (is_general_position_spec
                           [[1; 0; 0]; [0; 1; 0]; [0; 0; 1]] 3))).
    + apply sublist_skip, sublist_cons, sublist_skip. constructor.
    + reflexivity.
Defined.

Lemma find_hyperplanes_for_secret_line_spec_witness :
  ∃ m, find_hyperplanes_for_secret_line Ex.two_hyperplanes Ex.line_y0
         Ex.two_objects = Ok (m, Ex.two_objects) ∧
       ∀ k, m !! k =
            if decide (k ∈ Ex.line_y0)
            then Some (filter (fun l => touches Ex.two_objects k Ex.line_y0 l
                                        = true) Ex.two_hyperplanes.*2)
            else None.
Proof.
  apply (find_hyperplanes_for_secret_line_spec Ex.two_hyperplanes Ex.line_y0
           Ex.two_objects).
  intros l Hl. apply elem_of_cons in Hl as [->|Hl];
    [|apply list_elem_of_singleton in Hl as ->]; vm_compute; by eexists.
Defined.

Lemma find_point_for_secret_line_spec_witness :
  find_point_for_secret_line [1; 0; 0] [[1; 0; 0]; [0; 1; 1]] (mkState [4%nat] ∅)
    = Ok (None, mkState [4%nat] ∅) ∧
  ∃ chosen,
    find_point_for_secret_line [1; 0; 0] (rational_points Ex.PG23)
      (mkState [4%nat] ∅)
    = Ok (Some chosen, mkState [] (heap (mkState [4%nat] ∅))) ∧
    chosen ∈ rational_points Ex.PG23 ∧ chosen ≠ [1; 0; 0] ∧
    ∃ i x, chosen !! i = Some x ∧ [1; 0; 0] !! i = Some x.
Proof.
  split.
  - apply (proj1 (find_point_for_secret_line_spec [1; 0; 0]
                    [[1; 0; 0]; [0; 1; 1]] (mkState [4%nat] ∅))).
    intros p Hp. apply elem_of_cons in Hp as [->|Hp];
      [by left|apply list_elem_of_singleton in Hp as ->; by right].
  - apply (proj2 (find_point_for_secret_line_spec [1; 0; 0]
                    (rational_points Ex.PG23) (mkState [4%nat] ∅))
             [0; 1; 0] 4%nat []).
    + apply (bool_decide_unpack _). vm_compute. exact I.
    + discriminate.
    + reflexivity.
    + reflexivity.
Defined.

Lemma encrypt_plane_total_witness :
  ∃ secret line splitters,
    rational_points (mkSpace 2 3)
      !! (5 mod length (rational_points (mkSpace 2 3)))%nat = Some secret ∧
    run (t_threshold_encrypt 1 2 3) [5; 3; 2]%nat
    = Ok [Secret secret; SecretLine line; Splitters splitters].
Proof. apply (encrypt_plane_total 0 3 5 3 2 []). reflexivity. Defined.

Lemma encrypt_line_shows_secret_witness :
  [[1; 0; 1]; [1; 2; 1]; [1; 1; 1]; [0; 1; 0]] !! 1%nat = Some [1; 2; 1].
Proof.
  apply (encrypt_line_shows_secret 5 2 3 Ex.tape3 [1; 2; 1]
           [[1; 0; 1]; [1; 2; 1]; [1; 1; 1]; [0; 1; 0]]
           [[0; 0; 1]; [2; 1; 1]; [2; 1; 0]]).
  vm_compute. reflexivity.
Defined.

Lemma encrypt_splitters_witness :
  ([1; 0; 1; 1] ∉ [[1; 0; 1; 0]; [0; 1; 0; 0]; [0; 1; 0; 1]]) ∧
  3 ≤ Z.of_nat (length [[1; 0; 1; 0]; [0; 1; 0; 0]; [0; 1; 0; 1]]) ∧
  ∃ pole, is_point (mkSpace (Z.to_nat 3) 2) pole ∧
          dot 2 pole [1; 0; 1; 1] = 0 ∧
          Forall (fun p => is_point (mkSpace (Z.to_nat 3) 2) p ∧
                           dot 2 pole p = 0)
                 [[1; 0; 1; 0]; [0; 1; 0; 0]; [0; 1; 0; 1]].
Proof.
  apply (encrypt_splitters 5 3 2
           [5; 3; 2; 1; 4; 0; 2; 3; 1; 0; 1; 2; 3; 4; 5; 0; 1; 2; 3]%nat
           [1; 0; 1; 1] [[0; 1; 1; 1]; [1; 0; 1; 1]; [1; 1; 0; 0]]).
  vm_compute. reflexivity.
Defined.

Lemma get_secret_splitter_errors_witness :
  get_secret_splitter 1 Ex.one_candidate [0; 1; 0] 3 3 Ex.short_hyperplane
    = Raise KeyError ∧
  get_secret_splitter 1 Ex.one_candidate Ex.secret 3 3
    (mkState [0%nat] {[0%nat := [[1; 0; 0]]]}) = Raise IndexError.
Proof.
  split.
  - apply (proj1 (get_secret_splitter_errors 0 Ex.one_candidate [0; 1; 0] 3 3
                    Ex.short_hyperplane)).
    vm_compute. reflexivity.
  - apply (proj2 (get_secret_splitter_errors 0 Ex.one_candidate Ex.secret 3 3
                    (mkState [0%nat] {[0%nat := [[1; 0; 0]]]}))
             [0%nat] 0%nat [] 0%nat [[1; 0; 0]]).
    + vm_compute. reflexivity.
    + reflexivity.
    + reflexivity.
    + vm_compute. reflexivity.
    + reflexivity.
    + discriminate.
Defined.

Lemma get_secret_splitter_attempt_witness :
  (∃ r s' v,
     get_secret_splitter 1 Ex.one_candidate Ex.secret 3 3
       (mkState [0; 0]%nat {[0%nat := [[1; 0; 0]; [0; 1; 0]]]}) = Ok (r, s') ∧
     to_list r s' = Ok (v, s'))
  ∨ ∃ subset s1,
      3 ≠ 2 ∧ Z.of_nat (rank 3 subset) < 3 ∧
      get_secret_splitter 1 Ex.one_candidate Ex.secret 3 3
        (mkState [0; 0]%nat {[0%nat := [[1; 0; 0]; [0; 1; 0]]]})
      = get_secret_splitter 0 Ex.one_candidate Ex.secret 3 3 s1 ∧
      ∀ l, l ∈ [0%nat] →
           ∃ pts p, heap s1 !! l = Some pts ∧ p ∈ pts ∧ p ≠ Ex.secret.
Proof.
  apply (get_secret_splitter_attempt 0 Ex.one_candidate Ex.secret 3 3
           [0%nat] (mkState [0; 0]%nat {[0%nat := [[1; 0; 0]; [0; 1; 0]]]})).
  - vm_compute. reflexivity.
  - discriminate.
  - intros l Hl. apply list_elem_of_singleton in Hl as ->.
    exists [[1; 0; 0]; [0; 1; 0]], [0; 1; 0].
    split; [vm_compute; reflexivity|]. split; [|split; [discriminate|simpl; lia]].
    apply (bool_decide_unpack _). vm_compute. exact I.
Defined.
